(** * wp-ai-indexer: a shallow embedding of the ingestion-to-vector pipeline

    The first part follows the TypeScript sources module by module:
    - [Js]       : the fragment of JavaScript the code relies on (decimal
                   rendering of numbers, [parseInt], thrown errors, settled
                   promises);
    - [Pinecone] : vector ids and the vector store gateway (src/pinecone.ts);
    - [Clean]    : the orchestrator's [clean] (src/indexer.ts);
    - [Chunker]  : [chunkContent] and [findBreakPoint] (src/chunking.ts);
    - [Utils]    : [processWithConcurrency], [RateLimiter], [CircuitBreaker],
                   [retryWithBackoff] (src/utils.ts);
    - [Indexer]  : [fetchSettings] and the orchestrator's [index]
                   (src/settings.ts, src/indexer.ts);
    - [Stats]    : [getChunkStats] and [createContentHash]
                   (src/chunking.ts, src/utils.ts);
    - [Purge]    : [upsertVectors], [deleteAllForDomain] and the
                   orchestrator's [deleteAll] (src/pinecone.ts,
                   src/indexer.ts);
    - [Embeddings] : [createEmbeddingWithRetry], [createBatchEmbeddings]
                   and their retry policy (src/embeddings.ts);
    - [Settings] : [validateSettings] (src/settings.ts);
    - [WordPress] : post types, pages and [fetchAllPosts]
                   (src/wordpress.ts).
    The second part states and proves their properties.

    JavaScript numbers are modelled by [Z] where the code uses them as
    integers (ids, indices, positions, millisecond timestamps) and by [Q]
    where it divides or multiplies by fractions (token counts, jitter);
    rounding of floating point numbers is not modelled.  Ids are assumed to
    stay in the range where the decimal rendering of a number is exact.
    Remote services, the clock and [Math.random] enter as explicit inputs. *)

From Stdlib Require Import ZArith NArith QArith Qround Qminmax String Ascii List Lia Lqa.
From Stdlib Require Import DecimalString DecimalN.
From stdpp Require Import base gmap sets list strings.

Local Open Scope Z_scope.

(* ===================================================================== *)
(** * JavaScript values                                                   *)
(* ===================================================================== *)

Module Js.

(** ** Strings *)

(** [\d] of a JavaScript regular expression: the ten ASCII digits. *)
Definition is_digit (c : ascii) : bool :=
  let n := nat_of_ascii c in (48 <=? n)%nat && (n <=? 57)%nat.

(** The numeric value of a digit character. *)
Definition digit_value (c : ascii) : N := N.of_nat (nat_of_ascii c - 48).

(** [strip_prefix p s] is [Some r] when [s = p ++ r]. *)
Fixpoint strip_prefix (p s : string) : option string :=
  match p, s with
  | EmptyString, _ => Some s
  | String a p', String b s' =>
      if Ascii.eqb a b then strip_prefix p' s' else None
  | String _ _, EmptyString => None
  end.

(** Longest prefix of digits, and the rest: the greedy match of [\d*]. *)
Fixpoint span_digits (s : string) : string * string :=
  match s with
  | EmptyString => (EmptyString, EmptyString)
  | String c s' =>
      if is_digit c
      then let '(ds, r) := span_digits s' in (String c ds, r)
      else (EmptyString, s)
  end.

(** Value of a string of digits read in base ten, most significant first. *)
Fixpoint digits_value (acc : N) (s : string) : N :=
  match s with
  | EmptyString => acc
  | String c s' => digits_value (10 * acc + digit_value c)%N s'
  end.

(** [parseInt(s, 10)] on input without leading white space or sign: the
    value of the longest prefix of digits, [NaN] (here [None]) if there is
    none.  The code only applies it to a [\d+] capture group. *)
Definition parseInt (s : string) : option Z :=
  let '(ds, _) := span_digits s in
  match ds with
  | EmptyString => None
  | _ => Some (Z.of_N (digits_value 0 ds))
  end.

(** Decimal rendering of a natural number, as template literals do. *)
Definition N_to_string (n : N) : string :=
  NilEmpty.string_of_uint (N.to_uint n).

(** [`${z}`] for an integer-valued number. *)
Definition Z_to_string (z : Z) : string :=
  match z with
  | Z0 => "0"
  | Zpos p => N_to_string (Npos p)
  | Zneg p => String "-" (N_to_string (Npos p))
  end.

(** ** Thrown values

    Every value thrown in the sources is an [Error] object, possibly
    decorated by an HTTP client with a [status] or a [code]. *)
Record Error := mkError {
  message : string;
  status : option Z;
  code : option string
}.

Definition new_Error (msg : string) : Error :=
  {| message := msg; status := None; code := None |}.

(** The outcome of awaiting a promise: fulfilled with a value or rejected
    with a reason. *)
Inductive Settled (A : Type) : Type :=
| Fulfilled (value : A)
| Rejected (reason : Error).
Arguments Fulfilled {A} value.
Arguments Rejected {A} reason.

End Js.

(* ===================================================================== *)
(** * Vector store gateway (src/pinecone.ts)                              *)
(* ===================================================================== *)

Module Pinecone.

(** [createVectorId(postId, chunkIndex)]:
    [`post-${postId}-chunk-${chunkIndex}`]. *)
Definition createVectorId (postId chunkIndex : Z) : string :=
  "post-" +:+ Js.Z_to_string postId +:+ "-chunk-" +:+ Js.Z_to_string chunkIndex.

(** [VectorMetadata], restricted to the fields that scope and identify a
    vector; the descriptive fields (title, url, dates, ...) are kept as an
    uninterpreted association list. *)
Record VectorMetadata := {
  post_id : Z;
  chunk : string;
  domain : string;
  schema_version : Z;
  chunk_index : Z;
  descriptive : list (string * string)
}.

Record PineconeVector := {
  id : string;
  values : list Q;
  metadata : VectorMetadata
}.

(** [createVector(postId, chunkIndex, embedding, metadata)]: the metadata is
    copied and its [chunk_index] set. *)
Definition createVector (postId chunkIndex : Z) (embedding : list Q)
    (md : VectorMetadata) : PineconeVector :=
  let vectorId := createVectorId postId chunkIndex in
  {| id := vectorId;
     values := embedding;
     metadata := {| post_id := post_id md; chunk := chunk md;
                    domain := domain md; schema_version := schema_version md;
                    chunk_index := chunkIndex;
                    descriptive := descriptive md |} |}.

(** One namespace of the index, as far as enumeration and deletion read
    it: the metadata stored under each vector id ([None] when a record
    carries no metadata). *)
Abbreviation Store := (gmap string (option VectorMetadata)).

(** [array.slice(i, i + size)] for [i = 0, size, 2 size, ...]: the batches
    built by the [for (i = 0; i < length; i += size)] loops. *)
Fixpoint slices_fuel {A} (fuel size : nat) (l : list A) : list (list A) :=
  match fuel, l with
  | O, _ | _, [] => []
  | S fuel', _ => take size l :: slices_fuel fuel' size (drop size l)
  end.

Definition slices {A} (size : nat) (l : list A) : list (list A) :=
  slices_fuel (length l) size l.

(** Outcomes of the store's remote calls during one run: the [k]-th
    [deleteMany] request fails with [deleteMany_error k] when that is
    [Some], and a listing fails with [list_error]. *)
Record Remote := {
  deleteMany_error : nat -> option Js.Error;
  list_error : option Js.Error
}.

(** [index.namespace(ns).deleteMany(batch)]: removes the listed ids; a
    failed request leaves the namespace as it was. *)
Definition deleteMany (r : Remote) (k : nat) (batch : list string)
    (store : Store) : Js.Settled unit * Store :=
  match deleteMany_error r k with
  | Some e => (Js.Rejected e, store)
  | None => (Js.Fulfilled tt, foldr delete store batch)
  end.

(** The [for] loop of [deleteByVectorIds] over the batches; the first
    failing request aborts the loop. *)
Fixpoint deleteBatches (r : Remote) (k : nat) (batches : list (list string))
    (store : Store) : Js.Settled unit * Store :=
  match batches with
  | [] => (Js.Fulfilled tt, store)
  | batch :: rest =>
      match deleteMany r k batch store with
      | (Js.Rejected e, store') => (Js.Rejected e, store')
      | (Js.Fulfilled _, store') => deleteBatches r (S k) rest store'
      end
  end.

(** [deleteByVectorIds(vectorIds)]: nothing for an empty list, else
    batches of 1000; the [catch] logs and re-throws. *)
Definition deleteByVectorIds (r : Remote) (vectorIds : list string)
    (store : Store) : Js.Settled unit * Store :=
  match vectorIds with
  | [] => (Js.Fulfilled tt, store)
  | _ => deleteBatches r 0 (slices 1000 vectorIds) store
  end.

(** [fetch(ids)]: the records found under the given ids, as
    [Object.entries] lists them. *)
Definition fetch (store : Store) (ids : list string)
    : list (string * option VectorMetadata) :=
  omap (fun i => (fun v => (i, v)) <$> store !! i) ids.

(** [metadata && metadata.domain === this.settings.domain] *)
Definition in_domain (dom : string) (md : option VectorMetadata) : bool :=
  match md with
  | Some m => bool_decide (domain m = dom)
  | None => false
  end.

(** The body of the pagination loop for one page of listed ids. *)
Definition domainIdsOfPage (dom : string) (store : Store)
    (page : list string) : list string :=
  (filter (fun e => in_domain dom e.2 = true) (fetch store page)).*1.

(** [listVectorIdsForDomain()]: pages of at most 100 listed ids, each
    fetched and filtered by domain. *)
Definition listVectorIdsForDomain (r : Remote) (dom : string)
    (store : Store) : Js.Settled (list string) :=
  match list_error r with
  | Some e => Js.Rejected e
  | None =>
      Js.Fulfilled
        (concat (domainIdsOfPage dom store <$>
                   slices 100 (map_to_list store).*1))
  end.

End Pinecone.

(* ===================================================================== *)
(** * Orchestrator: reconciliation (src/indexer.ts, [clean])              *)
(* ===================================================================== *)

Module Clean.

Import Pinecone.

Record IndexerSettings := {
  clean_deleted : bool;
  chunk_size : Z;
  chunk_overlap : Z;
  settings_domain : string
}.

Record ProcessedDocument := {
  doc_id : Z;
  doc_title : string;
  doc_content : string
}.

(** [vectorId.match(/^post-(\d+)-chunk-\d+$/)]: the first capture group
    when the whole id matches. *)
Definition vectorIdPattern (vectorId : string) : option string :=
  match Js.strip_prefix "post-" vectorId with
  | None => None
  | Some r1 =>
      let '(postDigits, r2) := Js.span_digits r1 in
      match postDigits, Js.strip_prefix "-chunk-" r2 with
      | EmptyString, _ | _, None => None
      | _, Some r3 =>
          match Js.span_digits r3 with
          | (String _ _, EmptyString) => Some postDigits
          | _ => None
          end
      end
  end.

(** [match ? parseInt(match[1], 10) : no match] *)
Definition postIdOfVectorId (vectorId : string) : option Z :=
  match vectorIdPattern vectorId with
  | Some digits => Js.parseInt digits
  | None => None
  end.

(** A [Set<number>] iterates in insertion order. *)
Definition set_add (x : Z) (s : list Z) : list Z :=
  if bool_decide (x ∈ s) then s else s ++ [x].

(** Step 4: the ids of the posts present in the index, and the vector ids
    of each. *)
Definition extractPostIds (allVectorIds : list string)
    : list Z * gmap Z (list string) :=
  foldl (fun '(pineconePostIds, postIdToVectorIds) vectorId =>
           match postIdOfVectorId vectorId with
           | Some postId =>
               (set_add postId pineconePostIds,
                <[postId := default [] (postIdToVectorIds !! postId)
                              ++ [vectorId]]> postIdToVectorIds)
           | None => (pineconePostIds, postIdToVectorIds)
           end)
        ([], ∅) allVectorIds.

(** Step 5: the posts of the index that WordPress no longer has, and
    their vector ids. *)
Definition findDeleted (wpPostIds : gset Z) (pineconePostIds : list Z)
    (postIdToVectorIds : gmap Z (list string)) : list Z * list string :=
  foldl (fun '(deletedPostIds, vectorIdsToDelete) postId =>
           if bool_decide (postId ∈ wpPostIds)
           then (deletedPostIds, vectorIdsToDelete)
           else (deletedPostIds ++ [postId],
                 vectorIdsToDelete
                   ++ default [] (postIdToVectorIds !! postId)))
        ([], []) pineconePostIds.

Definition vectorIdsToDelete (wpPostIds : gset Z)
    (allVectorIds : list string) : list string :=
  let '(pineconePostIds, postIdToVectorIds) := extractPostIds allVectorIds in
  (findDeleted wpPostIds pineconePostIds postIdToVectorIds).2.

(** Outcomes of the collaborators of one [clean] run. *)
Record Collaborators := {
  fetchSettings : Js.Settled IndexerSettings;
  initialize : Js.Settled unit;
  fetchAllPosts : Js.Settled (list ProcessedDocument);
  getStats : Js.Settled unit;
  remote : Remote
}.

(** [clean()]: every failure is logged and re-thrown by the [catch]. *)
Definition clean (c : Collaborators) (store : Store)
    : Js.Settled unit * Store :=
  match fetchSettings c with
  | Js.Rejected e => (Js.Rejected e, store)
  | Js.Fulfilled settings =>
      if negb (clean_deleted settings) then (Js.Fulfilled tt, store) else
      match initialize c with
      | Js.Rejected e => (Js.Rejected e, store)
      | Js.Fulfilled _ =>
      match fetchAllPosts c with
      | Js.Rejected e => (Js.Rejected e, store)
      | Js.Fulfilled docs =>
      let wpPostIds : gset Z := list_to_set (doc_id <$> docs) in
      match getStats c with
      | Js.Rejected e => (Js.Rejected e, store)
      | Js.Fulfilled _ =>
      match listVectorIdsForDomain (remote c) (settings_domain settings) store with
      | Js.Rejected e => (Js.Rejected e, store)
      | Js.Fulfilled allVectorIds =>
          match vectorIdsToDelete wpPostIds allVectorIds with
          | [] => (Js.Fulfilled tt, store)
          | ids => deleteByVectorIds (remote c) ids store
          end
      end end end end
  end.

End Clean.

(* ===================================================================== *)
(** * Chunk splitter (src/chunking.ts)                                    *)
(* ===================================================================== *)

Module Chunker.

(** Strings are sequences of code units below 256.  [\s] and [trim]
    agree on white space there: tab, line feed, vertical tab, form feed,
    carriage return, space and no-break space. *)
Definition is_space (c : ascii) : bool :=
  let n := nat_of_ascii c in
  ((9 <=? n)%nat && (n <=? 13)%nat) || (n =? 32)%nat || (n =? 160)%nat.

(** [[.!?]] *)
Definition is_sentence_mark (c : ascii) : bool :=
  let n := nat_of_ascii c in (n =? 46)%nat || (n =? 33)%nat || (n =? 63)%nat.

(** [s.replace(/\s+/g, ' ')]; [inRun] tells that the previous character
    belonged to the white-space run being replaced. *)
Fixpoint collapseSpaces (inRun : bool) (s : string) : string :=
  match s with
  | EmptyString => EmptyString
  | String c r =>
      if is_space c
      then if inRun then collapseSpaces true r
           else String " " (collapseSpaces true r)
      else String c (collapseSpaces false r)
  end.

Fixpoint trimStart (s : string) : string :=
  match s with
  | EmptyString => EmptyString
  | String c r => if is_space c then trimStart r else s
  end.

Fixpoint trimEnd (s : string) : string :=
  match s with
  | EmptyString => EmptyString
  | String c r =>
      match trimEnd r with
      | EmptyString => if is_space c then EmptyString else String c EmptyString
      | r' => String c r'
      end
  end.

Definition trim (s : string) : string := trimEnd (trimStart s).

(** [content.replace(/\s+/g, ' ').trim()] *)
Definition normalize (content : string) : string :=
  trim (collapseSpaces false content).

Definition len (s : string) : Z := Z.of_nat (String.length s).

(** [s.slice(from, to)]: a negative index counts from the end, both are
    clamped to the string, and an empty range gives the empty string. *)
Definition slice (s : string) (from to : Z) : string :=
  let clamp i := if i <? 0 then Z.max (len s + i) 0 else Z.min i (len s) in
  let a := clamp from in
  let b := clamp to in
  substring (Z.to_nat a) (Z.to_nat (b - a)) s.

Record Chunk := { text : string; index : Z }.

(** Index of the last match of [/[.!?]\s/g] in [region]: the [exec] loop
    resumes after each two-character match.  [i] is the index of the
    first character of [region]. *)
Fixpoint lastSentenceMatch (region : string) (i : Z) (last : option Z)
    : option Z :=
  match region with
  | EmptyString => last
  | String a rest =>
      match rest with
      | EmptyString => last
      | String b rest' =>
          if is_sentence_mark a && is_space b
          then lastSentenceMatch rest' (i + 2) (Some i)
          else lastSentenceMatch rest (i + 1) last
      end
  end.

(** Index of the last match of [/\s/g] in [region]. *)
Fixpoint lastSpaceMatch (region : string) (i : Z) (last : option Z)
    : option Z :=
  match region with
  | EmptyString => last
  | String a rest =>
      lastSpaceMatch rest (i + 1) (if is_space a then Some i else last)
  end.

(** [findBreakPoint(content, start, idealEnd)].  [Math.floor(chunk_size *
    0.2)] is the integer quotient by five for a chunk size that is a
    non-negative integer. *)
Definition findBreakPoint (chunk_size : Z) (content : string)
    (start idealEnd : Z) : Z :=
  let searchStart := idealEnd - chunk_size / 5 in
  let searchRegion := slice content searchStart idealEnd in
  let lastSentenceEnd :=
    match lastSentenceMatch searchRegion 0 None with
    | Some i => searchStart + i + 1
    | None => -1
    end in
  if start <? lastSentenceEnd then lastSentenceEnd else
  let lastWordBoundary :=
    match lastSpaceMatch searchRegion 0 None with
    | Some i => searchStart + i
    | None => -1
    end in
  if start <? lastWordBoundary then lastWordBoundary else
  idealEnd.

(** The variables of the [while] loop of [chunkContent].  Next to each
    pushed chunk the model records the source span [content.slice(position,
    endPosition)] it was cut from; the code itself only reads the chunk. *)
Record Emitted := { chunk : Chunk; spanStart : Z; spanEnd : Z }.

Record LoopState := {
  position : Z;
  chunkIndex : Z;
  chunks : list Emitted
}.

(** One evaluation of the loop condition and body: the next state, or the
    chunks when the loop is left.  In the guard
    [position <= chunks[chunks.length - 1]?.text.length] a missing last
    chunk makes the comparison false. *)
Definition chunkStep (chunkSize chunkOverlap : Z) (content : string)
    (st : LoopState) : LoopState + list Emitted :=
  if negb (position st <? len content) then inr (chunks st) else
  let endPosition := position st + chunkSize in
  let endPosition :=
    if endPosition <? len content
    then findBreakPoint chunkSize content (position st) endPosition
    else len content in
  let chunkText := trim (slice content (position st) endPosition) in
  let '(chunks', chunkIndex') :=
    if 0 <? len chunkText
    then (chunks st ++ [{| chunk := {| text := chunkText;
                                         index := chunkIndex st |};
                           spanStart := position st;
                           spanEnd := endPosition |}],
          chunkIndex st + 1)
    else (chunks st, chunkIndex st) in
  if endPosition <? len content then
    let position' := endPosition - chunkOverlap in
    let position' :=
      match last chunks' with
      | Some e =>
          if position' <=? len (text (chunk e)) then endPosition
          else position'
      | None => position'
      end in
    inl {| position := position'; chunkIndex := chunkIndex';
           chunks := chunks' |}
  else inr chunks'.

(** The [while] loop, run for at most [fuel] iterations; [None] when the
    loop has not been left by then. *)
Fixpoint chunkLoop (fuel : nat) (chunkSize chunkOverlap : Z)
    (content : string) (st : LoopState) : option (list Emitted) :=
  match fuel with
  | O => None
  | S fuel' =>
      match chunkStep chunkSize chunkOverlap content st with
      | inl st' => chunkLoop fuel' chunkSize chunkOverlap content st'
      | inr result => Some result
      end
  end.

(** [chunkContent(content)] with the spans of the chunks. *)
Definition chunkContentSpans (fuel : nat) (chunkSize chunkOverlap : Z)
    (content : string) : option (list Emitted) :=
  let content := normalize content in
  if len content <=? chunkSize
  then Some [{| chunk := {| text := content; index := 0 |};
                spanStart := 0; spanEnd := len content |}]
  else chunkLoop fuel chunkSize chunkOverlap content
         {| position := 0; chunkIndex := 0; chunks := [] |}.

(** [chunkContent(content)] for the settings [chunk_size] and
    [chunk_overlap]. *)
Definition chunkContent (fuel : nat) (chunkSize chunkOverlap : Z)
    (content : string) : option (list Chunk) :=
  fmap (M := list) chunk <$> chunkContentSpans fuel chunkSize chunkOverlap content.

End Chunker.

(* ===================================================================== *)
(** * Utilities (src/utils.ts)                                            *)
(* ===================================================================== *)

Module Utils.

(** ** [processWithConcurrency]

    Promises are modelled by the virtual time at which they settle: the
    processor started on item [i] at time [t] answers after a latency, and
    [results[i]] is filled as soon as the clock has reached [t + latency].
    The function itself only lets time pass at its two [await]s. *)

(** The promise made for one item: when it settles, and how. *)
Record Task (R : Type) := {
  finish : Z;
  outcome : Js.Settled R
}.
Arguments finish {R} _.
Arguments outcome {R} _.

(** The variables of the function at a point of its [for] loop: the
    promises made so far, in item order, and the [executing] array as the
    indices of the items whose promises it holds. *)
Record PoolState (R : Type) := {
  clock : Z;
  started : list (Task R);
  executing : list nat
}.
Arguments clock {R} _.
Arguments started {R} _.
Arguments executing {R} _.

Section ProcessWithConcurrency.

Context {T R : Type}.

(** The processor: latency (in ms, not negative) and outcome for an item
    and its index. *)
Variable processor : T -> nat -> Z * Js.Settled R.

(** [results[k] !== undefined] at time [t]. *)
Definition resultFilled (t : Z) (tasks : list (Task R)) (k : nat) : bool :=
  match tasks !! k with
  | Some task => finish task <=? t
  | None => false
  end.

Definition finishOf (tasks : list (Task R)) (k : nat) : Z :=
  match tasks !! k with
  | Some task => finish task
  | None => 0
  end.

(** [await Promise.race(executing)]: the clock when the first of them has
    settled ([executing] is never empty there). *)
Definition afterRace (t : Z) (tasks : list (Task R)) (ex : list nat) : Z :=
  match ex with
  | [] => t
  | k :: ks =>
      Z.max t (foldr (fun j m => Z.min (finishOf tasks j) m)
                     (finishOf tasks k) ks)
  end.

(** [await Promise.all(executing)]: the clock when all of them have
    settled. *)
Definition afterAll (t : Z) (tasks : list (Task R)) (ex : list nat) : Z :=
  foldr (fun j m => Z.max (finishOf tasks j) m) t ex.

(** [items.findIndex((_, itemIdx) => itemIdx >= i - executing.length + 1 &&
    itemIdx <= i && results[itemIdx] !== undefined) >= 0], over the [n]
    items. *)
Definition windowHasResult (n i : nat) (st : PoolState R) : bool :=
  existsb (fun itemIdx =>
             (Z.of_nat i - Z.of_nat (length (executing st)) + 1
                <=? Z.of_nat itemIdx)
             && (itemIdx <=? i)%nat
             && resultFilled (clock st) (started st) itemIdx)
          (seq 0 n).

(** The body of the [for] loop for item [i]. *)
Definition poolStep (n : nat) (concurrency : Z) (st : PoolState R)
    (i : nat) (item : T) : PoolState R :=
  let '(latency, out) := processor item i in
  let st1 := {| clock := clock st;
                started := started st
                             ++ [{| finish := clock st + latency;
                                    outcome := out |}];
                executing := executing st ++ [i] |} in
  if concurrency <=? Z.of_nat (length (executing st1)) then
    let st2 := {| clock := afterRace (clock st1) (started st1) (executing st1);
                  started := started st1;
                  executing := executing st1 |} in
    (* completedIndices is all of executing or empty *)
    if windowHasResult n i st2 && (0 <? length (executing st2))%nat
    then {| clock := clock st2; started := started st2;
            executing := drop 1 (executing st2) |}
    else st2
  else st1.

Fixpoint poolLoop (n : nat) (concurrency : Z) (st : PoolState R)
    (i : nat) (items : list T) : PoolState R :=
  match items with
  | [] => st
  | item :: rest =>
      poolLoop n concurrency (poolStep n concurrency st i item) (S i) rest
  end.

(** [processWithConcurrency(items, processor, concurrency)], called at
    time [t0]: the array returned, [None] standing for a slot that is
    still empty when the function returns. *)
Definition processWithConcurrency (t0 : Z) (items : list T)
    (concurrency : Z) : list (option (Js.Settled R)) :=
  let st := poolLoop (length items) concurrency
              {| clock := t0; started := []; executing := [] |} 0 items in
  let tEnd := afterAll (clock st) (started st) (executing st) in
  (fun task => if finish task <=? tEnd then Some (outcome task) else None)
    <$> started st.

End ProcessWithConcurrency.

(** ** [RateLimiter] *)

Record RateLimiter := {
  tokens : Q;
  lastRefill : Z;
  capacity : Q;
  refillRate : Q
}.

(** [new RateLimiter(requestsPerSecond, burstSize)] at time [now];
    [burstSize || requestsPerSecond] falls back when the burst size is
    missing or zero. *)
Definition newRateLimiter (now : Z) (requestsPerSecond : Q)
    (burstSize : option Q) : RateLimiter :=
  let cap := match burstSize with
             | Some b => if Qeq_bool b 0 then requestsPerSecond else b
             | None => requestsPerSecond
             end in
  {| tokens := cap; lastRefill := now; capacity := cap;
     refillRate := requestsPerSecond |}.

(** [refill()] when [Date.now()] reads [now]. *)
Definition refill (now : Z) (rl : RateLimiter) : RateLimiter :=
  let timeSinceLastRefill := (inject_Z (now - lastRefill rl) / 1000)%Q in
  let tokensToAdd := (timeSinceLastRefill * refillRate rl)%Q in
  {| tokens := Qmin (capacity rl) (tokens rl + tokensToAdd)%Q;
     lastRefill := now;
     capacity := capacity rl;
     refillRate := refillRate rl |}.

(** One turn of the loop of [acquire(tokensNeeded)]: refill, then either
    take the tokens and return ([true]) or go to sleep ([false]).  Nothing
    is awaited between the refill and the deduction. *)
Definition acquireTurn (now : Z) (tokensNeeded : Q) (rl : RateLimiter)
    : RateLimiter * bool :=
  let rl1 := refill now rl in
  if Qle_bool tokensNeeded (tokens rl1)
  then ({| tokens := (tokens rl1 - tokensNeeded)%Q;
           lastRefill := lastRefill rl1;
           capacity := capacity rl1;
           refillRate := refillRate rl1 |}, true)
  else (rl1, false).

(** The sleep requested after a failed turn:
    [Math.min((tokensNeeded - tokens) / refillRate * 1000, 100)]. *)
Definition waitTime (tokensNeeded : Q) (rl : RateLimiter) : Q :=
  Qmin ((tokensNeeded - tokens rl) / refillRate rl * 1000)%Q 100.

(** [acquire(tokensNeeded)] against the successive readings of the clock:
    the limiter when the call returns and the readings left, or the
    limiter still waiting when the readings run out. *)
Fixpoint acquire (tokensNeeded : Q) (readings : list Z) (rl : RateLimiter)
    : RateLimiter * option (list Z) :=
  match readings with
  | [] => (rl, None)
  | now :: rest =>
      match acquireTurn now tokensNeeded rl with
      | (rl', true) => (rl', Some rest)
      | (rl', false) => acquire tokensNeeded rest rl'
      end
  end.

(** ** [CircuitBreaker] *)

Inductive BreakerState := closed | open | half_open.

Record CircuitBreaker := {
  failureCount : Z;
  lastFailureTime : Z;
  state : BreakerState;
  failureThreshold : Z;
  resetTimeout : Z
}.

Definition newCircuitBreaker (failureThreshold resetTimeout : Z)
    : CircuitBreaker :=
  {| failureCount := 0; lastFailureTime := 0; state := closed;
     failureThreshold := failureThreshold; resetTimeout := resetTimeout |}.

Definition withState (s : BreakerState) (cb : CircuitBreaker)
    : CircuitBreaker :=
  {| failureCount := failureCount cb; lastFailureTime := lastFailureTime cb;
     state := s; failureThreshold := failureThreshold cb;
     resetTimeout := resetTimeout cb |}.

Definition circuitOpenError : Js.Error := Js.new_Error "Circuit breaker is open".

(** [execute], up to the call of [fn]: [None] when it throws
    ['Circuit breaker is open'] without calling [fn]. *)
Definition enter (now : Z) (cb : CircuitBreaker) : option CircuitBreaker :=
  match state cb with
  | open =>
      if resetTimeout cb <=? now - lastFailureTime cb
      then Some (withState half_open cb)
      else None
  | _ => Some cb
  end.

(** [execute], after [fn] has fulfilled. *)
Definition onSuccess (cb : CircuitBreaker) : CircuitBreaker :=
  match state cb with
  | half_open =>
      {| failureCount := 0; lastFailureTime := lastFailureTime cb;
         state := closed; failureThreshold := failureThreshold cb;
         resetTimeout := resetTimeout cb |}
  | _ => cb
  end.

(** [execute], after [fn] has rejected, when [Date.now()] reads [now]. *)
Definition onFailure (now : Z) (cb : CircuitBreaker) : CircuitBreaker :=
  let cb1 := {| failureCount := failureCount cb + 1; lastFailureTime := now;
                state := state cb; failureThreshold := failureThreshold cb;
                resetTimeout := resetTimeout cb |} in
  if failureThreshold cb1 <=? failureCount cb1
  then withState open cb1
  else cb1.




Section Effects.

(** The world outside the process; [Date.now()] reads its clock. *)
Context {World : Type}.
Variable now : World -> Z.

(** [execute(fn)] for a call that no other call overlaps. *)
Definition execute {T : Type} (fn : World -> World * Js.Settled T)
    (cb : CircuitBreaker) (w : World)
    : CircuitBreaker * World * Js.Settled T :=
  match enter (now w) cb with
  | None => (cb, w, Js.Rejected circuitOpenError)
  | Some cb1 =>
      match fn w with
      | (w', Js.Fulfilled result) => (onSuccess cb1, w', Js.Fulfilled result)
      | (w', Js.Rejected error) =>
          (onFailure (now w') cb1, w', Js.Rejected error)
      end
  end.

(** Calls made one after the other. *)
Fixpoint executeAll {T : Type} (fns : list (World -> World * Js.Settled T))
    (cb : CircuitBreaker) (w : World)
    : CircuitBreaker * World * list (Js.Settled T) :=
  match fns with
  | [] => (cb, w, [])
  | fn :: rest =>
      let '(cb1, w1, r) := execute fn cb w in
      let '(cb2, w2, rs) := executeAll rest cb1 w1 in
      (cb2, w2, r :: rs)
  end.

(** ** [retryWithBackoff] *)

(** [isRetryableError(error)]; a missing status, or a status of zero, is
    falsy. *)
Definition isRetryableError (error : Js.Error) : bool :=
  let networkError :=
    match Js.code error with
    | Some c =>
        bool_decide (c ∈ ["ECONNRESET"; "ETIMEDOUT"; "ENOTFOUND"]%string)
    | None => false
    end in
  match Js.status error with
  | Some s => if s =? 0 then networkError else (s =? 429) || (500 <=? s)
  | None => networkError
  end.

(** [Math.min(baseDelay * Math.pow(2, attempt), maxDelay)] *)
Definition backoffDelay (baseDelay maxDelay : Z) (attempt : nat) : Z :=
  Z.min (baseDelay * 2 ^ Z.of_nat attempt) maxDelay.

(** [Math.floor(delay + delay * 0.25 * (Math.random() - 0.5))] for the
    draw [r] of [Math.random()]. *)
Definition backoffWait (baseDelay maxDelay : Z) (attempt : nat) (r : Q) : Z :=
  let delay := inject_Z (backoffDelay baseDelay maxDelay attempt) in
  let jitter := (delay * (1 # 4) * (r - (1 # 2)))%Q in
  Qfloor (delay + jitter).

(** [setTimeout]: the world after the process has slept. *)
Variable sleep : Z -> World -> World.

(** The draws of [Math.random()], one per failed attempt. *)
Variable random : nat -> Q.

(** The [for] loop from [attempt] on, with [maxRetries - attempt =
    remaining]: the world and outcome at the end, and the sleeps made. *)
Fixpoint retryFrom {T : Type} (fn : World -> World * Js.Settled T)
    (baseDelay maxDelay : Z) (remaining attempt : nat) (w : World)
    : World * Js.Settled T * list Z :=
  match fn w with
  | (w', Js.Fulfilled result) => (w', Js.Fulfilled result, [])
  | (w', Js.Rejected error) =>
      match remaining with
      | O => (w', Js.Rejected error, [])
      | S remaining' =>
          if negb (isRetryableError error) then (w', Js.Rejected error, [])
          else
            let waitTime := backoffWait baseDelay maxDelay attempt
                              (random attempt) in
            let '(w'', r, sleeps) :=
              retryFrom fn baseDelay maxDelay remaining' (S attempt)
                (sleep waitTime w') in
            (w'', r, waitTime :: sleeps)
      end
  end.

(** [retryWithBackoff(fn, maxRetries, baseDelay, maxDelay)] for a number
    of retries that is a natural number. *)
Definition retryWithBackoff {T : Type} (fn : World -> World * Js.Settled T)
    (maxRetries : nat) (baseDelay maxDelay : Z) (w : World)
    : World * Js.Settled T * list Z :=
  retryFrom fn baseDelay maxDelay maxRetries 0 w.

End Effects.

End Utils.

(* ===================================================================== *)
(** * Settings and the orchestrator's [index] (src/settings.ts,           *)
(**   src/indexer.ts)                                                     *)
(* ===================================================================== *)

Module Indexer.

Import Clean.

(** How [axios.get] fails: with a response (an HTTP error status), with a
    request but no response, or before any request was made. *)
Inductive AxiosFailure :=
| HttpFailure (status : Z) (statusText : string)
| NoResponse (message : string)
| SetupFailure (message : string).

(** [SettingsManager.fetchSettings()] on a manager without cached
    settings.  [response] is the failure of the request or, for a body that
    arrived, the outcome of [validateSettings] on it; an error thrown by the
    validation is caught by the same [catch]. *)
Definition fetchSettings (settingsUrl : string)
    (response : AxiosFailure + Js.Settled IndexerSettings)
    : Js.Settled IndexerSettings :=
  match response with
  | inr (Js.Fulfilled settings) => Js.Fulfilled settings
  | inr (Js.Rejected error) =>
      Js.Rejected (Js.new_Error ("Settings fetch error: " +:+ Js.message error))
  | inl (HttpFailure status statusText) =>
      Js.Rejected
        (Js.new_Error ("Failed to fetch settings from " +:+ settingsUrl +:+ ": "
                         +:+ Js.Z_to_string status +:+ " " +:+ statusText))
  | inl (NoResponse message) =>
      Js.Rejected
        (Js.new_Error ("Failed to connect to " +:+ settingsUrl +:+ ": "
                         +:+ message))
  | inl (SetupFailure message) =>
      Js.Rejected (Js.new_Error ("Settings fetch error: " +:+ message))
  end.

Record IndexingProgress := {
  totalPosts : Z;
  processedPosts : Z;
  totalChunks : Z;
  processedChunks : Z;
  errors : Z
}.

(** The progress object made by the constructor. *)
Definition zeroProgress : IndexingProgress :=
  {| totalPosts := 0; processedPosts := 0; totalChunks := 0;
     processedChunks := 0; errors := 0 |}.

Record ErrorEntry := {
  entry_post_id : option Z;
  entry_message : string;
  entry_error : Js.Error
}.

Record IndexingResult := {
  success : bool;
  stats : IndexingProgress;
  result_errors : list ErrorEntry
}.

(** The collaborators of one run of [index]: the answers of the settings
    endpoint, of the store and of WordPress, and, for the callback given to
    [processWithConcurrency] (chunk, embed, upsert), its latency and its
    outcome on each post: [None] for [null], [Some n] for [{ chunks: n }]. *)
Record Run := {
  settingsUrl : string;
  settingsResponse : AxiosFailure + Js.Settled IndexerSettings;
  initialize : Js.Settled unit;
  fetchAllPosts : Js.Settled (list ProcessedDocument);
  processPost : ProcessedDocument -> nat -> Z * Js.Settled (option Z);
  concurrency : option Z;
  getStats : Js.Settled unit;
  startTime : Z
}.

(** The callback of [results.forEach], on the slot [idx] holding [result]
    for the post [doc]. *)
Definition collectResult (doc : ProcessedDocument)
    (result : Js.Settled (option Z))
    (acc : IndexingProgress * list ErrorEntry)
    : IndexingProgress * list ErrorEntry :=
  let '(progress, errs) := acc in
  match result with
  | Js.Fulfilled (Some n) =>
      ({| totalPosts := totalPosts progress;
          processedPosts := processedPosts progress + 1;
          totalChunks := totalChunks progress + n;
          processedChunks := processedChunks progress + n;
          errors := errors progress |}, errs)
  | Js.Fulfilled None =>
      ({| totalPosts := totalPosts progress;
          processedPosts := processedPosts progress + 1;
          totalChunks := totalChunks progress;
          processedChunks := processedChunks progress;
          errors := errors progress |}, errs)
  | Js.Rejected error =>
      ({| totalPosts := totalPosts progress;
          processedPosts := processedPosts progress;
          totalChunks := totalChunks progress;
          processedChunks := processedChunks progress;
          errors := errors progress + 1 |},
       errs ++ [{| entry_post_id := Some (doc_id doc);
                   entry_message :=
                     "Failed to process post " +:+ Js.Z_to_string (doc_id doc)
                       +:+ ": " +:+ Js.message error;
                   entry_error := error |}])
  end.

(** [results.forEach(...)]: empty slots are skipped. *)
Fixpoint collectResults (allPosts : list ProcessedDocument)
    (results : list (option (Js.Settled (option Z))))
    (acc : IndexingProgress * list ErrorEntry)
    : IndexingProgress * list ErrorEntry :=
  match results, allPosts with
  | Some result :: results', doc :: allPosts' =>
      collectResults allPosts' results' (collectResult doc result acc)
  | None :: results', _ :: allPosts' => collectResults allPosts' results' acc
  | _, _ => acc
  end.

(** The [try] block of [index()]: what it returns or throws, with
    [this.progress] and [errors] as they are at that point. *)
Definition indexTry (run : Run) (progress : IndexingProgress)
    : Js.Settled IndexingResult * (IndexingProgress * list ErrorEntry) :=
  match fetchSettings (settingsUrl run) (settingsResponse run) with
  | Js.Rejected e => (Js.Rejected e, (progress, []))
  | Js.Fulfilled settings =>
  match initialize run with
  | Js.Rejected e => (Js.Rejected e, (progress, []))
  | Js.Fulfilled _ =>
  match fetchAllPosts run with
  | Js.Rejected e => (Js.Rejected e, (progress, []))
  | Js.Fulfilled allPosts =>
      let progress :=
        {| totalPosts := Z.of_nat (length allPosts);
           processedPosts := processedPosts progress;
           totalChunks := totalChunks progress;
           processedChunks := processedChunks progress;
           errors := errors progress |} in
      let concurrency :=
        match concurrency run with
        | Some c => if c =? 0 then 5 else c
        | None => 5
        end in
      let results :=
        Utils.processWithConcurrency (processPost run) (startTime run)
          allPosts concurrency in
      let '(progress, errs) := collectResults allPosts results (progress, []) in
      match getStats run with
      | Js.Rejected e => (Js.Rejected e, (progress, errs))
      | Js.Fulfilled _ =>
          (Js.Fulfilled {| success := bool_decide (length errs = 0%nat);
                           stats := progress;
                           result_errors := errs |},
           (progress, errs))
      end
  end end end.

(** [index()]: the [catch] turns whatever the [try] block throws into a
    result.  Beside the outcome, [this.progress] afterwards. *)
Definition index (run : Run) (progress : IndexingProgress)
    : Js.Settled IndexingResult * IndexingProgress :=
  match indexTry run progress with
  | (Js.Fulfilled result, (progress', _)) => (Js.Fulfilled result, progress')
  | (Js.Rejected error, (progress', errs)) =>
      (Js.Fulfilled
         {| success := false;
            stats := progress';
            result_errors :=
              errs ++ [{| entry_post_id := None;
                          entry_message :=
                            "Fatal error: " +:+ Js.message error;
                          entry_error := error |}] |},
       progress')
  end.

End Indexer.

(* ===================================================================== *)
(** * Chunk statistics and the content hash (src/chunking.ts,             *)
(**   src/utils.ts)                                                       *)
(* ===================================================================== *)

Module Stats.

Import Chunker.

Record ChunkStats := {
  count : Z;
  avgLength : Z;
  minLength : Z;
  maxLength : Z
}.

(** [Math.round(x)]: the nearest integer, halves going up. *)
Definition round (x : Q) : Z := Qfloor (x + (1 # 2)).

(** [Math.min(...lengths)] and [Math.max(...lengths)] of a list that is
    not empty, given as its head and tail. *)
Definition minOf (x : Z) (l : list Z) : Z := foldr Z.min x l.
Definition maxOf (x : Z) (l : list Z) : Z := foldr Z.max x l.

(** [getChunkStats(chunks)] *)
Definition getChunkStats (chunks : list Chunk) : ChunkStats :=
  match (fun c => len (text c)) <$> chunks with
  | [] => {| count := 0; avgLength := 0; minLength := 0; maxLength := 0 |}
  | x :: rest =>
      let lengths := x :: rest in
      let sum := foldl Z.add 0 lengths in
      {| count := Z.of_nat (length chunks);
         avgLength := round (inject_Z sum / inject_Z (Z.of_nat (length chunks)));
         minLength := minOf x rest;
         maxLength := maxOf x rest |}
  end.

(** ** [createContentHash] *)

(** The 32-bit two's complement reading that [<<] and [&] give to an
    integer. *)
Definition toInt32 (z : Z) : Z := (z + 2 ^ 31) mod 2 ^ 32 - 2 ^ 31.

(** One turn of the loop: [hash = ((hash << 5) - hash) + char;
    hash = hash & hash]. *)
Definition hashStep (hash : Z) (c : ascii) : Z :=
  toInt32 (toInt32 (hash * 2 ^ 5) - hash + Z.of_nat (nat_of_ascii c)).

Fixpoint hashLoop (hash : Z) (content : string) : Z :=
  match content with
  | EmptyString => hash
  | String c rest => hashLoop (hashStep hash c) rest
  end.

(** The digit of [d < 36] in [toString(36)]: [0-9] then [a-z]. *)
Definition digit36 (d : N) : ascii :=
  if (d <? 10)%N then ascii_of_N (48 + d) else ascii_of_N (87 + d).

(** [n.toString(36)] of a natural number, least significant digit first
    into [acc]; [fuel] bounds the number of digits. *)
Fixpoint toString36_acc (fuel : nat) (n : N) (acc : string) : string :=
  match fuel with
  | O => acc
  | S fuel' =>
      let acc' := String (digit36 (n mod 36)) acc in
      if (n / 36 =? 0)%N then acc'
      else toString36_acc fuel' (n / 36) acc'
  end.

(** A number has no more digits in base 36 than in base 2. *)
Definition toString36 (n : N) : string :=
  toString36_acc (S (N.to_nat (N.log2 n))) n EmptyString.

(** [createContentHash(content)] *)
Definition createContentHash (content : string) : string :=
  match content with
  | EmptyString => "0"
  | _ => toString36 (Z.to_N (Z.abs (hashLoop 0 content)))
  end.

End Stats.

(* ===================================================================== *)
(** * Writing to and emptying the store (src/pinecone.ts,                 *)
(**   src/indexer.ts [deleteAll])                                         *)
(* ===================================================================== *)

Module Purge.

Import Pinecone Clean.

(** [index.namespace(ns).upsert(batch)]: every vector is stored under its
    id, a later vector replacing an earlier one of the same id. *)
Definition upsert (batch : list PineconeVector) (store : Store) : Store :=
  foldl (fun s v => <[id v := Some (metadata v)]> s) store batch.

(** The [for] loop of [upsertVectors] over the batches.  [upsert_error k]
    is the error with which [retryWithBackoff] gives up on batch [k], if it
    does; the first such batch aborts the loop, and [upsertCount] has
    grown by the sizes of the batches before it. *)
Fixpoint upsertBatches (upsert_error : nat -> option Js.Error) (k : nat)
    (batches : list (list PineconeVector)) (store : Store) (upsertCount : Z)
    : Js.Settled unit * Store * Z :=
  match batches with
  | [] => (Js.Fulfilled tt, store, upsertCount)
  | batch :: rest =>
      match upsert_error k with
      | Some e => (Js.Rejected e, store, upsertCount)
      | None =>
          upsertBatches upsert_error (S k) rest (upsert batch store)
            (upsertCount + Z.of_nat (length batch))
      end
  end.

(** [upsertVectors(vectors)]: nothing for an empty list, else batches of
    100. *)
Definition upsertVectors (upsert_error : nat -> option Js.Error)
    (vectors : list PineconeVector) (store : Store) (upsertCount : Z)
    : Js.Settled unit * Store * Z :=
  match vectors with
  | [] => (Js.Fulfilled tt, store, upsertCount)
  | _ => upsertBatches upsert_error 0 (slices 100 vectors) store upsertCount
  end.

(** [deleteAllForDomain()]: the [catch] logs and re-throws. *)
Definition deleteAllForDomain (r : Remote) (dom : string) (store : Store)
    : Js.Settled unit * Store :=
  match listVectorIdsForDomain r dom store with
  | Js.Rejected e => (Js.Rejected e, store)
  | Js.Fulfilled [] => (Js.Fulfilled tt, store)
  | Js.Fulfilled vectorIds => deleteByVectorIds r vectorIds store
  end.

(** Outcomes of the collaborators of one [deleteAll] run of the
    orchestrator; the index statistics are read before and after. *)
Record Collaborators := {
  fetchSettings : Js.Settled IndexerSettings;
  initialize : Js.Settled unit;
  statsBefore : Js.Settled unit;
  remote : Remote;
  statsAfter : Js.Settled unit
}.

(** [Indexer.deleteAll()]: every failure is logged and re-thrown. *)
Definition deleteAll (c : Collaborators) (store : Store)
    : Js.Settled unit * Store :=
  match fetchSettings c with
  | Js.Rejected e => (Js.Rejected e, store)
  | Js.Fulfilled settings =>
      match initialize c with
      | Js.Rejected e => (Js.Rejected e, store)
      | Js.Fulfilled _ =>
      match statsBefore c with
      | Js.Rejected e => (Js.Rejected e, store)
      | Js.Fulfilled _ =>
      match deleteAllForDomain (remote c) (settings_domain settings) store with
      | (Js.Rejected e, store') => (Js.Rejected e, store')
      | (Js.Fulfilled _, store') =>
          match statsAfter c with
          | Js.Rejected e => (Js.Rejected e, store')
          | Js.Fulfilled _ => (Js.Fulfilled tt, store')
          end
      end end end
  end.

End Purge.

(* ===================================================================== *)
(** * Embeddings (src/embeddings.ts)                                      *)
(* ===================================================================== *)

Module Embeddings.

Import Utils.

(** The fields of [EmbeddingsManager] that its calls change. *)
Record Manager := {
  circuitBreaker : CircuitBreaker;
  requestCount : Z;
  lastRequestTime : Z
}.

(** [shouldRetry(error)]; a missing status, or a status of zero, is
    falsy. *)
Definition shouldRetry (error : Js.Error) : bool :=
  let networkError :=
    match Js.code error with
    | Some c => bool_decide (c = "ECONNRESET"%string)
                || bool_decide (c = "ETIMEDOUT"%string)
    | None => false
    end in
  match Js.status error with
  | Some s => if s =? 0 then networkError else (s =? 429) || (500 <=? s)
  | None => networkError
  end.

(** [getRetryDelay(retryCount)] for the draw [r] of [Math.random()]. *)
Definition getRetryDelay (retryCount : nat) (r : Q) : Z :=
  let baseDelay := 1000 in
  let maxDelay := 60000 in
  let delay := inject_Z (Z.min (baseDelay * 2 ^ Z.of_nat retryCount) maxDelay) in
  let jitter := (delay * (1 # 4) * (r - (1 # 2)))%Q in
  Qfloor (delay + jitter).

Section Calls.

(** The world outside the process, as in [Utils]: its clock, what a sleep
    does to it, and the draws of [Math.random()], one per retry. *)
Context {World : Type}.
Variable now : World -> Z.
Variable sleep : Z -> World -> World.
Variable random : nat -> Q.

(** [await this.rateLimit()], for a limiter that grants the token: time
    may pass. *)
Variable rateLimit : World -> World.

(** [openai.embeddings.create] for one text and for a batch: the [data] of
    the response ([None] when the response has none), as the list of the
    embeddings of its items. *)
Variable createOne : string -> World -> World * Js.Settled (option (list (list Q))).
Variable createMany :
  list string -> World -> World * Js.Settled (option (list (list Q))).

(** The [try] block of [createEmbeddingWithRetry]. *)
Definition attempt (text : string) (m : Manager) (w : World)
    : Manager * World * Js.Settled (list Q) :=
  let w1 := rateLimit w in
  match execute now (createOne text) (circuitBreaker m) w1 with
  | (cb, w2, Js.Rejected error) =>
      ({| circuitBreaker := cb; requestCount := requestCount m;
          lastRequestTime := lastRequestTime m |}, w2, Js.Rejected error)
  | (cb, w2, Js.Fulfilled data) =>
      let m' := {| circuitBreaker := cb; requestCount := requestCount m + 1;
                   lastRequestTime := now w2 |} in
      match data with
      | Some (embedding :: _) => (m', w2, Js.Fulfilled embedding)
      | _ => (m', w2, Js.Rejected (Js.new_Error "No embedding data returned"))
      end
  end.

(** [createEmbeddingWithRetry(text, maxRetries, retryCount)] with
    [maxRetries - retryCount = remaining], for a call that no other call
    overlaps: the manager, the world and the outcome at the end, and the
    sleeps made. *)
Fixpoint createEmbeddingWithRetry (text : string) (remaining retryCount : nat)
    (m : Manager) (w : World)
    : Manager * World * Js.Settled (list Q) * list Z :=
  match attempt text m w with
  | (m1, w1, Js.Fulfilled embedding) => (m1, w1, Js.Fulfilled embedding, [])
  | (m1, w1, Js.Rejected error) =>
      let '(w2, waited) :=
        if String.eqb (Js.message error) "Circuit breaker is open"
        then (sleep 5000 w1, [5000])
        else (w1, []) in
      let giveUp :=
        (m1, w2,
         Js.Rejected
           (Js.new_Error ("Failed to create embedding: " +:+ Js.message error)),
         waited) in
      match remaining with
      | O => giveUp
      | S remaining' =>
          if shouldRetry error then
            let delay := getRetryDelay retryCount (random retryCount) in
            let '(m3, w3, r, sleeps) :=
              createEmbeddingWithRetry text remaining' (S retryCount) m1
                (sleep delay w2) in
            (m3, w3, r, waited ++ delay :: sleeps)
          else giveUp
      end
  end.

(** [createEmbedding(text)] *)
Definition createEmbedding (text : string) (m : Manager) (w : World)
    : Manager * World * Js.Settled (list Q) * list Z :=
  createEmbeddingWithRetry text 3 0 m w.

(** The fallback loop of [createBatchEmbeddings]: one [createEmbedding]
    per text, the first failure ending the loop. *)
Fixpoint fallback (texts : list string) (embeddings : list (list Q))
    (m : Manager) (w : World)
    : Manager * World * Js.Settled (list (list Q)) :=
  match texts with
  | [] => (m, w, Js.Fulfilled embeddings)
  | text :: rest =>
      match createEmbedding text m w with
      | (m1, w1, Js.Fulfilled embedding, _) =>
          fallback rest (embeddings ++ [embedding]) m1 w1
      | (m1, w1, Js.Rejected error, _) => (m1, w1, Js.Rejected error)
      end
  end.

(** [createBatchEmbeddings(texts)], for a call that no other call
    overlaps. *)
Definition createBatchEmbeddings (texts : list string) (m : Manager)
    (w : World) : Manager * World * Js.Settled (list (list Q)) :=
  let w1 := rateLimit w in
  match createMany texts w1 with
  | (w2, Js.Rejected _) => fallback texts [] m w2
  | (w2, Js.Fulfilled data) =>
      let m' := {| circuitBreaker := circuitBreaker m;
                   requestCount := requestCount m + Z.of_nat (length texts);
                   lastRequestTime := now w2 |} in
      match data with
      | Some embeddings =>
          if (length embeddings =? length texts)%nat
          then (m', w2, Js.Fulfilled embeddings)
          else fallback texts [] m' w2
      | None => fallback texts [] m' w2
      end
  end.

End Calls.

End Embeddings.

(* ===================================================================== *)
(** * Validation of the settings (src/settings.ts)                        *)
(* ===================================================================== *)

Module Settings.

(** The values of the fields of the response body: [null], booleans,
    integer numbers, strings and arrays of strings; a field that is not
    there reads [undefined], here [None]. *)
Inductive Json :=
| JNull
| JBool (b : bool)
| JNum (n : Z)
| JStr (s : string)
| JArr (items : list string).

(** A number that may be [NaN] ([None]). *)
Definition Num := option Z.

Definition num_ltb (a b : Num) : bool :=
  match a, b with
  | Some x, Some y => x <? y
  | _, _ => false
  end.

Definition num_gtb (a b : Num) : bool := num_ltb b a.

Definition num_geb (a b : Num) : bool :=
  match a, b with
  | Some x, Some y => y <=? x
  | _, _ => false
  end.

(** [`${n}`] *)
Definition numberToString (n : Num) : string :=
  match n with
  | Some z => Js.Z_to_string z
  | None => "NaN"
  end.

(** [array.join(sep)] *)
Fixpoint join (sep : string) (items : list string) : string :=
  match items with
  | [] => ""
  | [x] => x
  | x :: rest => x +:+ sep +:+ join sep rest
  end.

(** [String(v)] *)
Definition toString (v : option Json) : string :=
  match v with
  | None => "undefined"
  | Some JNull => "null"
  | Some (JBool true) => "true"
  | Some (JBool false) => "false"
  | Some (JNum n) => Js.Z_to_string n
  | Some (JStr s) => s
  | Some (JArr items) => join "," items
  end.

(** [Boolean(v)] *)
Definition toBoolean (v : option Json) : bool :=
  match v with
  | None | Some JNull => false
  | Some (JBool b) => b
  | Some (JNum n) => negb (n =? 0)
  | Some (JStr s) => negb (String.eqb s "")
  | Some (JArr _) => true
  end.

(** [parseInt(v, 10)]: the argument is turned into a string, leading
    white space is skipped, then an optional sign and the longest prefix
    of digits are read. *)
Definition parseInt (v : option Json) : Num :=
  match Chunker.trimStart (toString v) with
  | String "-" rest => Z.opp <$> Js.parseInt rest
  | String "+" rest => Js.parseInt rest
  | s => Js.parseInt s
  end.

Definition SUPPORTED_SCHEMA_VERSIONS : list Z := [1].

(** [array.includes(n)]: [NaN] is not among integers. *)
Definition includes (versions : list Z) (n : Num) : bool :=
  match n with
  | Some z => bool_decide (z ∈ versions)
  | None => false
  end.

Record IndexerSettings := {
  schema_version : Num;
  post_types : list string;
  post_types_exclude : list string;
  auto_discover : bool;
  clean_deleted : bool;
  embedding_model : string;
  embedding_dimension : Num;
  chunk_size : Num;
  chunk_overlap : Num;
  pinecone_index_host : string;
  pinecone_index_name : string;
  domain : string
}.

Definition required : list string :=
  ["schema_version"; "post_types"; "embedding_model"; "embedding_dimension";
   "chunk_size"; "chunk_overlap"; "pinecone_index_host";
   "pinecone_index_name"]%string.

(** [data[field] === undefined || data[field] === null] *)
Definition missing (data : gmap string Json) (field : string) : bool :=
  match data !! field with
  | None | Some JNull => true
  | _ => false
  end.

(** [Array.isArray(v) ? v : []] *)
Definition arrayOrEmpty (v : option Json) : list string :=
  match v with
  | Some (JArr items) => items
  | _ => []
  end.

(** [validateSettings(data, domain)] *)
Definition validateSettings (data : gmap string Json) (domain : string)
    : Js.Settled IndexerSettings :=
  match List.find (missing data) required with
  | Some field =>
      Js.Rejected (Js.new_Error ("Missing required setting: " +:+ field))
  | None =>
  let schemaVersion := parseInt (data !! "schema_version"%string) in
  if negb (includes SUPPORTED_SCHEMA_VERSIONS schemaVersion) then
    Js.Rejected
      (Js.new_Error ("Unsupported schema version "
                       +:+ numberToString schemaVersion +:+ ". "
                       +:+ "Supported versions: "
                       +:+ join ", " (Js.Z_to_string <$> SUPPORTED_SCHEMA_VERSIONS)))
  else
  let settings :=
    {| schema_version := schemaVersion;
       post_types := arrayOrEmpty (data !! "post_types"%string);
       post_types_exclude := arrayOrEmpty (data !! "post_types_exclude"%string);
       auto_discover := toBoolean (data !! "auto_discover"%string);
       clean_deleted := toBoolean (data !! "clean_deleted"%string);
       embedding_model := toString (data !! "embedding_model"%string);
       embedding_dimension := parseInt (data !! "embedding_dimension"%string);
       chunk_size := parseInt (data !! "chunk_size"%string);
       chunk_overlap := parseInt (data !! "chunk_overlap"%string);
       pinecone_index_host := toString (data !! "pinecone_index_host"%string);
       pinecone_index_name := toString (data !! "pinecone_index_name"%string);
       domain := domain |} in
  if num_ltb (embedding_dimension settings) (Some 1)
     || num_gtb (embedding_dimension settings) (Some 10000) then
    Js.Rejected
      (Js.new_Error ("Invalid embedding_dimension: "
                       +:+ numberToString (embedding_dimension settings)))
  else if num_ltb (chunk_size settings) (Some 100)
          || num_gtb (chunk_size settings) (Some 10000) then
    Js.Rejected
      (Js.new_Error ("Invalid chunk_size: "
                       +:+ numberToString (chunk_size settings)))
  else if num_ltb (chunk_overlap settings) (Some 0)
          || num_geb (chunk_overlap settings) (chunk_size settings) then
    Js.Rejected
      (Js.new_Error ("Invalid chunk_overlap: "
                       +:+ numberToString (chunk_overlap settings)))
  else if String.eqb (pinecone_index_host settings) ""
          || String.eqb (pinecone_index_name settings) "" then
    Js.Rejected
      (Js.new_Error "Pinecone index host and name must be configured")
  else Js.Fulfilled settings
  end.

End Settings.

(* ===================================================================== *)
(** * The WordPress client (src/wordpress.ts)                             *)
(* ===================================================================== *)

Module WordPress.

Import Utils.

(** The truthiness of [viewable] and [show_in_rest] of one entry of the
    [/types] response. *)
Record TypeData := {
  viewable : bool;
  show_in_rest : bool
}.

(** [discoverPostTypes()], given the outcome of the request: the entries
    of the response as [Object.entries] lists them. *)
Definition discoverPostTypes
    (response : Js.Settled (list (string * TypeData)))
    : Js.Settled (list string) :=
  match response with
  | Js.Fulfilled types =>
      Js.Fulfilled
        (filter (fun e => viewable e.2 && show_in_rest e.2 = true) types).*1
  | Js.Rejected error =>
      Js.Rejected
        (Js.new_Error ("Post type discovery failed: " +:+ Js.message error))
  end.

(** [[...new Set(l)]]: the first occurrence of each element, in order. *)
Definition setOf (l : list string) : list string :=
  foldl (fun acc x => if bool_decide (x ∈ acc) then acc else acc ++ [x]) [] l.

(** [getPostTypesToIndex()] *)
Definition getPostTypesToIndex (settings : Settings.IndexerSettings)
    (response : Js.Settled (list (string * TypeData))) : list string :=
  let postTypes := Settings.post_types settings in
  let postTypes :=
    if Settings.auto_discover settings then
      match discoverPostTypes response with
      | Js.Fulfilled discoveredTypes => setOf (postTypes ++ discoveredTypes)
      | Js.Rejected _ => postTypes
      end
    else postTypes in
  filter (fun type => type ∉ Settings.post_types_exclude settings) postTypes.

Section Fetch.

(** A post as the REST API sends it, and [processPost], which strips the
    HTML of title and content and answers [null] ([None]) for a post that
    is empty or cannot be processed. *)
Context {Post : Type}.
Variable processPost : Post -> option Clean.ProcessedDocument.

(** The REST API: the first page of a post type with the number of pages
    read from its headers ([NaN] when that does not parse), and for any
    page the latency (in ms, not negative) and the outcome of the
    request. *)
Variable firstPage : string -> Js.Settled (list Post * Settings.Num).
Variable page : string -> Z -> Z * Js.Settled (list Post).

(** The body of the [for] loop of [fetchPagesWithConcurrency] for the
    page at position [i]; promises are modelled by the time at which they
    settle, as for [processWithConcurrency]. *)
Definition pageStep (postType : string) (maxConcurrency : Z)
    (st : PoolState (list Post)) (i : nat) (pageNumber : Z)
    : PoolState (list Post) :=
  let '(latency, out) := page postType pageNumber in
  let st1 := {| clock := clock st;
                started := started st
                             ++ [{| finish := clock st + latency;
                                    outcome := out |}];
                executing := executing st ++ [i] |} in
  let st2 :=
    if maxConcurrency <=? Z.of_nat (length (executing st1)) then
      {| clock := afterRace (clock st1) (started st1) (executing st1);
         started := started st1;
         executing := drop 1 (executing st1) |}
    else st1 in
  {| clock := clock st2 + 50; started := started st2;
     executing := executing st2 |}.

Fixpoint pageLoop (postType : string) (maxConcurrency : Z)
    (st : PoolState (list Post)) (i : nat) (pages : list Z)
    : PoolState (list Post) :=
  match pages with
  | [] => st
  | pageNumber :: rest =>
      pageLoop postType maxConcurrency
        (pageStep postType maxConcurrency st i pageNumber) (S i) rest
  end.

(** [results[i]] once the promise of page [i] has settled: the posts, or
    the empty array after a failure. *)
Definition pageResult (task : Task (list Post)) : list Post :=
  match outcome task with
  | Js.Fulfilled posts => posts
  | Js.Rejected _ => []
  end.

(** [fetchPagesWithConcurrency(postType, pages, maxConcurrency)]: the
    slots filled when the function returns, without the empty ones. *)
Definition fetchPagesWithConcurrency (postType : string) (pages : list Z)
    (maxConcurrency : Z) : list (list Post) :=
  let st := pageLoop postType maxConcurrency
              {| clock := 0; started := []; executing := [] |} 0 pages in
  let tEnd := afterAll (clock st) (started st) (executing st) in
  filter (fun posts => posts <> [])
    (omap (fun task => if finish task <=? tEnd then Some (pageResult task)
                       else None)
          (started st)).

(** The documents yielded for one post type; every failure is logged and
    ends the type. *)
Definition fetchPostType (postType : string) : list Clean.ProcessedDocument :=
  match firstPage postType with
  | Js.Rejected _ => []
  | Js.Fulfilled ([], _) => []
  | Js.Fulfilled (firstPagePosts, totalPages) =>
      omap processPost firstPagePosts
        ++ (if Settings.num_gtb totalPages (Some 1) then
              let remainingPages :=
                match totalPages with
                | Some n => (fun i => Z.of_nat i + 2) <$> seq 0 (Z.to_nat (n - 1))
                | None => []
                end in
              omap processPost
                (concat (fetchPagesWithConcurrency postType remainingPages 3))
            else [])
  end.

(** [fetchAllPosts()], as the list of the documents it yields. *)
Definition fetchAllPosts (settings : Settings.IndexerSettings)
    (response : Js.Settled (list (string * TypeData)))
    : list Clean.ProcessedDocument :=
  concat (fetchPostType <$> getPostTypesToIndex settings response).

End Fetch.

End WordPress.

(* ===================================================================== *)
(** * Properties of the vector id scheme                                  *)
(* ===================================================================== *)

Module VectorIdFacts.

Import Js Pinecone Clean.

Lemma strip_prefix_app (p s : string) : strip_prefix p (p +:+ s) = Some s.
Proof.
  induction p as [|a p IH]; simpl; [done|].
  by rewrite Ascii.eqb_refl.
Qed.

Lemma append_nil_r (s : string) : s +:+ EmptyString = s.
Proof.
  induction s as [|c s IH]; [done|].
  change (String c (s +:+ EmptyString) = String c s). by rewrite IH.
Qed.

(** A string all of whose characters are digits. *)
Fixpoint all_digits (s : string) : bool :=
  match s with
  | EmptyString => true
  | String c s' => is_digit c && all_digits s'
  end.

(** What follows a maximal run of digits: the end, or a character that is
    not a digit. *)
Definition stops_digits (s : string) : bool :=
  match s with
  | EmptyString => true
  | String c _ => negb (is_digit c)
  end.

Lemma span_digits_app (ds r : string) :
  all_digits ds = true -> stops_digits r = true ->
  span_digits (ds +:+ r) = (ds, r).
Proof.
  intros Hds Hr. induction ds as [|c ds IH]; simpl in *.
  - destruct r as [|c r]; simpl in *; [done|].
    by apply negb_true_iff in Hr as ->.
  - apply andb_true_iff in Hds as [-> Hds]. by rewrite IH.
Qed.

Lemma span_digits_spec (s : string) :
  all_digits (span_digits s).1 = true
  /\ stops_digits (span_digits s).2 = true
  /\ s = (span_digits s).1 +:+ (span_digits s).2.
Proof.
  induction s as [|c s (IH1 & IH2 & IH3)]; simpl; [done|].
  destruct (is_digit c) eqn:Hc.
  - destruct (span_digits s) as [ds r]; simpl in *.
    rewrite Hc, IH1. repeat split; [done|]. by rewrite IH3.
  - simpl. rewrite Hc. done.
Qed.

Lemma all_digits_string_of_uint (d : Decimal.uint) :
  all_digits (NilEmpty.string_of_uint d) = true.
Proof. induction d; simpl; auto. Qed.

Lemma string_of_uint_nonempty (d : Decimal.uint) :
  d <> Decimal.Nil -> NilEmpty.string_of_uint d <> EmptyString.
Proof. destruct d; simpl; congruence. Qed.

Lemma digits_value_pos (d : Decimal.uint) (p : positive) :
  digits_value (Npos p) (NilEmpty.string_of_uint d)
  = Npos (Pos.of_uint_acc d p).
Proof.
  revert p. induction d; intros p; simpl; [done|..];
    rewrite <- IHd; f_equal; unfold digit_value; simpl; lia.
Qed.

Lemma digits_value_of_uint (d : Decimal.uint) :
  digits_value 0 (NilEmpty.string_of_uint d) = N.of_uint d.
Proof.
  unfold N.of_uint.
  induction d; simpl; [done| exact IHd |..];
    unfold digit_value; simpl; apply digits_value_pos.
Qed.

Lemma digits_value_N_to_string (n : N) :
  digits_value 0 (N_to_string n) = n.
Proof.
  unfold N_to_string. rewrite digits_value_of_uint.
  apply DecimalN.Unsigned.of_to.
Qed.

Lemma N_to_uint_not_Nil (n : N) : N.to_uint n <> Decimal.Nil.
Proof.
  destruct n as [|p]; simpl; [discriminate|].
  intros H. pose proof (DecimalPos.Unsigned.of_to p) as Hp.
  rewrite H in Hp. discriminate Hp.
Qed.

Lemma N_to_string_digits (n : N) :
  all_digits (N_to_string n) = true /\ N_to_string n <> EmptyString.
Proof.
  split; [apply all_digits_string_of_uint|].
  apply string_of_uint_nonempty, N_to_uint_not_Nil.
Qed.

Lemma Z_to_string_nonneg (z : Z) :
  0 <= z -> Z_to_string z = N_to_string (Z.to_N z).
Proof. destruct z; simpl; [done..|lia]. Qed.

Lemma parseInt_digits (ds : string) :
  all_digits ds = true -> ds <> EmptyString ->
  parseInt ds = Some (Z.of_N (digits_value 0 ds)).
Proof.
  intros Hds Hne. unfold parseInt.
  rewrite <- (append_nil_r ds) at 1.
  rewrite span_digits_app by done. by destruct ds.
Qed.

(** The capture group of a match is a non-empty run of digits, so
    [parseInt] never yields [NaN] on it. *)
Lemma vectorIdPattern_capture (v ds : string) :
  vectorIdPattern v = Some ds ->
  all_digits ds = true /\ ds <> EmptyString.
Proof.
  unfold vectorIdPattern. intros H.
  destruct (strip_prefix "post-" v) as [r1|]; [|done].
  pose proof (span_digits_spec r1) as (Hd & _ & _).
  destruct (span_digits r1) as [pd r2]; cbn [fst] in Hd.
  destruct pd as [|c pd]; [done|].
  destruct (strip_prefix "-chunk-" r2) as [r3|]; [|done].
  destruct (span_digits r3) as [[|? ?] [|? ?]]; try done.
  by inversion H; subst.
Qed.

Lemma postIdOfVectorId_None (v : string) :
  postIdOfVectorId v = None <-> vectorIdPattern v = None.
Proof.
  unfold postIdOfVectorId. split; [|by intros ->].
  destruct (vectorIdPattern v) as [ds|] eqn:Hm; [|done].
  apply vectorIdPattern_capture in Hm as [Hd Hne].
  by rewrite parseInt_digits.
Qed.

Lemma vectorIdPattern_createVectorId (d n : Z) :
  0 <= d -> 0 <= n ->
  vectorIdPattern (createVectorId d n) = Some (Z_to_string d).
Proof.
  intros Hd Hn. unfold createVectorId, vectorIdPattern.
  rewrite strip_prefix_app, !Z_to_string_nonneg by done.
  destruct (N_to_string_digits (Z.to_N d)) as [Hdd Hdn].
  destruct (N_to_string_digits (Z.to_N n)) as [Hnd Hnn].
  rewrite span_digits_app by done.
  destruct (N_to_string (Z.to_N d)) as [|c ds] eqn:E; [done|].
  rewrite strip_prefix_app.
  rewrite <- (append_nil_r (N_to_string (Z.to_N n))).
  rewrite span_digits_app by done.
  by destruct (N_to_string (Z.to_N n)).
Qed.

Lemma postIdOfVectorId_createVectorId (d n : Z) :
  0 <= d -> 0 <= n -> postIdOfVectorId (createVectorId d n) = Some d.
Proof.
  intros Hd Hn. unfold postIdOfVectorId.
  rewrite vectorIdPattern_createVectorId, Z_to_string_nonneg by done.
  destruct (N_to_string_digits (Z.to_N d)) as [Hdd Hdn].
  rewrite parseInt_digits, digits_value_N_to_string by done.
  f_equal. lia.
Qed.

End VectorIdFacts.

(* ===================================================================== *)
(** * Properties of reconciliation                                        *)
(* ===================================================================== *)

Module CleanFacts.

Import Js Pinecone Clean VectorIdFacts.

(** ** Batching *)

Lemma concat_slices_fuel {A} (size fuel : nat) (l : list A) :
  (0 < size)%nat -> (length l <= fuel)%nat ->
  concat (slices_fuel fuel size l) = l.
Proof.
  intros Hs. revert l. induction fuel as [|fuel IH]; intros l Hl.
  - destruct l; simpl in *; [done|lia].
  - destruct l as [|x l]; [done|].
    cbn [slices_fuel concat]. rewrite IH, take_drop; [done|].
    rewrite length_drop. simpl in *. lia.
Qed.

Lemma concat_slices {A} (size : nat) (l : list A) :
  (0 < size)%nat -> concat (slices size l) = l.
Proof. intros Hs. by apply concat_slices_fuel. Qed.

Lemma elem_of_concat {A} (x : A) (ls : list (list A)) :
  x ∈ concat ls <-> exists l, x ∈ l /\ l ∈ ls.
Proof.
  induction ls as [|l ls IH]; cbn [concat].
  - split; [by intros ?%elem_of_nil|]. by intros (l & _ & ?%elem_of_nil).
  - rewrite elem_of_app, IH. split.
    + intros [H|(l' & H1 & H2)]; [exists l|exists l'];
        (split; [done|]); [left|by right].
    + intros (l' & H1 & H2). apply elem_of_cons in H2 as [->|H2]; eauto.
Qed.

(** ** Deletion *)

Lemma deleteBatches_frame (r : Remote) (bs : list (list string)) :
  forall (k : nat) (store : Store) (v : string),
    v ∉ concat bs -> (deleteBatches r k bs store).2 !! v = store !! v.
Proof.
  induction bs as [|b bs IH]; intros k store v Hv; [done|].
  cbn [concat] in Hv. apply not_elem_of_app in Hv as [Hb Hbs].
  cbn [deleteBatches]. unfold deleteMany.
  destruct (deleteMany_error r k); [done|].
  rewrite IH by done. by apply lookup_foldr_delete_not_elem_of.
Qed.

Lemma deleteBatches_ok (r : Remote) (bs : list (list string)) :
  (forall j, deleteMany_error r j = None) ->
  forall (k : nat) (store : Store),
    (deleteBatches r k bs store).1 = Fulfilled tt
    /\ forall v, v ∈ concat bs -> (deleteBatches r k bs store).2 !! v = None.
Proof.
  intros Hok. induction bs as [|b bs IH]; intros k store.
  - split; [done|]. intros v Hv. by apply elem_of_nil in Hv.
  - cbn [deleteBatches concat]. unfold deleteMany. rewrite Hok.
    destruct (IH (S k) (foldr delete store b)) as [IH1 IH2].
    split; [done|]. intros v Hv.
    destruct (decide (v ∈ concat bs)) as [Hin|Hout]; [by apply IH2|].
    rewrite deleteBatches_frame by done.
    apply elem_of_app in Hv as [Hv|Hv]; [|done].
    by apply lookup_foldr_delete.
Qed.

Lemma deleteByVectorIds_frame (r : Remote) (ids : list string)
    (store : Store) (v : string) :
  v ∉ ids -> (deleteByVectorIds r ids store).2 !! v = store !! v.
Proof.
  intros Hv. unfold deleteByVectorIds. destruct ids as [|i ids]; [done|].
  apply deleteBatches_frame. by rewrite concat_slices by lia.
Qed.

Lemma deleteByVectorIds_ok (r : Remote) (ids : list string) (store : Store) :
  (forall j, deleteMany_error r j = None) ->
  (deleteByVectorIds r ids store).1 = Fulfilled tt
  /\ forall v, v ∈ ids -> (deleteByVectorIds r ids store).2 !! v = None.
Proof.
  intros Hok. unfold deleteByVectorIds. destruct ids as [|i ids].
  - split; [done|]. intros v Hv. by apply elem_of_nil in Hv.
  - destruct (deleteBatches_ok r (slices 1000 (i :: ids)) Hok 0%nat store)
      as [H1 H2].
    split; [done|]. intros v Hv. apply H2. by rewrite concat_slices by lia.
Qed.

(** ** Enumeration *)

Lemma domainIdsOfPage_app (dom : string) (store : Store) (p q : list string) :
  domainIdsOfPage dom store (p ++ q)
  = domainIdsOfPage dom store p ++ domainIdsOfPage dom store q.
Proof.
  unfold domainIdsOfPage, fetch. by rewrite omap_app, filter_app, fmap_app.
Qed.

Lemma domainIdsOfPage_concat (dom : string) (store : Store)
    (pages : list (list string)) :
  concat (domainIdsOfPage dom store <$> pages)
  = domainIdsOfPage dom store (concat pages).
Proof.
  induction pages as [|p pages IH]; [done|].
  cbn [fmap list_fmap concat]. by rewrite domainIdsOfPage_app, <- IH.
Qed.

Lemma elem_of_domainIdsOfPage (dom : string) (store : Store)
    (page : list string) (v : string) :
  v ∈ domainIdsOfPage dom store page
  <-> v ∈ page /\ exists md, store !! v = Some (Some md) /\ domain md = dom.
Proof.
  unfold domainIdsOfPage, fetch. rewrite list_elem_of_fmap. split.
  - intros ([i o] & -> & He). apply list_elem_of_filter in He as [Hd He].
    apply list_elem_of_omap in He as (j & Hj & Hf).
    destruct (store !! j) as [o'|] eqn:Hs; [|done].
    cbn in Hf. injection Hf as <- <-. cbn in *. split; [done|].
    destruct o' as [md|]; [|done]. exists md. split; [done|].
    by apply bool_decide_eq_true in Hd.
  - intros (Hv & md & Hs & Hd). exists (v, Some md). split; [done|].
    apply list_elem_of_filter. split.
    + cbn. by apply bool_decide_eq_true.
    + apply list_elem_of_omap. exists v. split; [done|]. by rewrite Hs.
Qed.

Lemma elem_of_listVectorIdsForDomain (r : Remote) (dom : string)
    (store : Store) (ids : list string) (v : string) :
  listVectorIdsForDomain r dom store = Fulfilled ids ->
  v ∈ ids <-> exists md, store !! v = Some (Some md) /\ domain md = dom.
Proof.
  unfold listVectorIdsForDomain. destruct (list_error r); [done|].
  intros [= <-]. rewrite domainIdsOfPage_concat, concat_slices by lia.
  rewrite elem_of_domainIdsOfPage. split; [by intros [_ H]|].
  intros (md & Hs & Hd). split; [|by exists md].
  apply list_elem_of_fmap. exists (v, Some md). split; [done|].
  by apply elem_of_map_to_list.
Qed.

(** ** The two loops of [clean] *)

(** The vector ids of [l] that parse to post [d]. *)
Definition idsOfPost (d : Z) (l : list string) : list string :=
  filter (fun v => postIdOfVectorId v = Some d) l.

Lemma idsOfPost_snoc (d : Z) (l : list string) (x : string) :
  idsOfPost d (l ++ [x])
  = idsOfPost d l ++ (if decide (postIdOfVectorId x = Some d) then [x] else []).
Proof.
  unfold idsOfPost. by rewrite filter_app.
Qed.

Lemma elem_of_set_add (x y : Z) (s : list Z) :
  y ∈ set_add x s <-> y ∈ s \/ y = x.
Proof.
  unfold set_add. case_bool_decide as Hx.
  - split; [by left|]. intros [H| ->]; done.
  - rewrite elem_of_app, list_elem_of_singleton. done.
Qed.

Lemma extractPostIds_invariant (xs pre : list string)
    (acc : list Z * gmap Z (list string)) :
  (forall d, default [] (acc.2 !! d) = idsOfPost d pre) ->
  (forall d, d ∈ acc.1 <-> idsOfPost d pre <> []) ->
  let r :=
    foldl (fun '(pineconePostIds, postIdToVectorIds) vectorId =>
             match postIdOfVectorId vectorId with
             | Some postId =>
                 (set_add postId pineconePostIds,
                  <[postId := default [] (postIdToVectorIds !! postId)
                                ++ [vectorId]]> postIdToVectorIds)
             | None => (pineconePostIds, postIdToVectorIds)
             end) acc xs in
  (forall d, default [] (r.2 !! d) = idsOfPost d (pre ++ xs))
  /\ (forall d, d ∈ r.1 <-> idsOfPost d (pre ++ xs) <> []).
Proof.
  revert pre acc. induction xs as [|x xs IH]; intros pre [pids m] Hm Hp.
  - cbn [foldl]. by rewrite app_nil_r.
  - cbn [foldl]. rewrite (cons_middle x pre xs), (assoc_L (++)).
    apply IH; cbn [fst snd] in *.
    + intros d. rewrite idsOfPost_snoc.
      destruct (postIdOfVectorId x) as [p|] eqn:Hx; cbn [snd].
      * destruct (decide (Some p = Some d)) as [[= ->]|Hne].
        -- by rewrite lookup_insert_eq, Hm.
        -- rewrite lookup_insert_ne by congruence.
           by rewrite Hm, app_nil_r.
      * destruct (decide (None = Some d)); [done|].
        by rewrite Hm, app_nil_r.
    + intros d. rewrite idsOfPost_snoc.
      destruct (postIdOfVectorId x) as [p|] eqn:Hx; cbn [fst].
      * rewrite elem_of_set_add, Hp.
        destruct (decide (Some p = Some d)) as [[= ->]|Hne].
        -- split; [|by right]. intros _ H. by apply app_eq_nil in H as [_ ?].
        -- rewrite app_nil_r. split; [|by left]. intros [H| ->]; done.
      * destruct (decide (None = Some d)); [done|].
        by rewrite Hp, app_nil_r.
Qed.

Lemma findDeleted_fold (wpPostIds : gset Z) (m : gmap Z (list string))
    (pids : list Z) (ds : list Z) (vs : list string) :
  foldl (fun '(deletedPostIds, vectorIdsToDelete) postId =>
           if bool_decide (postId ∈ wpPostIds)
           then (deletedPostIds, vectorIdsToDelete)
           else (deletedPostIds ++ [postId],
                 vectorIdsToDelete ++ default [] (m !! postId)))
        (ds, vs) pids
  = (ds ++ filter (fun d => d ∉ wpPostIds) pids,
     vs ++ concat ((fun d => default [] (m !! d))
                     <$> filter (fun d => d ∉ wpPostIds) pids)).
Proof.
  revert ds vs. induction pids as [|p pids IH]; intros ds vs.
  - cbn. by rewrite !app_nil_r.
  - cbn [foldl]. rewrite filter_cons. case_bool_decide as Hp.
    + rewrite IH. by destruct (decide (p ∉ wpPostIds)).
    + rewrite IH. destruct (decide (p ∉ wpPostIds)); [|done].
      cbn [fmap list_fmap concat]. by rewrite <- !(assoc_L (++)).
Qed.

(** The deletion list holds exactly the enumerated ids that parse to a
    post WordPress does not have. *)
Lemma elem_of_vectorIdsToDelete (wpPostIds : gset Z)
    (allVectorIds : list string) (v : string) :
  v ∈ vectorIdsToDelete wpPostIds allVectorIds
  <-> v ∈ allVectorIds
      /\ exists d, postIdOfVectorId v = Some d /\ d ∉ wpPostIds.
Proof.
  unfold vectorIdsToDelete, extractPostIds.
  pose proof (extractPostIds_invariant allVectorIds [] ([], ∅)) as Hinv.
  cbn zeta in Hinv. destruct Hinv as [Hm Hp].
  { intros d. cbn [snd]. by rewrite lookup_empty. }
  { intros d. cbn. split; [by intros ?%elem_of_nil|done]. }
  rewrite app_nil_l in Hm, Hp.
  destruct (foldl _ _ allVectorIds) as [pids m]. cbn [fst snd] in *.
  unfold findDeleted. rewrite findDeleted_fold. cbn [snd].
  rewrite app_nil_l, elem_of_concat. split.
  - intros (l & Hv & Hl). apply list_elem_of_fmap in Hl as (d & -> & Hd).
    apply list_elem_of_filter in Hd as [Hd _]. rewrite Hm in Hv.
    apply list_elem_of_filter in Hv as [Hv Hin]. eauto.
  - intros (Hin & d & Hv & Hd). exists (default [] (m !! d)). split.
    + rewrite Hm. by apply list_elem_of_filter.
    + apply list_elem_of_fmap. exists d. split; [done|].
      apply list_elem_of_filter. split; [done|]. apply Hp.
      intros Hnil. assert (v ∈ idsOfPost d allVectorIds) as Hv'
        by by apply list_elem_of_filter.
      rewrite Hnil in Hv'. by apply elem_of_nil in Hv'.
Qed.

End CleanFacts.

(* ===================================================================== *)
(** * Reconciliation: the vector id scheme and [clean]                    *)
(* ===================================================================== *)

Module Reconciliation.

Import Js Pinecone Clean VectorIdFacts CleanFacts.

Local Open Scope string_scope.

(** ** A small index shared by two sites *)

Definition sampleMetadata (d n : Z) (dom : string) : VectorMetadata :=
  {| post_id := d; chunk := "text"; domain := dom; schema_version := 1;
     chunk_index := n; descriptive := [] |}.

Definition sampleDocument (d : Z) : ProcessedDocument :=
  {| doc_id := d; doc_title := "title"; doc_content := "content" |}.

(** Posts 1 and 2 are live; every remote call succeeds. *)
Definition sampleRun : Collaborators :=
  {| fetchSettings :=
       Fulfilled {| clean_deleted := true; chunk_size := 500;
                    chunk_overlap := 50; settings_domain := "example.com" |};
     initialize := Fulfilled tt;
     fetchAllPosts := Fulfilled [sampleDocument 1; sampleDocument 2];
     getStats := Fulfilled tt;
     remote := {| deleteMany_error := fun _ => None; list_error := None |} |}.

Definition postStore : Store :=
  list_to_map
    [("post-1-chunk-0", Some (sampleMetadata 1 0 "example.com"));
     ("post-2-chunk-0", Some (sampleMetadata 2 0 "example.com"));
     ("post-5-chunk-0", Some (sampleMetadata 5 0 "example.com"));
     ("post-5-chunk-1", Some (sampleMetadata 5 1 "example.com"));
     ("post-9-chunk-0", Some (sampleMetadata 9 0 "other.org"));
     ("legacy-7", Some (sampleMetadata 7 0 "example.com"))].

Definition docStore : Store :=
  list_to_map
    [("doc-1-chunk-0", Some (sampleMetadata 1 0 "example.com"));
     ("doc-2-chunk-0", Some (sampleMetadata 2 0 "example.com"));
     ("doc-5-chunk-0", Some (sampleMetadata 5 0 "example.com"));
     ("doc-5-chunk-1", Some (sampleMetadata 5 1 "example.com"))].

(** ** The id scheme *)

(** C1, as the code has it: for a post id [d >= 0] and a chunk index
    [n >= 0], the vector built for chunk [n] of post [d] has the id
    ["post-{d}-chunk-{n}"] (decimal renderings), and parsing that id with
    the pattern [clean] uses gives back [d]. *)
Theorem vector_id_reversible (d n : Z) (embedding : list Q)
    (md : VectorMetadata) :
  0 <= d -> 0 <= n ->
  id (createVector d n embedding md)
    = "post-" +:+ Z_to_string d +:+ "-chunk-" +:+ Z_to_string n
  /\ postIdOfVectorId (id (createVector d n embedding md)) = Some d.
Proof.
  intros Hd Hn. split; [done|].
  by apply postIdOfVectorId_createVectorId.
Qed.

Lemma vector_id_reversible_witness :
  id (createVector 12 3 [] (sampleMetadata 12 0 "example.com"))
    = "post-12-chunk-3"
  /\ postIdOfVectorId
       (id (createVector 12 3 [] (sampleMetadata 12 0 "example.com")))
     = Some 12.
Proof.
  apply (vector_id_reversible 12 3 [] (sampleMetadata 12 0 "example.com"));
    lia.
Defined.

(** C1 as stated fails: the id of chunk 0 of post 1 is not
    ["doc-1-chunk-0"], and an id of that shape does not parse. *)
Lemma vector_id_not_doc_prefixed :
  id (createVector 1 0 [] (sampleMetadata 1 0 "example.com"))
    <> "doc-1-chunk-0"
  /\ postIdOfVectorId "doc-1-chunk-0" = None.
Proof. split; [discriminate|reflexivity]. Qed.

(** ** [clean] *)

(** C2, as the code has it.  When reconciliation is enabled and every
    collaborator answers, [clean] removes from the store exactly the
    vectors of the current domain whose id parses (as
    [post-{digits}-chunk-{digits}]) to a post id absent from the live set,
    and leaves every other vector as it was; the list handed to the store
    holds exactly the enumerated ids with that property; and for live ids
    [{1,2}] and enumerated ids [post-1-chunk-0], [post-2-chunk-0],
    [post-5-chunk-0], [post-5-chunk-1] that list is [post-5-chunk-0],
    [post-5-chunk-1]. *)
Theorem clean_deletes_exactly_orphans (c : Collaborators) (store : Store)
    (settings : IndexerSettings) (docs : list ProcessedDocument) :
  fetchSettings c = Fulfilled settings ->
  clean_deleted settings = true ->
  initialize c = Fulfilled tt ->
  fetchAllPosts c = Fulfilled docs ->
  getStats c = Fulfilled tt ->
  list_error (remote c) = None ->
  (forall k, deleteMany_error (remote c) k = None) ->
  let live : gset Z := list_to_set (doc_id <$> docs) in
  let orphaned (v : string) :=
    exists md d, store !! v = Some (Some md)
                 /\ domain md = settings_domain settings
                 /\ postIdOfVectorId v = Some d /\ d ∉ live in
  (forall (L : gset Z) (S : list string) (v : string),
      v ∈ vectorIdsToDelete L S
      <-> v ∈ S /\ exists d, postIdOfVectorId v = Some d /\ d ∉ L)
  /\ (clean c store).1 = Fulfilled tt
  /\ (forall v, orphaned v -> (clean c store).2 !! v = None)
  /\ (forall v, ~ orphaned v -> (clean c store).2 !! v = store !! v)
  /\ vectorIdsToDelete {[1; 2]}
       ["post-1-chunk-0"; "post-2-chunk-0"; "post-5-chunk-0"; "post-5-chunk-1"]
     = ["post-5-chunk-0"; "post-5-chunk-1"].
Proof.
  intros Hs Hc Hi Hp Hg Hl Hd live orphaned.
  split; [apply elem_of_vectorIdsToDelete|].
  assert (forall S v, listVectorIdsForDomain (remote c)
                        (settings_domain settings) store = Fulfilled S ->
            v ∈ vectorIdsToDelete live S <-> orphaned v) as Horph.
  { intros S v HS. rewrite elem_of_vectorIdsToDelete.
    rewrite (elem_of_listVectorIdsForDomain _ _ _ _ v HS).
    unfold orphaned. split.
    - intros ((md & H1 & H2) & d & H3 & H4). by exists md, d.
    - intros (md & d & H1 & H2 & H3 & H4). split; [by exists md|by exists d]. }
  unfold clean. rewrite Hs, Hc, Hi, Hp, Hg. cbn [negb].
  destruct (listVectorIdsForDomain _ _ store) as [S|e] eqn:HS;
    [|by unfold listVectorIdsForDomain in HS; rewrite Hl in HS].
  fold live. specialize (Horph S).
  destruct (vectorIdsToDelete live S) as [|i ids] eqn:Hids.
  - cbn [fst snd]. split; [done|]. split; [|split; [done|by vm_compute]].
    intros v Hv. apply Horph in Hv; [|done]. by apply elem_of_nil in Hv.
  - destruct (deleteByVectorIds_ok (remote c) (i :: ids) store Hd) as [H1 H2].
    split; [done|]. split; [|split; [|by vm_compute]].
    + intros v Hv. apply H2. by apply Horph.
    + intros v Hv. apply deleteByVectorIds_frame.
      intros Hin. apply Hv. by apply Horph.
Qed.

Lemma clean_deletes_exactly_orphans_witness :
  (clean sampleRun postStore).1 = Fulfilled tt
  /\ (clean sampleRun postStore).2 !! "post-5-chunk-0" = None
  /\ (clean sampleRun postStore).2 !! "post-5-chunk-1" = None
  /\ (clean sampleRun postStore).2 !! "post-1-chunk-0"
     = postStore !! "post-1-chunk-0".
Proof.
  destruct (clean_deletes_exactly_orphans sampleRun postStore
              {| clean_deleted := true; chunk_size := 500;
                 chunk_overlap := 50; settings_domain := "example.com" |}
              [sampleDocument 1; sampleDocument 2])
    as (_ & H1 & H2 & H3 & _); try reflexivity.
  split; [exact H1|]. split; [|split].
  - apply H2. exists (sampleMetadata 5 0 "example.com"), 5.
    repeat split; try reflexivity. by vm_compute.
  - apply H2. exists (sampleMetadata 5 1 "example.com"), 5.
    repeat split; try reflexivity. by vm_compute.
  - apply H3. intros (md & d & _ & _ & Hd & Hlive).
    vm_compute in Hd. injection Hd as <-. apply Hlive. by vm_compute.
Defined.

(** C2 as stated fails on its own example: with live ids [{1,2}] and the
    stored ids [doc-1-chunk-0], [doc-2-chunk-0], [doc-5-chunk-0],
    [doc-5-chunk-1], nothing is handed to the store for deletion and both
    vectors of the deleted document 5 are still stored afterwards. *)
Lemma clean_keeps_doc_prefixed_ids :
  vectorIdsToDelete {[1; 2]}
    ["doc-1-chunk-0"; "doc-2-chunk-0"; "doc-5-chunk-0"; "doc-5-chunk-1"] = []
  /\ (clean sampleRun docStore).1 = Fulfilled tt
  /\ (clean sampleRun docStore).2 !! "doc-5-chunk-0"
     = Some (Some (sampleMetadata 5 0 "example.com"))
  /\ (clean sampleRun docStore).2 !! "doc-5-chunk-1"
     = Some (Some (sampleMetadata 5 1 "example.com")).
Proof. repeat split; vm_compute; reflexivity. Qed.

(** C10: a vector whose id does not match [post-{digits}-chunk-{digits}]
    is never put in the deletion list, whatever the live set and the
    enumerated ids are, and [clean] leaves it in the store untouched,
    whatever the collaborators answer. *)
Theorem clean_spares_unparsed_ids (c : Collaborators) (store : Store)
    (v : string) :
  vectorIdPattern v = None ->
  (forall (L : gset Z) (S : list string), v ∉ vectorIdsToDelete L S)
  /\ (clean c store).2 !! v = store !! v.
Proof.
  intros Hv.
  assert (forall (L : gset Z) (S : list string),
             v ∉ vectorIdsToDelete L S) as Hout.
  { intros L S Hin. apply elem_of_vectorIdsToDelete in Hin as (_ & d & Hd & _).
    apply postIdOfVectorId_None in Hv. congruence. }
  split; [done|]. unfold clean.
  destruct (fetchSettings c) as [settings|]; [|done].
  destruct (clean_deleted settings); [|done]. cbn [negb].
  destruct (initialize c); [|done].
  destruct (fetchAllPosts c) as [docs|]; [|done].
  destruct (getStats c); [|done].
  destruct (listVectorIdsForDomain _ _ store) as [S|]; [|done].
  destruct (vectorIdsToDelete _ S) as [|i ids] eqn:Hids; [done|].
  apply deleteByVectorIds_frame. rewrite <- Hids. apply Hout.
Qed.

Lemma clean_spares_unparsed_ids_witness :
  (clean sampleRun postStore).2 !! "legacy-7" = postStore !! "legacy-7".
Proof.
  apply (clean_spares_unparsed_ids sampleRun postStore "legacy-7").
  reflexivity.
Defined.

End Reconciliation.

(* ===================================================================== *)
(** * Properties of the chunk splitter                                    *)
(* ===================================================================== *)

Module ChunkerFacts.

Import Chunker.

(** [c.repeat(n)] *)
Fixpoint repeatChar (n : nat) (c : ascii) : string :=
  match n with
  | O => EmptyString
  | S n' => String c (repeatChar n' c)
  end.

Definition spans (l : list Emitted) : list (Z * Z) :=
  (fun e => (spanStart e, spanEnd e)) <$> l.

(** [n] evaluations of the loop condition and body. *)
Fixpoint runSteps (n : nat) (chunkSize chunkOverlap : Z) (content : string)
    (st : LoopState) : LoopState + list Emitted :=
  match n with
  | O => inl st
  | S n' =>
      match chunkStep chunkSize chunkOverlap content st with
      | inl st' => runSteps n' chunkSize chunkOverlap content st'
      | inr result => inr result
      end
  end.

Lemma chunkLoop_runSteps (n fuel : nat) (cs co : Z) (content : string) :
  forall st st',
    runSteps n cs co content st = inl st' ->
    chunkLoop (n + fuel) cs co content st = chunkLoop fuel cs co content st'.
Proof.
  induction n as [|n IH]; intros st st' Hrun; cbn in *.
  - by injection Hrun as ->.
  - destruct (chunkStep cs co content st) as [st1|]; [|done]. by apply IH.
Qed.

(** ** Chunks of the loop are never empty *)

Definition nonEmpty (e : Emitted) : Prop := 0 < len (text (chunk e)).

Lemma chunkStep_nonEmpty (cs co : Z) (content : string) (st : LoopState) :
  Forall nonEmpty (chunks st) ->
  match chunkStep cs co content st with
  | inl st' => Forall nonEmpty (chunks st')
  | inr result => Forall nonEmpty result
  end.
Proof.
  intros Hst. unfold chunkStep.
  destruct (position st <? len content); cbn [negb]; [|done].
  set (endPosition := if position st + cs <? len content then _ else _).
  set (chunkText := trim (slice content (position st) endPosition)).
  assert (Forall nonEmpty
            (if 0 <? len chunkText
             then chunks st ++ [{| chunk := {| text := chunkText;
                                                index := chunkIndex st |};
                                   spanStart := position st;
                                   spanEnd := endPosition |}]
             else chunks st)) as Hnew.
  { destruct (0 <? len chunkText) eqn:Hlen; [|done].
    apply Forall_app. split; [done|]. apply Forall_singleton.
    unfold nonEmpty. cbn. lia. }
  destruct (0 <? len chunkText); destruct (endPosition <? len content); done.
Qed.

Lemma chunkLoop_nonEmpty (fuel : nat) (cs co : Z) (content : string) :
  forall st result,
    Forall nonEmpty (chunks st) ->
    chunkLoop fuel cs co content st = Some result ->
    Forall nonEmpty result.
Proof.
  induction fuel as [|fuel IH]; intros st result Hst Hrun; [done|].
  cbn in Hrun. pose proof (chunkStep_nonEmpty cs co content st Hst) as Hstep.
  destruct (chunkStep cs co content st) as [st'|r].
  - by apply (IH st').
  - by injection Hrun as <-.
Qed.

(** When the normalized text is not empty, every chunk returned has a
    non-empty text. *)
Lemma chunkContent_nonEmpty (fuel : nat) (cs co : Z) (content : string)
    (result : list Chunk) :
  normalize content <> EmptyString ->
  chunkContent fuel cs co content = Some result ->
  Forall (fun c => text c <> EmptyString) result.
Proof.
  intros Hne. unfold chunkContent, chunkContentSpans.
  destruct (len (normalize content) <=? cs) eqn:Hle.
  - intros [= <-]. by repeat constructor.
  - destruct (chunkLoop _ _ _ _ _) as [l|] eqn:Hloop; [|done].
    intros [= <-]. apply chunkLoop_nonEmpty in Hloop; [|by constructor].
    apply Forall_fmap. eapply Forall_impl; [exact Hloop|].
    intros e He Heq. unfold nonEmpty in He. cbn in Heq. rewrite Heq in He.
    by cbn in He.
Qed.

(** After a chunk has been cut up to [endPosition], the cursor is set to
    [endPosition - chunkOverlap] or to [endPosition]: the spans of that
    chunk and of the next overlap by at most [chunkOverlap] characters. *)
Lemma chunkStep_next_position (cs co : Z) (content : string)
    (st st' : LoopState) :
  chunkStep cs co content st = inl st' ->
  chunks st' = chunks st
  \/ exists e, chunks st' = chunks st ++ [e]
               /\ spanStart e = position st
               /\ (position st' = spanEnd e - co \/ position st' = spanEnd e).
Proof.
  unfold chunkStep.
  destruct (position st <? len content); cbn [negb]; [|done].
  set (endPosition := if position st + cs <? len content then _ else _).
  set (chunkText := trim (slice content (position st) endPosition)).
  destruct (0 <? len chunkText); destruct (endPosition <? len content);
    try done; intros [= <-]; cbn [chunks position]; [right|by left].
  eexists. split; [done|]. split; [done|]. cbn [spanEnd].
  rewrite last_snoc. cbn [chunk text]. destruct (_ <=? _); auto.
Qed.

(** ** Inputs *)

(** 99 letters, a space, 80 letters, a space, 19 letters. *)
Definition backwardText : string :=
  repeatChar 99 "a" +:+ " " +:+ repeatChar 80 "a" +:+ " " +:+ repeatChar 19 "a".

(** 99 letters, a space, 100 letters, a space, 20 letters. *)
Definition stuckText : string :=
  repeatChar 99 "a" +:+ " " +:+ repeatChar 100 "a" +:+ " " +:+ repeatChar 20 "a".

(** ** Claims *)

(** C3 on the code: with chunk size 100 and overlap 90 (valid settings),
    the text [backwardText] of 200 characters is split into four chunks cut
    from the spans [0,99), [99,180), [90,180), [180,200): the third chunk
    starts before the second, so the start positions are not strictly
    increasing. *)
Theorem chunk_starts_move_backward (fuel : nat) :
  exists result,
    chunkContentSpans (4 + fuel) 100 90 backwardText = Some result
    /\ chunkContent (4 + fuel) 100 90 backwardText = Some (chunk <$> result)
    /\ spans result = [(0, 99); (99, 180); (90, 180); (180, 200)]
    /\ index <$> (chunk <$> result) = [0; 1; 2; 3].
Proof.
  unfold chunkContent, chunkContentSpans.
  replace (len (normalize backwardText) <=? 100) with false by by vm_compute.
  assert (exists st, runSteps 3 100 90 (normalize backwardText)
                       {| position := 0; chunkIndex := 0; chunks := [] |}
                     = inl st
                     /\ chunkStep 100 90 (normalize backwardText) st
                        = inr (chunks st
                                 ++ [{| chunk := {| text := repeatChar 19 "a";
                                                     index := 3 |};
                                        spanStart := 180;
                                        spanEnd := 200 |}])
                     /\ spans (chunks st) = [(0, 99); (99, 180); (90, 180)]
                     /\ index <$> (chunk <$> chunks st) = [0; 1; 2])
    as (st & Hrun & Hlast & Hsp & Hidx).
  { eexists. split; [by vm_compute|]. by vm_compute. }
  replace (4 + fuel)%nat with (3 + S fuel)%nat by lia.
  rewrite (chunkLoop_runSteps 3 (S fuel) _ _ _ _ st Hrun).
  cbn [chunkLoop]. rewrite Hlast.
  eexists. split; [reflexivity|]. split; [reflexivity|].
  unfold spans in *. rewrite !fmap_app, Hsp, Hidx. split; reflexivity.
Qed.

(** With the same settings the text [stuckText] of 221 characters makes
    the loop reach position 110 and stay there: the function returns for
    no number of iterations. *)
Lemma stuckText_facts :
  len stuckText = 221
  /\ findBreakPoint 100 stuckText 110 (110 + 100) = 200
  /\ trim (slice stuckText 110 200) = repeatChar 90 "a"
  /\ len (repeatChar 90 "a") = 90.
Proof. repeat split; vm_compute; reflexivity. Qed.

Lemma chunkLoop_stuck_at_110 (fuel : nat) :
  forall (idx : Z) (cs : list Emitted),
    chunkLoop fuel 100 90 stuckText
      {| position := 110; chunkIndex := idx; chunks := cs |} = None.
Proof.
  destruct stuckText_facts as (Hlen & Hbreak & Htext & Hlen90).
  induction fuel as [|fuel IH]; intros idx cs; [done|].
  cbn [chunkLoop]. unfold chunkStep. cbn [position chunkIndex chunks].
  rewrite Hlen. change (110 <? 221) with true.
  change (110 + 100 <? 221) with true. cbv beta iota zeta. cbn [negb].
  rewrite Hbreak, Htext, Hlen90. change (0 <? 90) with true.
  change (200 <? 221) with true. cbv beta iota zeta.
  rewrite last_snoc. cbn [chunk text]. rewrite Hlen90.
  change (200 - 90 <=? 90) with false. change (200 - 90) with 110.
  cbv beta iota zeta. apply IH.
Qed.

Lemma chunkContent_never_returns (fuel : nat) :
  chunkContent fuel 100 90 stuckText = None.
Proof.
  unfold chunkContent, chunkContentSpans.
  replace (normalize stuckText) with stuckText by (vm_compute; reflexivity).
  replace (len stuckText <=? 100) with false by (vm_compute; reflexivity).
  destruct fuel as [|[|[|fuel]]]. 1-3: (vm_compute; reflexivity).
  assert (exists idx cs,
             runSteps 3 100 90 stuckText
               {| position := 0; chunkIndex := 0; chunks := [] |}
             = inl {| position := 110; chunkIndex := idx; chunks := cs |})
    as (idx & cs & Hrun) by (eexists _, _; vm_compute; reflexivity).
  change (S (S (S fuel))) with (3 + fuel)%nat.
  rewrite (chunkLoop_runSteps 3 fuel _ _ _ _ _ Hrun).
  by rewrite chunkLoop_stuck_at_110.
Qed.

(** C8 on the code: when the text is empty after normalization (empty or
    white space only), [chunkContent] returns one chunk whose text is
    empty, whatever the settings with a non-negative chunk size. *)
Theorem chunkContent_blank_gives_empty_chunk (fuel : nat) (cs co : Z)
    (content : string) :
  0 <= cs ->
  normalize content = EmptyString ->
  chunkContent fuel cs co content
  = Some [{| text := EmptyString; index := 0 |}].
Proof.
  intros Hcs Hblank. unfold chunkContent, chunkContentSpans.
  rewrite Hblank. change (len EmptyString) with 0.
  destruct (0 <=? cs) eqn:Hle; [done|lia].
Qed.

(** White space only: two spaces, a line feed, a tab, a space. *)
Definition blankText : string :=
  String " " (String " " (String "010" (String "009" (String " " EmptyString)))).

Lemma chunkContent_blank_gives_empty_chunk_witness :
  chunkContent 0 500 50 EmptyString
  = Some [{| text := EmptyString; index := 0 |}]
  /\ chunkContent 0 500 50 blankText
     = Some [{| text := EmptyString; index := 0 |}].
Proof.
  split.
  - apply (chunkContent_blank_gives_empty_chunk 0 500 50 EmptyString);
      [lia|reflexivity].
  - apply (chunkContent_blank_gives_empty_chunk 0 500 50 blankText);
      [lia|reflexivity].
Defined.

End ChunkerFacts.

(* ===================================================================== *)
(** * Properties of the bounded concurrency executor                      *)
(* ===================================================================== *)

Module ConcurrencyFacts.

Import Js Utils.

Section Pool.

Context {T R : Type}.
Variable processor : T -> nat -> Z * Settled R.

Lemma started_poolStep (n : nat) (c : Z) (st : PoolState R) (i : nat) (x : T) :
  outcome <$> started (poolStep processor n c st i x)
  = (outcome <$> started st) ++ [(processor x i).2].
Proof.
  unfold poolStep. destruct (processor x i) as [latency out].
  cbn [started executing clock].
  destruct (c <=? _); [destruct (_ && _)|]; cbn [started];
    by rewrite fmap_app.
Qed.

Lemma started_poolLoop (n : nat) (c : Z) (items : list T) :
  forall (st : PoolState R) (i : nat),
    outcome <$> started (poolLoop processor n c st i items)
    = (outcome <$> started st)
        ++ imap (fun j x => (processor x (i + j)).2) items.
Proof.
  induction items as [|x items IH]; intros st i; cbn [poolLoop imap].
  - by rewrite app_nil_r.
  - rewrite IH, started_poolStep, <- (assoc_L (++)). cbn [app].
    rewrite Nat.add_0_r. do 2 f_equal. apply imap_ext.
    intros j y _. cbn. by rewrite Nat.add_succ_r.
Qed.

(** The array returned has one slot per item. *)
Lemma processWithConcurrency_length (t0 : Z) (items : list T) (c : Z) :
  length (processWithConcurrency processor t0 items c) = length items.
Proof.
  unfold processWithConcurrency. rewrite length_fmap.
  rewrite <- (length_fmap outcome), started_poolLoop.
  cbn. by rewrite length_imap.
Qed.

(** A filled slot [i] holds the outcome of item [i], fulfilled or
    rejected. *)
Lemma processWithConcurrency_slot (t0 : Z) (items : list T) (c : Z)
    (i : nat) (o : Settled R) :
  processWithConcurrency processor t0 items c !! i = Some (Some o) ->
  exists x, items !! i = Some x /\ o = (processor x i).2.
Proof.
  unfold processWithConcurrency. rewrite list_lookup_fmap.
  set (st := poolLoop _ _ _ _ _ _).
  destruct (started st !! i) as [task|] eqn:Hi; [|done]. cbn.
  destruct (finish task <=? _); [|done]. intros [= <-].
  assert ((outcome <$> started st) !! i = Some (outcome task)) as Ho
    by by rewrite list_lookup_fmap, Hi.
  unfold st in Ho. rewrite started_poolLoop in Ho. cbn in Ho.
  rewrite list_lookup_imap in Ho.
  destruct (items !! i) as [x|]; [|done]. cbn in Ho.
  injection Ho as <-. by exists x.
Qed.

End Pool.

(** Three items; the first takes 100 ms, the others 1 ms. *)
Definition slowFirst (item : string) (i : nat) : Z * Settled string :=
  (match i with O => 100 | _ => 1 end, Fulfilled item).

(** C6 on the code: with a concurrency of two and a first item slower than
    the next two, the function returns while the first item is still
    running; its slot in the returned array is empty. *)
Theorem processWithConcurrency_leaves_slot_empty :
  processWithConcurrency slowFirst 0 ["a"; "b"; "c"]%string 2
  = [None; Some (Fulfilled "b"%string); Some (Fulfilled "c"%string)].
Proof. vm_compute. reflexivity. Qed.

End ConcurrencyFacts.

(* ===================================================================== *)
(** * Properties of the rate limiter                                      *)
(* ===================================================================== *)

Module RateLimiterFacts.

Import Utils.

Local Open Scope Q_scope.

Definition bounded (rl : RateLimiter) : Prop :=
  0 <= tokens rl /\ tokens rl <= capacity rl.

(** The limiters seen while the turns [(now, tokensNeeded)] are taken one
    after the other: after each refill and after each turn. *)
Fixpoint visited (rl : RateLimiter) (turns : list (Z * Q))
    : list RateLimiter :=
  match turns with
  | [] => []
  | (now, n) :: rest =>
      refill now rl :: (acquireTurn now n rl).1
        :: visited (acquireTurn now n rl).1 rest
  end.

(** Clock readings that never go back. *)
Fixpoint nondecreasing (previous : Z) (readings : list Z) : Prop :=
  match readings with
  | [] => True
  | now :: rest => (previous <= now)%Z /\ nondecreasing now rest
  end.

Lemma refill_le_capacity (now : Z) (rl : RateLimiter) :
  tokens (refill now rl) <= capacity rl.
Proof. cbn. apply Q.le_min_l. Qed.

Lemma refill_bounded (now : Z) (rl : RateLimiter) :
  0 <= capacity rl -> 0 <= refillRate rl -> (lastRefill rl <= now)%Z ->
  bounded rl -> bounded (refill now rl).
Proof.
  intros Hcap Hrate Hnow [Hlo Hhi].
  split; [|exact (refill_le_capacity now rl)].
  cbn. apply Q.min_glb; [done|].
  assert (0 <= inject_Z (now - lastRefill rl) / 1000) as Ht.
  { apply Qle_shift_div_l; [reflexivity|]. rewrite Qmult_0_l.
    change 0 with (inject_Z 0). rewrite <- Zle_Qle. lia. }
  pose proof (Qmult_le_0_compat _ _ Ht Hrate). lra.
Qed.

Lemma acquireTurn_tokens (now : Z) (n : Q) (rl : RateLimiter) :
  tokens (acquireTurn now n rl).1
  = if Qle_bool n (tokens (refill now rl))
    then tokens (refill now rl) - n
    else tokens (refill now rl).
Proof. unfold acquireTurn. by destruct (Qle_bool _ _). Qed.

Lemma acquireTurn_bounded (now : Z) (n : Q) (rl : RateLimiter) :
  1 <= n -> bounded (refill now rl) -> bounded (acquireTurn now n rl).1.
Proof.
  intros Hn [Hlo Hhi]. unfold bounded, acquireTurn.
  destruct (Qle_bool n (tokens (refill now rl))) eqn:Hle; [|done].
  apply Qle_bool_iff in Hle. cbn [fst tokens capacity] in *. split; lra.
Qed.

Lemma acquireTurn_frame (now : Z) (n : Q) (rl : RateLimiter) :
  lastRefill (acquireTurn now n rl).1 = now
  /\ capacity (acquireTurn now n rl).1 = capacity rl
  /\ refillRate (acquireTurn now n rl).1 = refillRate rl.
Proof. unfold acquireTurn. by destruct (Qle_bool _ _). Qed.

Lemma acquire_bounded (n : Q) (readings : list Z) :
  1 <= n ->
  forall rl : RateLimiter,
    0 <= capacity rl -> 0 <= refillRate rl -> bounded rl ->
    nondecreasing (lastRefill rl) readings ->
    bounded (acquire n readings rl).1.
Proof.
  intros Hn. induction readings as [|now rest IH];
    intros rl Hcap Hrate Hb Hclock; [done|].
  cbn in Hclock. destruct Hclock as [Hnow Hclock]. cbn [acquire].
  pose proof (acquireTurn_bounded now n rl Hn
                (refill_bounded now rl Hcap Hrate Hnow Hb)) as Ha.
  destruct (acquireTurn_frame now n rl) as (Hl & Hc & Hrr).
  destruct (acquireTurn now n rl) as [rl' [|]]; cbn [fst] in *; [done|].
  apply IH; [by rewrite Hc|by rewrite Hrr|done|by rewrite Hl].
Qed.

Lemma newRateLimiter_bounded (now : Z) (requestsPerSecond : Q)
    (burstSize : option Q) :
  0 <= requestsPerSecond ->
  (forall b, burstSize = Some b -> 0 <= b) ->
  bounded (newRateLimiter now requestsPerSecond burstSize)
  /\ 0 <= capacity (newRateLimiter now requestsPerSecond burstSize)
  /\ 0 <= refillRate (newRateLimiter now requestsPerSecond burstSize).
Proof.
  intros Hr Hb. unfold bounded, newRateLimiter. cbn.
  destruct burstSize as [b|]; [|repeat split; lra].
  specialize (Hb b eq_refl). destruct (Qeq_bool b 0); repeat split; lra.
Qed.

(** C9, as the code has it: for a limiter with non-negative capacity and
    refill rate whose token count lies in [0, capacity] (as it does when the
    limiter is made), every sequence of turns of [acquire(n)] with [n >= 1]
    taken at clock readings that never go back keeps [0 <= tokens <=
    capacity] after every refill and after every deduction, and so does
    every call of [acquire]; a turn deducts [n] exactly when at least [n]
    tokens are there after the refill; and a refill never leaves more than
    [capacity] tokens, whatever the clock reads. *)
Theorem tokens_stay_bounded (rl : RateLimiter) (turns : list (Z * Q)) :
  0 <= capacity rl -> 0 <= refillRate rl -> bounded rl ->
  nondecreasing (lastRefill rl) (turns.*1) ->
  Forall (fun turn => 1 <= turn.2) turns ->
  Forall bounded (visited rl turns)
  /\ (forall n readings,
        1 <= n -> nondecreasing (lastRefill rl) readings ->
        bounded (acquire n readings rl).1)
  /\ (forall now n rl',
        tokens (acquireTurn now n rl').1
        = if Qle_bool n (tokens (refill now rl'))
          then tokens (refill now rl') - n
          else tokens (refill now rl'))
  /\ (forall now rl', tokens (refill now rl') <= capacity rl').
Proof.
  intros Hcap Hrate Hb Hclock Hn.
  split; [|split; [intros; by apply acquire_bounded|
                   split; [apply acquireTurn_tokens|apply refill_le_capacity]]].
  revert rl Hcap Hrate Hb Hclock.
  induction Hn as [|[now n] turns Hn1 Hn IH]; intros rl Hcap Hrate Hb Hclock;
    cbn [visited]; [constructor|].
  cbn in Hclock. destruct Hclock as [Hnow Hclock]. cbn in Hn1.
  pose proof (refill_bounded now rl Hcap Hrate Hnow Hb) as Hr.
  pose proof (acquireTurn_bounded now n rl Hn1 Hr) as Ha.
  destruct (acquireTurn_frame now n rl) as (Hl & Hc & Hrr).
  apply Forall_cons; split; [done|]. apply Forall_cons; split; [done|].
  apply IH; [by rewrite Hc|by rewrite Hrr|done|by rewrite Hl].
Qed.

Lemma tokens_stay_bounded_witness :
  Forall bounded
    (visited (newRateLimiter 1000 50 None)
       [(1000%Z, 1); (1010%Z, 1); (1010%Z, 60); (2500%Z, 2)])
  /\ bounded (acquire 1 [1000%Z] (newRateLimiter 1000 50 None)).1.
Proof.
  destruct (tokens_stay_bounded (newRateLimiter 1000 50 None)
              [(1000%Z, 1); (1010%Z, 1); (1010%Z, 60); (2500%Z, 2)])
    as (Hvisited & Hacquire & _).
  - cbn. lra.
  - cbn. lra.
  - split; cbn; lra.
  - cbn. lia.
  - repeat constructor; cbn; lra.
  - split; [exact Hvisited|]. apply Hacquire; [lra|cbn; lia].
Defined.

(** C9 as stated fails for a clock that goes back: a limiter of 50
    requests per second created at time 1000 hands out one token at time
    1000; when the clock then reads 0, the refill leaves -1 tokens. *)
Lemma tokens_negative_when_clock_goes_back :
  let rl := (acquireTurn 1000 1 (newRateLimiter 1000 50 None)).1 in
  bounded rl
  /\ tokens (refill 0 rl) == -1
  /\ ~ bounded (acquireTurn 0 1 rl).1.
Proof.
  cbn zeta. split; [split; vm_compute; discriminate|].
  split; [reflexivity|]. intros [H _]. vm_compute in H. by apply H.
Qed.

End RateLimiterFacts.

(* ===================================================================== *)
(** * Properties of the circuit breaker                                   *)
(* ===================================================================== *)

Module CircuitBreakerFacts.

Import Js Utils.



Section Sequential.

Context {World : Type}.
Variable now : World -> Z.






End Sequential.

(** ** Instances *)

(** A world that is only a clock. *)
Definition failsAfter (ms : Z) (t : Z) : Z * Settled unit :=
  (t + ms, Rejected (new_Error "upstream failure")).




End CircuitBreakerFacts.

(* ===================================================================== *)
(** * Properties of the retry policy                                      *)
(* ===================================================================== *)

Module RetryFacts.

Import Js Utils.

Section Retry.

Context {World T : Type}.
Variable sleep : Z -> World -> World.
Variable random : nat -> Q.
Variable fn : World -> World * Settled T.
Variables baseDelay maxDelay : Z.

Abbreviation retry := (retryFrom sleep random fn baseDelay maxDelay).

Lemma retry_fulfilled (remaining attempt : nat) (w w' : World) (v : T) :
  fn w = (w', Fulfilled v) ->
  retry remaining attempt w = (w', Fulfilled v, []).
Proof. intros H. destruct remaining; cbn; by rewrite H. Qed.

Lemma retry_not_retryable (remaining attempt : nat) (w w' : World)
    (e : Error) :
  fn w = (w', Rejected e) -> isRetryableError e = false ->
  retry remaining attempt w = (w', Rejected e, []).
Proof. intros H He. destruct remaining; cbn; by rewrite H, ?He. Qed.


Lemma retry_again (remaining attempt : nat) (w w' : World) (e : Error) :
  fn w = (w', Rejected e) -> isRetryableError e = true ->
  let t := backoffWait baseDelay maxDelay attempt (random attempt) in
  retry (S remaining) attempt w
  = ((retry remaining (S attempt) (sleep t w')).1.1,
     (retry remaining (S attempt) (sleep t w')).1.2,
     t :: (retry remaining (S attempt) (sleep t w')).2).
Proof.
  intros H He. cbn. rewrite H, He. cbn.
  by destruct (retryFrom _ _ _ _ _ _ _ _) as [[? ?] ?].
Qed.


(** At most [remaining] sleeps, the [i]-th of them computed from the
    attempt [attempt + i] that has just failed. *)
Lemma retry_sleeps (remaining : nat) :
  forall (attempt : nat) (w : World),
    (length (retry remaining attempt w).2 <= remaining)%nat
    /\ forall (i : nat) (t : Z),
         (retry remaining attempt w).2 !! i = Some t ->
         t = backoffWait baseDelay maxDelay (attempt + i)
               (random (attempt + i)).
Proof.
  induction remaining as [|remaining IH]; intros attempt w.
  - cbn. destruct (fn w) as [w' [v|e]]; cbn; split; (lia || done).
  - destruct (fn w) as [w' [v|e]] eqn:Hfn.
    + rewrite (retry_fulfilled _ _ _ _ _ Hfn). cbn. split; [lia|done].
    + destruct (isRetryableError e) eqn:He.
      * rewrite (retry_again _ _ _ _ _ Hfn He). cbn [fst snd length].
        destruct (IH (S attempt)
                    (sleep (backoffWait baseDelay maxDelay attempt
                              (random attempt)) w')) as [Hlen Hnth].
        split; [lia|]. intros [|i] t Hi; cbn in Hi.
        -- injection Hi as <-. by rewrite Nat.add_0_r.
        -- rewrite Nat.add_succ_r. by apply Hnth.
      * rewrite (retry_not_retryable _ _ _ _ _ Hfn He). cbn.
        split; [lia|done].
Qed.

End Retry.

(** The sleep stays within an eighth of the delay, rounded down. *)
Lemma backoffWait_bounds (baseDelay maxDelay : Z) (attempt : nat) (r : Q) :
  (0 <= r)%Q -> (r < 1)%Q ->
  let d := backoffDelay baseDelay maxDelay attempt in
  0 <= d ->
  (inject_Z d * (7 # 8) - 1 < inject_Z (backoffWait baseDelay maxDelay attempt r))%Q
  /\ (inject_Z (backoffWait baseDelay maxDelay attempt r) <= inject_Z d * (9 # 8))%Q.
Proof.
  intros Hr0 Hr1 d Hd. unfold backoffWait. fold d.
  set (x := (inject_Z d + inject_Z d * (1 # 4) * (r - (1 # 2)))%Q).
  pose proof (Qfloor_le x) as Hlo. pose proof (Qlt_floor x) as Hhi.
  rewrite inject_Z_plus in Hhi. change (inject_Z 1) with 1%Q in Hhi.
  assert (0 <= inject_Z d)%Q as HdQ
    by (change 0%Q with (inject_Z 0); by rewrite <- Zle_Qle).
  assert (inject_Z d * (7 # 8) <= x /\ x <= inject_Z d * (9 # 8))%Q as [Hx1 Hx2].
  { unfold x. split; nra. }
  split; lra.
Qed.



(** ** Instances *)

Definition rateLimited : Error :=
  {| message := "429 Too Many Requests"; status := Some 429; code := None |}.


(** The world counts the calls made; the operation is rate limited twice,
    then succeeds. *)
Definition thirdTimeLucky (calls : nat) : nat * Settled string :=
  (S calls, if (calls <? 2)%nat then Rejected rateLimited
            else Fulfilled "embedding"%string).




End RetryFacts.

(* ===================================================================== *)
(** * Properties of [index]                                               *)
(* ===================================================================== *)

Module IndexerFacts.

Import Js Clean Indexer.

Local Open Scope string_scope.






(** ** Instances *)






End IndexerFacts.

(* ===================================================================== *)
(** * Further properties of the chunk splitter                            *)
(* ===================================================================== *)

Module ChunkerShape.

Import Chunker.

(** ** Normalized text *)

(** Every white-space character of [s] is a single space that does not
    follow another one; [afterSpace] tells whether a space precedes [s]. *)
Fixpoint singleSpaced (afterSpace : bool) (s : string) : bool :=
  match s with
  | EmptyString => true
  | String c r =>
      if is_space c
      then negb afterSpace && Ascii.eqb c " " && singleSpaced true r
      else singleSpaced false r
  end.

Definition startsWithSpace (s : string) : bool :=
  match s with
  | EmptyString => false
  | String c _ => is_space c
  end.

Fixpoint endsWithSpace (s : string) : bool :=
  match s with
  | EmptyString => false
  | String c EmptyString => is_space c
  | String _ r => endsWithSpace r
  end.

Lemma singleSpaced_collapseSpaces (s : string) :
  forall inRun, singleSpaced inRun (collapseSpaces inRun s) = true.
Proof.
  induction s as [|c s IH]; intros inRun; [done|].
  cbn [collapseSpaces]. destruct (is_space c) eqn:Hc.
  - destruct inRun; [apply IH|].
    cbn [singleSpaced]. replace (is_space " ") with true by done.
    by rewrite IH.
  - cbn [singleSpaced]. by rewrite Hc.
Qed.

Lemma singleSpaced_trimStart (s : string) :
  forall b, singleSpaced b s = true -> singleSpaced false (trimStart s) = true.
Proof.
  induction s as [|c s IH]; intros b H; [done|].
  cbn [trimStart]. cbn [singleSpaced] in H. destruct (is_space c) eqn:Hc.
  - apply andb_true_iff in H as [_ H]. by apply (IH true).
  - cbn [singleSpaced]. by rewrite Hc.
Qed.

Lemma startsWithSpace_trimStart (s : string) :
  startsWithSpace (trimStart s) = false.
Proof.
  induction s as [|c s IH]; [done|]. cbn [trimStart].
  by destruct (is_space c) eqn:Hc.
Qed.

Lemma trimEnd_cons (c : ascii) (r : string) :
  trimEnd (String c r)
  = match trimEnd r with
    | EmptyString => if is_space c then EmptyString else String c EmptyString
    | r' => String c r'
    end.
Proof. done. Qed.

Lemma singleSpaced_trimEnd (s : string) :
  forall b, singleSpaced b s = true -> singleSpaced b (trimEnd s) = true.
Proof.
  induction s as [|c s IH]; intros b H; [done|].
  rewrite trimEnd_cons. cbn [singleSpaced] in H.
  destruct (is_space c) eqn:Hc.
  - apply andb_true_iff in H as [H1 H2]. specialize (IH true H2).
    destruct (trimEnd s) as [|c' r']; [done|].
    cbn [singleSpaced] in *. by rewrite Hc, H1, IH.
  - specialize (IH false H).
    destruct (trimEnd s) as [|c' r']; cbn [singleSpaced] in *; by rewrite Hc.
Qed.

Lemma endsWithSpace_trimEnd (s : string) : endsWithSpace (trimEnd s) = false.
Proof.
  induction s as [|c s IH]; [done|]. rewrite trimEnd_cons.
  destruct (trimEnd s) as [|c' r'] eqn:Hr.
  - by destruct (is_space c) eqn:Hc; cbn; rewrite ?Hc.
  - exact IH.
Qed.

Lemma startsWithSpace_trimEnd (s : string) :
  startsWithSpace s = false -> startsWithSpace (trimEnd s) = false.
Proof.
  destruct s as [|c s]; [done|]. cbn [startsWithSpace]. intros Hc.
  rewrite trimEnd_cons. destruct (trimEnd s); by rewrite ?Hc.
Qed.

(** A text of that shape is left as it is by each step of the
    normalization. *)
Lemma collapseSpaces_id (s : string) :
  forall b, singleSpaced b s = true -> collapseSpaces b s = s.
Proof.
  induction s as [|c s IH]; intros b H; [done|].
  cbn [collapseSpaces]. cbn [singleSpaced] in H.
  destruct (is_space c) eqn:Hc.
  - apply andb_true_iff in H as [H1 H2].
    apply andb_true_iff in H1 as [Hb Heq].
    apply negb_true_iff in Hb as ->. apply Ascii.eqb_eq in Heq as ->.
    by rewrite (IH true H2).
  - by rewrite (IH false H).
Qed.

Lemma trimStart_id (s : string) : startsWithSpace s = false -> trimStart s = s.
Proof. destruct s as [|c s]; [done|]. cbn. by intros ->. Qed.

Lemma trimEnd_id (s : string) : endsWithSpace s = false -> trimEnd s = s.
Proof.
  induction s as [|c s IH]; [done|]. intros H. rewrite trimEnd_cons.
  destruct s as [|c' s'].
  - cbn in *. by rewrite H.
  - rewrite IH by exact H. done.
Qed.

(** X1: the normalized text has no white space other than single spaces
    between words: none at its start, none at its end, no two in a row and
    no tab or line break; normalizing it again changes nothing. *)
Theorem normalize_shape (content : string) :
  singleSpaced false (normalize content) = true
  /\ startsWithSpace (normalize content) = false
  /\ endsWithSpace (normalize content) = false
  /\ normalize (normalize content) = normalize content.
Proof.
  assert (singleSpaced false (normalize content) = true) as H1.
  { unfold normalize, trim. apply singleSpaced_trimEnd.
    apply (singleSpaced_trimStart _ false), singleSpaced_collapseSpaces. }
  assert (startsWithSpace (normalize content) = false) as H2.
  { unfold normalize, trim.
    apply startsWithSpace_trimEnd, startsWithSpace_trimStart. }
  assert (endsWithSpace (normalize content) = false) as H3
    by apply endsWithSpace_trimEnd.
  repeat split; try done.
  unfold normalize at 1. unfold trim.
  by rewrite collapseSpaces_id, trimStart_id, trimEnd_id.
Qed.

End ChunkerShape.

Module ChunkerLoop.

Import Chunker ChunkerShape.

(** ** Lengths *)

Lemma len_cons (c : ascii) (s : string) : len (String c s) = 1 + len s.
Proof. unfold len. cbn [String.length]. lia. Qed.

Lemma len_nonneg (s : string) : 0 <= len s.
Proof. unfold len. lia. Qed.

Lemma substring_length (s : string) :
  forall n m, (String.length (substring n m s) <= m)%nat.
Proof.
  induction s as [|c s IH]; intros [|n] [|m]; cbn; try lia.
  - specialize (IH 0%nat m). lia.
  - apply IH.
  - apply IH.
Qed.

Lemma trimStart_length (s : string) :
  (String.length (trimStart s) <= String.length s)%nat.
Proof.
  induction s as [|c s IH]; [done|]. cbn [trimStart].
  destruct (is_space c); cbn [String.length]; lia.
Qed.

Lemma trimEnd_length (s : string) :
  (String.length (trimEnd s) <= String.length s)%nat.
Proof.
  induction s as [|c s IH]; [done|]. rewrite trimEnd_cons.
  destruct (trimEnd s); [destruct (is_space c)|]; cbn [String.length] in *; lia.
Qed.

Lemma trim_len (s : string) : len (trim s) <= len s.
Proof.
  unfold len, trim. pose proof (trimEnd_length (trimStart s)).
  pose proof (trimStart_length s). lia.
Qed.

Lemma slice_len (s : string) (from to : Z) :
  0 <= from <= len s -> 0 <= to -> len (slice s from to) <= Z.max 0 (to - from).
Proof.
  intros Hfrom Hto. unfold slice.
  destruct (Z.ltb_spec from 0); [lia|]. destruct (Z.ltb_spec to 0); [lia|].
  unfold len at 1.
  pose proof (substring_length s (Z.to_nat (Z.min from (len s)))
                (Z.to_nat (Z.min to (len s) - Z.min from (len s)))).
  lia.
Qed.

(** ** Where the two searches of [findBreakPoint] can land *)

Lemma lastSpaceMatch_bound (region : string) :
  forall i last j,
    lastSpaceMatch region i last = Some j ->
    last = Some j \/ (i <= j < i + len region).
Proof.
  induction region as [|a rest IH]; intros i last j H; cbn in H; [by left|].
  apply IH in H as [H|H].
  - destruct (is_space a); [|by left]. injection H as <-. right.
    rewrite len_cons. pose proof (len_nonneg rest). lia.
  - right. rewrite len_cons. lia.
Qed.

Lemma lastSentenceMatch_cons (a b : ascii) (rest : string) (i : Z)
    (last : option Z) :
  lastSentenceMatch (String a (String b rest)) i last
  = if is_sentence_mark a && is_space b
    then lastSentenceMatch rest (i + 2) (Some i)
    else lastSentenceMatch (String b rest) (i + 1) last.
Proof. done. Qed.

Lemma lastSentenceMatch_bound (n : nat) :
  forall region i last j,
    (String.length region <= n)%nat ->
    lastSentenceMatch region i last = Some j ->
    last = Some j \/ (i <= j /\ j + 2 <= i + len region).
Proof.
  induction n as [|n IH]; intros region i last j Hn H.
  - destruct region; [by left|cbn in Hn; lia].
  - destruct region as [|a [|b rest]]; [by left..|].
    rewrite lastSentenceMatch_cons in H. cbn [String.length] in Hn.
    destruct (is_sentence_mark a && is_space b).
    + apply IH in H as [H|H]; [|right|lia].
      * injection H as <-. right. rewrite !len_cons.
        pose proof (len_nonneg rest). lia.
      * rewrite !len_cons. lia.
    + apply IH in H as [H|H]; [by left|right|cbn [String.length]; lia].
      rewrite !len_cons in *. lia.
Qed.

(** [findBreakPoint] answers inside the last fifth of the window, and
    either beyond [start] or at the ideal end. *)
Lemma findBreakPoint_bounds (cs : Z) (content : string) (start idealEnd : Z) :
  0 <= cs -> 0 <= start -> 0 <= idealEnd - cs / 5 -> idealEnd <= len content ->
  idealEnd - cs / 5 <= findBreakPoint cs content start idealEnd <= idealEnd
  /\ (start < findBreakPoint cs content start idealEnd
      \/ findBreakPoint cs content start idealEnd = idealEnd).
Proof.
  intros Hcs Hpos Hstart Hend. unfold findBreakPoint.
  assert (0 <= cs / 5) as Hfifth by (apply Z.div_pos; lia).
  set (searchStart := idealEnd - cs / 5) in *.
  set (region := slice content searchStart idealEnd).
  assert (len region <= cs / 5) as Hregion.
  { pose proof (slice_len content searchStart idealEnd) as H.
    unfold region, searchStart in *. lia. }
  destruct (lastSentenceMatch region 0 None) as [i|] eqn:Hs.
  - apply (lastSentenceMatch_bound _ _ _ _ _ (le_n _)) in Hs as [?|Hs]; [done|].
    destruct (Z.ltb_spec start (searchStart + i + 1)); [lia|].
    destruct (lastSpaceMatch region 0 None) as [k|] eqn:Hw.
    + apply lastSpaceMatch_bound in Hw as [?|Hw]; [done|].
      destruct (Z.ltb_spec start (searchStart + k)); lia.
    + destruct (Z.ltb_spec start (-1)); lia.
  - destruct (Z.ltb_spec start (-1)); [lia|].
    destruct (lastSpaceMatch region 0 None) as [k|] eqn:Hw.
    + apply lastSpaceMatch_bound in Hw as [?|Hw]; [done|].
      destruct (Z.ltb_spec start (searchStart + k)); lia.
    + destruct (Z.ltb_spec start (-1)); lia.
Qed.

(** ** One turn of the loop, piece by piece *)

Section Step.

Variables (cs co : Z) (content : string).

Definition stepEnd (st : LoopState) : Z :=
  if position st + cs <? len content
  then findBreakPoint cs content (position st) (position st + cs)
  else len content.

Definition stepText (st : LoopState) : string :=
  trim (slice content (position st) (stepEnd st)).

Definition stepChunks (st : LoopState) : list Emitted :=
  if 0 <? len (stepText st)
  then chunks st ++ [{| chunk := {| text := stepText st;
                                     index := chunkIndex st |};
                        spanStart := position st;
                        spanEnd := stepEnd st |}]
  else chunks st.

Definition stepIndex (st : LoopState) : Z :=
  if 0 <? len (stepText st) then chunkIndex st + 1 else chunkIndex st.

Definition stepPosition (st : LoopState) : Z :=
  match last (stepChunks st) with
  | Some e =>
      if stepEnd st - co <=? len (text (chunk e)) then stepEnd st
      else stepEnd st - co
  | None => stepEnd st - co
  end.

Lemma chunkStep_unfold (st : LoopState) :
  chunkStep cs co content st
  = if negb (position st <? len content) then inr (chunks st)
    else if stepEnd st <? len content
         then inl {| position := stepPosition st;
                     chunkIndex := stepIndex st;
                     chunks := stepChunks st |}
         else inr (stepChunks st).
Proof.
  unfold chunkStep, stepPosition, stepIndex, stepChunks, stepText, stepEnd.
  destruct (negb _); [done|].
  by destruct (0 <? len _).
Qed.

Lemma stepEnd_bounds (st : LoopState) :
  0 < cs -> 0 <= position st < len content ->
  position st < stepEnd st <= position st + cs
  /\ stepEnd st <= len content
  /\ (stepEnd st < len content -> position st + cs - cs / 5 <= stepEnd st).
Proof.
  intros Hcs Hp. unfold stepEnd.
  assert (0 <= cs / 5 < cs) as Hfifth.
  { split; [apply Z.div_pos; lia|]. apply Z.div_lt_upper_bound; lia. }
  destruct (Z.ltb_spec (position st + cs) (len content)); [|lia].
  pose proof (findBreakPoint_bounds cs content (position st)
                (position st + cs)) as H0.
  lia.
Qed.

(** A property kept by every turn holds of what the loop returns. *)
Lemma chunkLoop_invariant (I : LoopState -> Prop) (R : list Emitted -> Prop) :
  (forall st, I st ->
              match chunkStep cs co content st with
              | inl st' => I st'
              | inr result => R result
              end) ->
  forall fuel st result,
    I st -> chunkLoop fuel cs co content st = Some result -> R result.
Proof.
  intros Hstep. induction fuel as [|fuel IH]; intros st result HI Hrun; [done|].
  cbn [chunkLoop] in Hrun. specialize (Hstep st HI).
  destruct (chunkStep cs co content st) as [st'|r].
  - by apply (IH st').
  - by injection Hrun as <-.
Qed.

End Step.

End ChunkerLoop.

Module ChunkerGuarantees.

Import Chunker ChunkerShape ChunkerLoop.

(** ** Indices *)

Definition numbered (l : list Emitted) : Prop :=
  (fun e => index (chunk e)) <$> l = Z.of_nat <$> seq 0 (length l).

Lemma numbered_snoc (l : list Emitted) (e : Emitted) :
  numbered l -> index (chunk e) = Z.of_nat (length l) -> numbered (l ++ [e]).
Proof.
  unfold numbered. intros Hl He.
  rewrite fmap_app, length_app, Hl. cbn [length].
  rewrite seq_app, fmap_app. cbn. by rewrite He.
Qed.

Lemma chunkStep_numbered (cs co : Z) (content : string) (st : LoopState) :
  chunkIndex st = Z.of_nat (length (chunks st)) /\ numbered (chunks st) ->
  match chunkStep cs co content st with
  | inl st' =>
      chunkIndex st' = Z.of_nat (length (chunks st')) /\ numbered (chunks st')
  | inr result => numbered result
  end.
Proof.
  intros [Hidx Hnum]. rewrite chunkStep_unfold.
  destruct (negb _); [done|].
  assert (numbered (stepChunks cs content st)
          /\ stepIndex cs content st
             = Z.of_nat (length (stepChunks cs content st))) as [H1 H2].
  { unfold stepChunks, stepIndex. destruct (0 <? len _); [|done].
    split; [by apply numbered_snoc|]. rewrite length_app. cbn. lia. }
  by destruct (_ <? _).
Qed.

(** X2: the chunks returned are numbered 0, 1, 2, ... in the order of the
    list, without gap or repetition. *)
Theorem chunk_indices_count_up (fuel : nat) (cs co : Z) (content : string)
    (result : list Chunk) :
  chunkContent fuel cs co content = Some result ->
  index <$> result = Z.of_nat <$> seq 0 (length result).
Proof.
  unfold chunkContent, chunkContentSpans.
  destruct (len (normalize content) <=? cs).
  - by intros [= <-].
  - destruct (chunkLoop _ _ _ _ _) as [l|] eqn:Hloop; [|done].
    intros [= <-].
    assert (numbered l) as Hl.
    { eapply (chunkLoop_invariant cs co (normalize content)
                (fun st => chunkIndex st = Z.of_nat (length (chunks st))
                           /\ numbered (chunks st)) numbered);
        [apply chunkStep_numbered| |exact Hloop].
      by split. }
    unfold numbered in Hl. by rewrite <- list_fmap_compose, length_fmap.
Qed.

(** 500 letters without any space. *)
Definition solidText : string := ChunkerFacts.repeatChar 500 "A".

Lemma chunk_indices_count_up_witness :
  exists result,
    chunkContent 10 100 10 solidText = Some result
    /\ index <$> result = [0; 1; 2; 3; 4; 5].
Proof.
  assert (exists r, chunkContent 10 100 10 solidText = Some r
                    /\ length r = 6%nat) as (r & Hr & Hlen)
    by (eexists; split; vm_compute; reflexivity).
  exists r. split; [exact Hr|].
  rewrite (chunk_indices_count_up 10 100 10 solidText r Hr), Hlen.
  reflexivity.
Defined.

(** ** Chunk lengths *)

Lemma first_chunk_nonempty (content : string) (e : Z) :
  content <> EmptyString -> startsWithSpace content = false -> 1 <= e ->
  0 < len (trim (slice content 0 e)).
Proof.
  intros Hne Hstart He. destruct content as [|c r]; [done|].
  cbn [startsWithSpace] in Hstart. unfold slice.
  destruct (Z.ltb_spec 0 0); [lia|]. destruct (Z.ltb_spec e 0); [lia|].
  rewrite len_cons. pose proof (len_nonneg r).
  replace (Z.to_nat (Z.min 0 (1 + len r))) with 0%nat by lia.
  replace (Z.min e (1 + len r) - Z.min 0 (1 + len r))
    with (Z.min e (1 + len r)) by lia.
  destruct (Z.to_nat (Z.min e (1 + len r))) as [|k] eqn:Hk; [lia|].
  cbn [substring]. unfold trim. cbn [trimStart]. rewrite Hstart.
  rewrite trimEnd_cons. destruct (trimEnd _) as [|c' r']; rewrite ?Hstart.
  - rewrite len_cons. change (len EmptyString) with 0. lia.
  - rewrite len_cons. pose proof (len_nonneg (String c' r')). lia.
Qed.

Section Lengths.

Variables (cs co : Z) (content : string).
Hypothesis cs_pos : 0 < cs.
Hypothesis content_nonempty : content <> EmptyString.
Hypothesis content_trimmed : startsWithSpace content = false.

Definition short (e : Emitted) : Prop := len (text (chunk e)) <= cs.

Lemma stepText_short (st : LoopState) :
  0 <= position st < len content -> len (stepText cs content st) <= cs.
Proof.
  intros Hp. unfold stepText.
  destruct (stepEnd_bounds cs content st cs_pos Hp) as (He & _ & _).
  pose proof (trim_len (slice content (position st) (stepEnd cs content st))).
  pose proof (slice_len content (position st) (stepEnd cs content st)).
  lia.
Qed.

Lemma chunkStep_short (st : LoopState) :
  0 <= position st
  /\ (chunks st = [] -> position st = 0)
  /\ Forall short (chunks st) ->
  match chunkStep cs co content st with
  | inl st' =>
      0 <= position st'
      /\ (chunks st' = [] -> position st' = 0)
      /\ Forall short (chunks st')
  | inr result => Forall short result
  end.
Proof.
  intros (Hpos & Hfirst & Hshort). rewrite chunkStep_unfold.
  destruct (Z.ltb_spec (position st) (len content)); cbn [negb]; [|done].
  assert (0 <= position st < len content) as Hp by lia.
  destruct (stepEnd_bounds cs content st cs_pos Hp) as (He & _ & _).
  pose proof (stepText_short st Hp) as Htext.
  assert (Forall short (stepChunks cs content st)) as Hnew.
  { unfold stepChunks. destruct (0 <? len _); [|done].
    apply Forall_app. split; [done|]. by apply Forall_singleton. }
  assert (stepChunks cs content st <> []) as Hsome.
  { unfold stepChunks. destruct (Z.ltb_spec 0 (len (stepText cs content st)))
      as [|Hempty]; [by destruct (chunks st)|].
    intros Hnil. specialize (Hfirst Hnil).
    pose proof (first_chunk_nonempty content (stepEnd cs content st)
                  content_nonempty content_trimmed) as H1.
    unfold stepText in Hempty. rewrite Hfirst in *. lia. }
  destruct (_ <? _); [|done]. cbn [position chunks].
  split; [|done]. unfold stepPosition.
  destruct (last (stepChunks cs content st)) as [e|] eqn:Hlast.
  - pose proof (len_nonneg (text (chunk e))).
    destruct (Z.leb_spec (stepEnd cs content st - co) (len (text (chunk e))));
      lia.
  - apply last_None in Hlast. done.
Qed.

End Lengths.

(** X3: no chunk is longer than the chunk size. *)
Theorem chunks_fit_chunk_size (fuel : nat) (cs co : Z) (content : string)
    (result : list Chunk) :
  0 < cs ->
  chunkContent fuel cs co content = Some result ->
  Forall (fun c => len (text c) <= cs) result.
Proof.
  intros Hcs. unfold chunkContent, chunkContentSpans.
  destruct (Z.leb_spec (len (normalize content)) cs) as [Hle|Hlong].
  - intros [= <-]. by repeat constructor.
  - destruct (chunkLoop _ _ _ _ _) as [l|] eqn:Hloop; [|done].
    intros [= <-]. apply Forall_fmap.
    destruct (normalize_shape content) as (_ & Hstart & _).
    assert (normalize content <> EmptyString) as Hne.
    { intros Heq. rewrite Heq in Hlong. change (len EmptyString) with 0 in Hlong.
      lia. }
    eapply (chunkLoop_invariant cs co (normalize content) _ (Forall (short cs)));
      [apply (chunkStep_short cs co (normalize content) Hcs Hne Hstart)|
       |exact Hloop].
    cbn. by repeat split.
Qed.

Lemma chunks_fit_chunk_size_witness :
  exists result,
    chunkContent 10 100 10 solidText = Some result
    /\ Forall (fun c => len (text c) <= 100) result.
Proof.
  assert (exists r, chunkContent 10 100 10 solidText = Some r) as (r & Hr)
    by (eexists; vm_compute; reflexivity).
  exists r. split; [exact Hr|].
  apply (chunks_fit_chunk_size 10 100 10 solidText r); [lia|exact Hr].
Defined.

End ChunkerGuarantees.

Module ChunkerProgress.

Import Chunker ChunkerShape ChunkerLoop.

Definition strictlyIncreasing (l : list Z) : Prop :=
  forall i j a b, (i < j)%nat -> l !! i = Some a -> l !! j = Some b -> a < b.

Lemma strictlyIncreasing_snoc (l : list Z) (x : Z) :
  strictlyIncreasing l -> Forall (fun a => a < x) l ->
  strictlyIncreasing (l ++ [x]).
Proof.
  intros Hl Hx i j a b Hij Hi Hj.
  destruct (decide (j < length l)%nat) as [Hjl|Hjl].
  - rewrite lookup_app_l in Hi, Hj by lia. by apply (Hl i j).
  - pose proof (lookup_lt_Some _ _ _ Hj) as Hlt.
    rewrite length_app in Hlt. cbn in Hlt.
    assert (j = length l) as -> by lia.
    rewrite lookup_app_l in Hi by lia.
    rewrite list_lookup_middle in Hj by done. injection Hj as <-.
    rewrite Forall_forall in Hx. apply Hx.
    eapply list_elem_of_lookup_2. exact Hi.
Qed.

Section Progress.

Variables (cs co : Z) (content : string).
Hypothesis cs_pos : 0 < cs.
Hypothesis co_small : co < cs - cs / 5.

(** While the loop goes on, the cursor moves forward. *)
Lemma chunkStep_moves_forward (st st' : LoopState) :
  0 <= position st ->
  chunkStep cs co content st = inl st' ->
  position st < len content /\ position st < position st'.
Proof.
  intros Hpos. rewrite chunkStep_unfold.
  destruct (Z.ltb_spec (position st) (len content)); cbn [negb]; [|done].
  destruct (stepEnd_bounds cs content st cs_pos ltac:(lia)) as (He & _ & Hfar).
  destruct (Z.ltb_spec (stepEnd cs content st) (len content)); [|done].
  intros [= <-]. cbn [position]. split; [done|].
  specialize (Hfar ltac:(lia)). unfold stepPosition.
  destruct (last _) as [e|]; [destruct (_ <=? _)|]; lia.
Qed.

Lemma chunkLoop_returns (fuel : nat) :
  forall st,
    0 <= position st ->
    (0 < fuel)%nat ->
    len content - position st < Z.of_nat fuel ->
    exists result, chunkLoop fuel cs co content st = Some result.
Proof.
  induction fuel as [|fuel IH]; intros st Hpos Hfuel Hmeasure; [lia|].
  cbn [chunkLoop].
  destruct (chunkStep cs co content st) as [st'|r] eqn:Hstep; [|by eexists].
  destruct (chunkStep_moves_forward st st' Hpos Hstep) as [Hin Hfwd].
  apply IH; lia.
Qed.

Definition startsBelow (st : LoopState) : Prop :=
  0 <= position st
  /\ Forall (fun e => spanStart e < position st) (chunks st)
  /\ strictlyIncreasing (spanStart <$> chunks st).

Lemma stepChunks_increasing (st : LoopState) :
  startsBelow st -> strictlyIncreasing (spanStart <$> stepChunks cs content st).
Proof.
  intros (_ & Hbelow & Hinc). unfold stepChunks.
  destruct (0 <? len _); [|done]. rewrite fmap_app.
  apply strictlyIncreasing_snoc; [done|]. by apply Forall_fmap.
Qed.

Lemma chunkStep_startsBelow (st : LoopState) :
  startsBelow st ->
  match chunkStep cs co content st with
  | inl st' => startsBelow st'
  | inr result => strictlyIncreasing (spanStart <$> result)
  end.
Proof.
  intros Hst. pose proof (stepChunks_increasing st Hst) as Hinc.
  destruct (chunkStep cs co content st) as [st'|r] eqn:Hstep.
  - destruct Hst as (Hpos & Hbelow & _).
    destruct (chunkStep_moves_forward st st' Hpos Hstep) as [_ Hfwd].
    rewrite chunkStep_unfold in Hstep.
    destruct (negb _); [done|]. destruct (_ <? _); [|done].
    injection Hstep as <-. cbn [position chunks] in *.
    unfold startsBelow. cbn [position chunks].
    split; [lia|]. split; [|done].
    unfold stepChunks. destruct (0 <? len _).
    + apply Forall_app. split.
      * eapply Forall_impl; [exact Hbelow|]. cbn. intros; lia.
      * apply Forall_singleton. cbn. lia.
    + eapply Forall_impl; [exact Hbelow|]. cbn. intros; lia.
  - rewrite chunkStep_unfold in Hstep.
    destruct (negb _); [injection Hstep as <-; apply Hst|].
    destruct (_ <? _); [done|]. by injection Hstep as <-.
Qed.

End Progress.

(** X4: when the overlap is smaller than the chunk size less its fifth
    (rounded down), the splitter returns after at most as many turns of its
    loop as the normalized text has characters, plus one, and the chunks
    returned are cut from spans whose start positions strictly increase. *)
Theorem chunkContent_returns_increasing (fuel : nat) (cs co : Z)
    (content : string) :
  0 < cs -> co < cs - cs / 5 ->
  len (normalize content) < Z.of_nat fuel ->
  exists result,
    chunkContentSpans fuel cs co content = Some result
    /\ chunkContent fuel cs co content = Some (chunk <$> result)
    /\ strictlyIncreasing (spanStart <$> result).
Proof.
  intros Hcs Hsmall Hfuel. unfold chunkContent, chunkContentSpans.
  destruct (len (normalize content) <=? cs).
  - eexists. split; [done|]. split; [done|].
    intros [|i] [|j] a b Hij Hi Hj; cbn in *; done || lia.
  - pose proof (len_nonneg (normalize content)).
    destruct (chunkLoop_returns cs co (normalize content) Hcs Hsmall fuel
                {| position := 0; chunkIndex := 0; chunks := [] |})
      as [result Hrun]; cbn [position]; [lia..|].
    exists result. rewrite Hrun. split; [done|]. split; [done|].
    eapply (chunkLoop_invariant cs co (normalize content)
              startsBelow (fun r => strictlyIncreasing (spanStart <$> r)));
      [apply (chunkStep_startsBelow cs co (normalize content) Hcs Hsmall)|
       |exact Hrun].
    split; [done|]. split; [constructor|]. by intros i j a b _ ?.
Qed.

Lemma chunkContent_returns_increasing_witness :
  exists result,
    chunkContent 501 100 10 ChunkerGuarantees.solidText = Some (chunk <$> result)
    /\ strictlyIncreasing (spanStart <$> result).
Proof.
  destruct (chunkContent_returns_increasing 501 100 10
              ChunkerGuarantees.solidText)
    as (result & _ & H1 & H2);
    [lia|vm_compute; reflexivity|vm_compute; reflexivity|].
  exists result. split; [exact H1|exact H2].
Defined.

End ChunkerProgress.

Module ChunkerCoverage.

Import Chunker ChunkerShape ChunkerLoop.

(** ** Slices that cannot be blank *)

Fixpoint allSpaces (s : string) : bool :=
  match s with
  | EmptyString => true
  | String c r => is_space c && allSpaces r
  end.

Lemma trim_nonempty (s : string) : allSpaces s = false -> 0 < len (trim s).
Proof.
  intros Hs. unfold trim.
  assert (exists c r, trimStart s = String c r /\ is_space c = false)
    as (c & r & -> & Hc).
  { induction s as [|c s IH]; [done|]. cbn [allSpaces trimStart] in *.
    destruct (is_space c) eqn:Hc; [by apply IH|]. by exists c, s. }
  rewrite trimEnd_cons. destruct (trimEnd r) as [|c' r']; rewrite ?Hc.
  - rewrite len_cons. change (len EmptyString) with 0. lia.
  - rewrite len_cons. pose proof (len_nonneg (String c' r')). lia.
Qed.

Lemma substring_length_exact (s : string) :
  forall n m,
    (n + m <= String.length s)%nat -> String.length (substring n m s) = m.
Proof.
  induction s as [|c s IH]; intros [|n] [|m] H; cbn in *; try lia.
  - by rewrite IH by lia.
  - apply IH. lia.
  - apply IH. lia.
Qed.

Lemma substring_whole (s : string) : substring 0 (String.length s) s = s.
Proof. induction s as [|c s IH]; cbn; [done|]. by rewrite IH. Qed.

Lemma singleSpaced_tail (b : bool) (c : ascii) (r : string) :
  singleSpaced b (String c r) = true -> singleSpaced (is_space c) r = true.
Proof.
  cbn [singleSpaced]. destruct (is_space c); [|done].
  by intros [_ ?]%andb_true_iff.
Qed.

(** Two characters or more of a single-spaced text are not all spaces. *)
Lemma single_spaced_slice (s : string) :
  forall b n m,
    singleSpaced b s = true ->
    (2 <= String.length (substring n m s))%nat ->
    allSpaces (substring n m s) = false.
Proof.
  induction s as [|c r IH]; intros b n m Hs Hlen.
  - destruct n, m; cbn in Hlen; lia.
  - destruct n as [|n].
    + destruct m as [|m]; [cbn in Hlen; lia|].
      cbn [substring allSpaces] in *. destruct (is_space c) eqn:Hc; [|done].
      apply singleSpaced_tail in Hs. rewrite Hc in Hs.
      destruct r as [|c2 r2]; [destruct m; cbn in Hlen; lia|].
      destruct m as [|m]; [cbn in Hlen; lia|].
      cbn [substring allSpaces]. cbn [singleSpaced] in Hs.
      destruct (is_space c2); [done|done].
    + cbn [substring] in *. apply (IH (is_space c)); [|done].
      by apply singleSpaced_tail in Hs.
Qed.

(** The end of a text that does not end with a space is not blank. *)
Lemma final_slice (s : string) :
  forall n m,
    endsWithSpace s = false ->
    (n < String.length s)%nat -> (String.length s <= n + m)%nat ->
    allSpaces (substring n m s) = false.
Proof.
  induction s as [|c r IH]; intros n m Hend Hn Hm; [cbn in Hn; lia|].
  destruct n as [|n].
  - destruct m as [|m]; [cbn in Hm; lia|]. cbn [substring allSpaces].
    destruct r as [|c2 r2].
    + cbn in Hend. by rewrite Hend.
    + rewrite (IH 0%nat m); [by rewrite andb_false_r|done|cbn; lia|].
      cbn [String.length] in *. lia.
  - cbn [substring]. destruct r as [|c2 r2]; [cbn in Hn; lia|].
    apply IH; [done|cbn [String.length] in *; lia..].
Qed.

Lemma slice_inside (s : string) (from to : Z) :
  0 <= from -> from <= to -> to <= len s ->
  slice s from to = substring (Z.to_nat from) (Z.to_nat (to - from)) s.
Proof.
  intros H1 H2 H3. unfold slice.
  destruct (Z.ltb_spec from 0); [lia|]. destruct (Z.ltb_spec to 0); [lia|].
  by rewrite !Z.min_l by lia.
Qed.

(** ** Chained spans *)

(** Each span starts inside the last [co] characters of the one before,
    or right at its end. *)
Definition chained (co : Z) (l : list Emitted) : Prop :=
  forall i e1 e2,
    l !! i = Some e1 -> l !! S i = Some e2 ->
    spanEnd e1 - co <= spanStart e2 <= spanEnd e1.

Lemma chained_snoc (co : Z) (l : list Emitted) (x : Emitted) :
  chained co l ->
  (forall e, last l = Some e -> spanEnd e - co <= spanStart x <= spanEnd e) ->
  chained co (l ++ [x]).
Proof.
  intros Hl Hx i e1 e2 H1 H2.
  pose proof (lookup_lt_Some _ _ _ H2) as Hlt.
  rewrite length_app in Hlt. cbn in Hlt.
  destruct (decide (S i < length l)%nat) as [Hin|Hout].
  - rewrite lookup_app_l in H1, H2 by lia. by apply (Hl i).
  - assert (S i = length l) as Hi by lia.
    rewrite Hi, list_lookup_middle in H2 by done. injection H2 as <-.
    rewrite lookup_app_l in H1 by lia. apply Hx.
    rewrite last_lookup. by replace (Nat.pred (length l)) with i by lia.
Qed.

(** What the chunk records: the span it was cut from, and its text. *)
Definition cutFrom (content : string) (e : Emitted) : Prop :=
  0 <= spanStart e /\ spanStart e < spanEnd e <= len content
  /\ text (chunk e) = trim (slice content (spanStart e) (spanEnd e)).

Section Coverage.

Variables (cs co : Z) (content : string).
Hypothesis cs_two : 2 <= cs.
Hypothesis co_nonneg : 0 <= co.
Hypothesis co_small : co < cs - cs / 5.
Hypothesis content_single : singleSpaced false content = true.
Hypothesis content_end : endsWithSpace content = false.

Lemma stepText_nonempty (st : LoopState) :
  0 <= position st < len content -> 0 < len (stepText cs content st).
Proof.
  intros Hp. destruct (stepEnd_bounds cs content st ltac:(lia) Hp)
    as (He & Hlen & Hfar).
  unfold stepText. rewrite slice_inside by lia. apply trim_nonempty.
  destruct (Z.ltb_spec (stepEnd cs content st) (len content)) as [Hlt|Hge].
  - specialize (Hfar Hlt). apply (single_spaced_slice _ false); [done|].
    unfold len in *. rewrite substring_length_exact by lia.
    pose proof (Z.div_mod cs 5 ltac:(lia)).
    pose proof (Z.mod_pos_bound cs 5 ltac:(lia)). lia.
  - unfold len in *. apply final_slice; [done|lia..].
Qed.

Definition covering (st : LoopState) : Prop :=
  0 <= position st < len content
  /\ (chunks st = [] -> position st = 0)
  /\ (forall e, last (chunks st) = Some e ->
                spanEnd e - co <= position st <= spanEnd e)
  /\ (forall e, chunks st !! 0%nat = Some e -> spanStart e = 0)
  /\ chained co (chunks st)
  /\ Forall (cutFrom content) (chunks st).

Definition covered (result : list Emitted) : Prop :=
  (exists e, result !! 0%nat = Some e /\ spanStart e = 0)
  /\ (exists e, last result = Some e /\ spanEnd e = len content)
  /\ chained co result
  /\ Forall (cutFrom content) result.

Lemma chunkStep_covering (st : LoopState) :
  covering st ->
  match chunkStep cs co content st with
  | inl st' => covering st'
  | inr result => covered result
  end.
Proof.
  intros (Hp & Hfirst & Hlast & Hhead & Hchain & Hcut).
  rewrite chunkStep_unfold.
  destruct (Z.ltb_spec (position st) (len content)); cbn [negb]; [|lia].
  destruct (stepEnd_bounds cs content st ltac:(lia) Hp) as (He & Hlen & Hfar).
  pose proof (stepText_nonempty st Hp) as Htext.
  set (x := {| chunk := {| text := stepText cs content st;
                           index := chunkIndex st |};
               spanStart := position st;
               spanEnd := stepEnd cs content st |}).
  assert (stepChunks cs content st = chunks st ++ [x]) as Hnew.
  { unfold stepChunks. by destruct (Z.ltb_spec 0 (len (stepText cs content st)));
      [|lia]. }
  assert (chained co (chunks st ++ [x])) as Hchain'
    by (apply chained_snoc; [done|]; intros e Hl; cbn; by apply Hlast).
  assert (Forall (cutFrom content) (chunks st ++ [x])) as Hcut'.
  { apply Forall_app. split; [done|]. apply Forall_singleton.
    unfold cutFrom. cbn. repeat split; lia || done. }
  assert (forall e, (chunks st ++ [x]) !! 0%nat = Some e -> spanStart e = 0)
    as Hhead'.
  { intros e. destruct (chunks st) as [|e0 l] eqn:Hl.
    - cbn. intros [= <-]. cbn. by apply Hfirst.
    - cbn. intros [= <-]. by apply Hhead. }
  rewrite Hnew.
  destruct (Z.ltb_spec (stepEnd cs content st) (len content)) as [Hlt|Hge].
  - unfold covering. cbn [position chunks].
    assert (stepEnd cs content st - co <= stepPosition cs co content st
            <= stepEnd cs content st) as Hpos'.
    { unfold stepPosition. rewrite Hnew, last_snoc. cbn.
      destruct (_ <=? _); lia. }
    specialize (Hfar Hlt).
    split; [lia|]. split; [by destruct (chunks st)|].
    split; [|done]. intros e. rewrite last_snoc. by intros [= <-].
  - split; [|split; [|done]].
    + destruct (chunks st) as [|e0 l] eqn:Hl.
      * exists x. split; [done|]. cbn. by apply Hfirst.
      * exists e0. split; [done|]. by apply Hhead.
    + exists x. rewrite last_snoc. split; [done|]. cbn. lia.
Qed.

End Coverage.

(** X5: when the chunk size is at least two and the overlap is not
    negative and smaller than the chunk size less its fifth, the chunks
    returned cover the normalized text from its first character to its
    last: the first span starts at 0, the last one ends at the end of the
    text, each next span starts at the end of the one before or at most
    [overlap] characters earlier, no chunk is skipped, and the text of each
    chunk is its span with the white space at both ends removed. *)
Theorem chunks_cover_text (fuel : nat) (cs co : Z) (content : string)
    (result : list Emitted) :
  2 <= cs -> 0 <= co -> co < cs - cs / 5 ->
  normalize content <> EmptyString ->
  chunkContentSpans fuel cs co content = Some result ->
  (exists e, result !! 0%nat = Some e /\ spanStart e = 0)
  /\ (exists e, last result = Some e /\ spanEnd e = len (normalize content))
  /\ chained co result
  /\ Forall (cutFrom (normalize content)) result.
Proof.
  intros Hcs Hco Hsmall Hne. unfold chunkContentSpans.
  destruct (normalize_shape content) as (Hsingle & Hstart & Hend & _).
  assert (0 < len (normalize content)) as Hlen.
  { destruct (normalize content); [done|]. rewrite len_cons.
    pose proof (len_nonneg s). lia. }
  destruct (len (normalize content) <=? cs).
  - intros [= <-]. split; [by eexists|]. split; [by eexists|].
    split; [by intros [|i] e1 e2 ??|].
    apply Forall_singleton. unfold cutFrom. cbn.
    split; [done|]. split; [lia|].
    rewrite slice_inside by lia. unfold len, trim.
    rewrite Z.sub_0_r, Nat2Z.id. cbn [Z.to_nat]. rewrite substring_whole.
    by rewrite trimStart_id, trimEnd_id.
  - intros Hrun.
    eapply (chunkLoop_invariant cs co (normalize content)
              (covering co (normalize content)) (covered co (normalize content)));
      [apply (chunkStep_covering cs co (normalize content)
                Hcs Hco Hsmall Hsingle Hend)| |exact Hrun].
    unfold covering. cbn. repeat split; try done; try lia.
Qed.

Lemma chunks_cover_text_witness :
  exists result,
    chunkContentSpans 10 100 10 ChunkerGuarantees.solidText = Some result
    /\ chained 10 result
    /\ exists e, last result = Some e /\ spanEnd e = 500.
Proof.
  assert (exists r, chunkContentSpans 10 100 10 ChunkerGuarantees.solidText
                    = Some r) as (r & Hr)
    by (eexists; vm_compute; reflexivity).
  destruct (chunks_cover_text 10 100 10 ChunkerGuarantees.solidText r)
    as (_ & Hlast & Hchain & _);
    [lia|lia|vm_compute; reflexivity|vm_compute; discriminate|exact Hr|].
  exists r. split; [exact Hr|]. split; [exact Hchain|].
  destruct Hlast as (e & He1 & He2). exists e. split; [exact He1|].
  rewrite He2. vm_compute. reflexivity.
Defined.

End ChunkerCoverage.

(* ===================================================================== *)
(** * Properties of the chunk statistics and of the content hash          *)
(* ===================================================================== *)

Module StatsFacts.

Import Chunker Stats.

(** ** [getChunkStats] *)

Lemma minOf_le (x : Z) (l : list Z) :
  minOf x l <= x /\ Forall (fun y => minOf x l <= y) l.
Proof.
  unfold minOf. induction l as [|y l [IH1 IH2]]; cbn; [by split|].
  split; [lia|]. constructor; [lia|].
  eapply Forall_impl; [exact IH2|]. cbn. intros; lia.
Qed.

Lemma maxOf_ge (x : Z) (l : list Z) :
  x <= maxOf x l /\ Forall (fun y => y <= maxOf x l) l.
Proof.
  unfold maxOf. induction l as [|y l [IH1 IH2]]; cbn; [by split|].
  split; [lia|]. constructor; [lia|].
  eapply Forall_impl; [exact IH2|]. cbn. intros; lia.
Qed.

Lemma minOf_attained (x : Z) (l : list Z) : minOf x l ∈ x :: l.
Proof.
  unfold minOf. induction l as [|y l IH]; cbn; [by left|].
  destruct (Z.min_spec y (foldr Z.min x l)) as [[_ ->]|[_ ->]].
  - right. by left.
  - apply elem_of_cons in IH as [->|IH]; [by left|]. right. by right.
Qed.

Lemma maxOf_attained (x : Z) (l : list Z) : maxOf x l ∈ x :: l.
Proof.
  unfold maxOf. induction l as [|y l IH]; cbn; [by left|].
  destruct (Z.max_spec y (foldr Z.max x l)) as [[_ ->]|[_ ->]].
  - apply elem_of_cons in IH as [->|IH]; [by left|]. right. by right.
  - right. by left.
Qed.

Lemma foldl_add_bounds (lo hi : Z) (l : list Z) :
  Forall (fun y => lo <= y <= hi) l ->
  forall acc,
    acc + lo * Z.of_nat (length l) <= foldl Z.add acc l
    <= acc + hi * Z.of_nat (length l).
Proof.
  induction 1 as [|y l Hy Hl IH]; intros acc; cbn [foldl length]; [lia|].
  specialize (IH (acc + y)). lia.
Qed.

Lemma round_between (lo hi : Z) (x : Q) :
  (inject_Z lo <= x)%Q -> (x <= inject_Z hi)%Q -> lo <= round x <= hi.
Proof.
  intros Hlo Hhi. unfold round.
  pose proof (Qfloor_le (x + (1 # 2))) as H1.
  pose proof (Qlt_floor (x + (1 # 2))) as H2.
  rewrite inject_Z_plus in H2. change (inject_Z 1) with 1%Q in H2.
  split.
  - apply Z.lt_succ_r. rewrite Zlt_Qlt. unfold Z.succ.
    rewrite inject_Z_plus. change (inject_Z 1) with 1%Q. lra.
  - apply Z.lt_succ_r. rewrite Zlt_Qlt. unfold Z.succ.
    rewrite inject_Z_plus. change (inject_Z 1) with 1%Q. lra.
Qed.

(** X6: for a list of chunks that is not empty, the statistics count the
    chunks, the minimum and the maximum are lengths of chunks of the list
    and bound the length of every chunk, and the rounded average lies
    between them. *)
Theorem chunk_stats_consistent (chunks : list Chunk) :
  chunks <> [] ->
  let stats := getChunkStats chunks in
  count stats = Z.of_nat (length chunks)
  /\ minLength stats <= avgLength stats <= maxLength stats
  /\ Forall (fun c => minLength stats <= len (text c) <= maxLength stats) chunks
  /\ (exists c, c ∈ chunks /\ len (text c) = minLength stats)
  /\ (exists c, c ∈ chunks /\ len (text c) = maxLength stats).
Proof.
  intros Hne. unfold getChunkStats.
  destruct chunks as [|c0 rest]; [done|]. clear Hne.
  cbn [fmap list_fmap]. cbn zeta.
  set (x := len (text c0)). set (l := (fun c => len (text c)) <$> rest).
  cbn [count avgLength minLength maxLength].
  destruct (minOf_le x l) as [Hmin0 Hmin]. destruct (maxOf_ge x l) as [Hmax0 Hmax].
  assert (Forall (fun y => minOf x l <= y <= maxOf x l) (x :: l)) as Hall.
  { constructor; [lia|]. rewrite Forall_forall in Hmin, Hmax.
    apply Forall_forall. intros y Hy. split; auto. }
  split; [done|]. split; [|split; [|split]].
  - pose proof (foldl_add_bounds _ _ _ Hall 0) as Hsum.
    replace (length (x :: l)) with (length (c0 :: rest)) in Hsum
      by (unfold l; cbn; by rewrite length_fmap).
    set (n := Z.of_nat (length (c0 :: rest))) in *.
    assert (0 < n) as Hn by (unfold n; cbn [length]; lia).
    assert (0 < inject_Z n)%Q as HnQ
      by (change 0%Q with (inject_Z 0); by rewrite <- Zlt_Qlt).
    apply round_between.
    + apply Qle_shift_div_l; [done|]. rewrite <- inject_Z_mult, <- Zle_Qle. lia.
    + apply Qle_shift_div_r; [done|]. rewrite <- inject_Z_mult, <- Zle_Qle. lia.
  - change (Forall (fun c => minOf x l <= len (text c) <= maxOf x l)
              (c0 :: rest)).
    apply (Forall_fmap (fun c => len (text c))
             (fun y => minOf x l <= y <= maxOf x l)). exact Hall.
  - pose proof (minOf_attained x l) as Hin.
    change (x :: l) with ((fun c => len (text c)) <$> c0 :: rest) in Hin.
    apply list_elem_of_fmap in Hin as (c & Hc & Hin). by exists c.
  - pose proof (maxOf_attained x l) as Hin.
    change (x :: l) with ((fun c => len (text c)) <$> c0 :: rest) in Hin.
    apply list_elem_of_fmap in Hin as (c & Hc & Hin). by exists c.
Qed.

Lemma chunk_stats_consistent_witness :
  let stats := getChunkStats [{| text := "abc"; index := 0 |};
                              {| text := "abcdef"; index := 1 |}] in
  minLength stats <= avgLength stats <= maxLength stats.
Proof.
  apply (chunk_stats_consistent [{| text := "abc"; index := 0 |};
                                 {| text := "abcdef"; index := 1 |}]).
  discriminate.
Defined.

End StatsFacts.

Module ContentHashFacts.

Import Stats.

(** The hash of Java's [String.hashCode], before any wrap-around:
    [h <- 31 * h + c] over the code units. *)
Fixpoint polyFrom (h : Z) (content : string) : Z :=
  match content with
  | EmptyString => h
  | String c rest => polyFrom (31 * h + Z.of_nat (nat_of_ascii c)) rest
  end.

(** Reading a base 36 numeral back. *)
Definition value36 (c : ascii) : N :=
  let n := N_of_ascii c in
  if (n <? 58)%N then n - 48 else n - 87.

Fixpoint parse36_acc (acc : N) (s : string) : N :=
  match s with
  | EmptyString => acc
  | String c rest => parse36_acc (36 * acc + value36 c)%N rest
  end.

Definition parse36 (s : string) : N := parse36_acc 0 s.

Definition isDigit36 (c : ascii) : bool :=
  let n := N_of_ascii c in
  ((48 <=? n) && (n <=? 57) || (97 <=? n) && (n <=? 122))%N.

Fixpoint allDigits36 (s : string) : bool :=
  match s with
  | EmptyString => true
  | String c rest => isDigit36 c && allDigits36 rest
  end.

Lemma toInt32_range (z : Z) : - 2 ^ 31 <= toInt32 z < 2 ^ 31.
Proof.
  unfold toInt32.
  pose proof (Z.mod_pos_bound (z + 2 ^ 31) (2 ^ 32) ltac:(lia)). lia.
Qed.

Lemma toInt32_shift (z : Z) :
  toInt32 z = z - 2 ^ 32 * ((z + 2 ^ 31) / 2 ^ 32).
Proof.
  unfold toInt32.
  pose proof (Z.div_mod (z + 2 ^ 31) (2 ^ 32) ltac:(lia)). lia.
Qed.

Lemma toInt32_periodic (z k : Z) : toInt32 (z + 2 ^ 32 * k) = toInt32 z.
Proof.
  unfold toInt32.
  replace (z + 2 ^ 32 * k + 2 ^ 31) with (z + 2 ^ 31 + k * 2 ^ 32) by lia.
  by rewrite Z_mod_plus_full.
Qed.

Lemma toInt32_small (z : Z) : - 2 ^ 31 <= z < 2 ^ 31 -> toInt32 z = z.
Proof.
  intros Hz. unfold toInt32. rewrite Z.mod_small; lia.
Qed.

Lemma hashStep_poly (u : Z) (c : ascii) :
  hashStep (toInt32 u) c = toInt32 (31 * u + Z.of_nat (nat_of_ascii c)).
Proof.
  unfold hashStep.
  rewrite (toInt32_shift (toInt32 u * 2 ^ 5)), (toInt32_shift u).
  set (k1 := (u + 2 ^ 31) / 2 ^ 32).
  set (k2 := ((u - 2 ^ 32 * k1) * 2 ^ 5 + 2 ^ 31) / 2 ^ 32).
  replace ((u - 2 ^ 32 * k1) * 2 ^ 5 - 2 ^ 32 * k2 - (u - 2 ^ 32 * k1)
           + Z.of_nat (nat_of_ascii c))
    with (31 * u + Z.of_nat (nat_of_ascii c) + 2 ^ 32 * (- 31 * k1 - k2))
    by lia.
  apply toInt32_periodic.
Qed.

Lemma hashLoop_poly (content : string) (u : Z) :
  hashLoop (toInt32 u) content = toInt32 (polyFrom u content).
Proof.
  revert u. induction content as [|c rest IH]; intros u; [done|].
  cbn [hashLoop polyFrom]. by rewrite hashStep_poly, IH.
Qed.

Lemma value36_digit36 (d : N) : (d < 36)%N -> value36 (digit36 d) = d.
Proof.
  intros Hd. unfold value36, digit36.
  destruct (d <? 10)%N eqn:E.
  - apply N.ltb_lt in E. rewrite N_ascii_embedding by lia.
    assert ((48 + d <? 58)%N = true) as -> by (apply N.ltb_lt; lia). lia.
  - apply N.ltb_ge in E. rewrite N_ascii_embedding by lia.
    assert ((87 + d <? 58)%N = false) as -> by (apply N.ltb_ge; lia). lia.
Qed.

Lemma isDigit36_digit36 (d : N) : (d < 36)%N -> isDigit36 (digit36 d) = true.
Proof.
  intros Hd. unfold isDigit36, digit36.
  destruct (d <? 10)%N eqn:E.
  - apply N.ltb_lt in E. rewrite N_ascii_embedding by lia.
    apply orb_true_iff. left. apply andb_true_iff.
    split; apply N.leb_le; lia.
  - apply N.ltb_ge in E. rewrite N_ascii_embedding by lia.
    apply orb_true_iff. right. apply andb_true_iff.
    split; apply N.leb_le; lia.
Qed.

Lemma append_cons (c : ascii) (s t : string) :
  String c s +:+ t = String c (s +:+ t).
Proof. reflexivity. Qed.

Lemma append_assoc (s t u : string) : (s +:+ t) +:+ u = s +:+ (t +:+ u).
Proof.
  induction s as [|c s IH]; [reflexivity|].
  by rewrite !append_cons, IH.
Qed.

Lemma toString36_acc_app (fuel : nat) (n : N) (acc : string) :
  toString36_acc fuel n acc = toString36_acc fuel n EmptyString +:+ acc.
Proof.
  revert n acc. induction fuel as [|fuel IH]; intros n acc; [reflexivity|].
  cbn [toString36_acc]. cbv zeta.
  destruct (n / 36 =? 0)%N; [reflexivity|].
  rewrite (IH _ (String _ acc)), (IH _ (String _ EmptyString)).
  by rewrite append_assoc.
Qed.

Lemma parse36_acc_app (s t : string) (a : N) :
  parse36_acc a (s +:+ t) = parse36_acc (parse36_acc a s) t.
Proof.
  revert a. induction s as [|c s IH]; intros a; [reflexivity|].
  rewrite append_cons. cbn [parse36_acc]. apply IH.
Qed.

Lemma allDigits36_app (s t : string) :
  allDigits36 (s +:+ t) = allDigits36 s && allDigits36 t.
Proof.
  induction s as [|c s IH]; [reflexivity|].
  rewrite append_cons. cbn [allDigits36]. by rewrite IH, andb_assoc.
Qed.

Lemma toString36_acc_digits (fuel : nat) (n : N) (acc : string) :
  allDigits36 acc = true -> allDigits36 (toString36_acc fuel n acc) = true.
Proof.
  revert n acc. induction fuel as [|fuel IH]; intros n acc Hacc; [done|].
  cbn [toString36_acc]. cbv zeta.
  assert (allDigits36 (String (digit36 (n mod 36)) acc) = true) as Hd.
  { cbn [allDigits36]. rewrite Hacc, isDigit36_digit36; [done|].
    apply N.mod_lt. lia. }
  destruct (n / 36 =? 0)%N; [done|]. by apply IH.
Qed.

Lemma toString36_acc_nonempty (fuel : nat) (n : N) (acc : string) :
  toString36_acc (S fuel) n acc <> EmptyString.
Proof.
  rewrite toString36_acc_app. cbn [toString36_acc]. cbv zeta.
  destruct (n / 36 =? 0)%N; [done|].
  rewrite toString36_acc_app, append_assoc.
  destruct (toString36_acc fuel (n / 36) EmptyString); done.
Qed.

Lemma parse36_toString36_acc (fuel : nat) (n : N) :
  (n < 36 ^ N.of_nat fuel)%N ->
  parse36 (toString36_acc fuel n EmptyString) = n.
Proof.
  unfold parse36. revert n. induction fuel as [|fuel IH]; intros n Hn.
  { cbn in Hn. cbn. lia. }
  cbn [toString36_acc]. cbv zeta.
  pose proof (N.div_mod n 36 ltac:(lia)) as Hdm.
  pose proof (N.mod_lt n 36 ltac:(lia)) as Hm.
  destruct (n / 36 =? 0)%N eqn:E.
  - apply N.eqb_eq in E. cbn [parse36_acc].
    rewrite value36_digit36 by done. lia.
  - apply N.eqb_neq in E.
    rewrite toString36_acc_app, parse36_acc_app, IH; cycle 1.
    { rewrite Nat2N.inj_succ, N.pow_succ_r' in Hn.
      apply N.Div0.div_lt_upper_bound. lia. }
    cbn [parse36_acc]. rewrite value36_digit36 by done. lia.
Qed.

Lemma parse36_toString36 (n : N) : parse36 (toString36 n) = n.
Proof.
  unfold toString36. apply parse36_toString36_acc.
  rewrite Nat2N.inj_succ, N2Nat.id.
  destruct (N.eq_dec n 0%N) as [->|Hn]; [done|].
  pose proof (N.log2_spec n ltac:(lia)) as [_ Hlt].
  eapply N.lt_le_trans; [exact Hlt|].
  apply N.pow_le_mono_l. lia.
Qed.

(** X7: the content hash is the base 36 numeral, written with the digits
    0-9 and a-z and never empty, of the absolute value of Java's string
    hash [sum c_i * 31^(n-1-i)] wrapped to a signed 32-bit integer; so it
    denotes a number of at most 2^31. *)
Theorem content_hash_is_wrapped_polynomial (content : string) :
  let h := toInt32 (polyFrom 0 content) in
  hashLoop 0 content = h
  /\ createContentHash content <> EmptyString
  /\ allDigits36 (createContentHash content) = true
  /\ Z.of_N (parse36 (createContentHash content)) = Z.abs h
  /\ Z.of_N (parse36 (createContentHash content)) <= 2 ^ 31.
Proof.
  cbv zeta.
  assert (hashLoop 0 content = toInt32 (polyFrom 0 content)) as Hh.
  { rewrite <- hashLoop_poly. by rewrite (toInt32_small 0). }
  pose proof (toInt32_range (polyFrom 0 content)) as Hr.
  split; [done|].
  destruct content as [|c rest].
  { cbn. repeat split; done. }
  unfold createContentHash. rewrite Hh.
  set (h := toInt32 _) in *.
  split; [apply toString36_acc_nonempty|].
  split; [by apply toString36_acc_digits|].
  rewrite parse36_toString36, Z2N.id by lia. lia.
Qed.

(** X8: two contents get the same hash exactly when their wrapped
    polynomial hashes agree up to sign: the hash forgets the sign of the
    32-bit value and nothing else. *)
Theorem content_hash_collisions (c1 c2 : string) :
  createContentHash c1 = createContentHash c2
  <-> Z.abs (toInt32 (polyFrom 0 c1)) = Z.abs (toInt32 (polyFrom 0 c2)).
Proof.
  assert (forall c, createContentHash c
                    = toString36 (Z.to_N (Z.abs (toInt32 (polyFrom 0 c)))))
    as Hform.
  { intros c. destruct c as [|a rest]; [reflexivity|].
    unfold createContentHash.
    by rewrite <- (hashLoop_poly _ 0), (toInt32_small 0). }
  rewrite !Hform. split.
  - intros Heq. apply (f_equal parse36) in Heq.
    rewrite !parse36_toString36 in Heq. lia.
  - by intros ->.
Qed.

End ContentHashFacts.

(* ===================================================================== *)
(** * Further properties of the rate limiter                              *)
(* ===================================================================== *)

Module RateLimiterThroughput.

Import Utils.

Local Open Scope Q_scope.

(** The turns [(now, tokensNeeded)] taken one after the other: the limiter
    at the end and the number of tokens handed out. *)
Fixpoint takeTurns (rl : RateLimiter) (turns : list (Z * Q))
    : RateLimiter * Q :=
  match turns with
  | [] => (rl, 0)
  | (now, n) :: rest =>
      let '(rl1, granted) := acquireTurn now n rl in
      let '(rl2, total) := takeTurns rl1 rest in
      (rl2, (if granted then n else 0) + total)
  end.


Lemma elapsed_split (a b c : Z) :
  inject_Z (c - a) == inject_Z (c - b) + inject_Z (b - a).
Proof. rewrite <- inject_Z_plus. by replace (c - a)%Z with (c - b + (b - a))%Z by lia. Qed.

Lemma acquireTurn_refused (now : Z) (n : Q) (rl : RateLimiter) :
  capacity rl < n -> acquireTurn now n rl = (refill now rl, false).
Proof.
  intros Hn. unfold acquireTurn.
  destruct (Qle_bool n (tokens (refill now rl))) eqn:E; [|done].
  apply Qle_bool_iff in E.
  pose proof (RateLimiterFacts.refill_le_capacity now rl). lra.
Qed.

(** X9: a call of [acquire(n)] asking for more tokens than the capacity
    never returns, whatever the clock reads and however long it waits. *)
Theorem acquire_beyond_capacity_never_returns (n : Q) (readings : list Z)
    (rl : RateLimiter) :
  capacity rl < n -> (acquire n readings rl).2 = None.
Proof.
  revert rl. induction readings as [|now rest IH]; intros rl Hn; [done|].
  cbn [acquire]. rewrite acquireTurn_refused by done. by apply IH.
Qed.

Lemma acquire_beyond_capacity_never_returns_witness :
  (acquire 1 [0; 100; 200; 100000]%Z (newRateLimiter 0 (1 # 2) None)).2 = None.
Proof.
  apply acquire_beyond_capacity_never_returns. cbn. lra.
Defined.




Lemma acquireTurn_conserves (now : Z) (n : Q) (rl : RateLimiter) :
  (if (acquireTurn now n rl).2 then n else 0) + tokens (acquireTurn now n rl).1
  == tokens (refill now rl).
Proof.
  unfold acquireTurn. set (rl1 := refill now rl).
  destruct (Qle_bool n (tokens rl1)); cbn [fst snd tokens]; ring.
Qed.

Lemma takeTurns_budget (turns : list (Z * Q)) :
  forall rl : RateLimiter,
    (takeTurns rl turns).2 + tokens (takeTurns rl turns).1
    <= tokens rl
       + inject_Z (lastRefill (takeTurns rl turns).1 - lastRefill rl) / 1000
         * refillRate rl
    /\ refillRate (takeTurns rl turns).1 = refillRate rl
    /\ capacity (takeTurns rl turns).1 = capacity rl.
Proof.
  induction turns as [|[now n] turns IH]; intros rl.
  { cbn [takeTurns fst snd]. rewrite Z.sub_diag.
    split; [|done].
    assert (inject_Z 0 / 1000 * refillRate rl == 0) as ->
      by (change (inject_Z 0) with 0; field).
    lra. }
  cbn [takeTurns].
  destruct (RateLimiterFacts.acquireTurn_frame now n rl) as (Hl & Hc & Hr).
  pose proof (acquireTurn_conserves now n rl) as Hgrant.
  destruct (acquireTurn now n rl) as [rl1 granted].
  cbn [fst snd] in Hl, Hc, Hr, Hgrant.
  destruct (IH rl1) as (Hb & Hr2 & Hc2).
  destruct (takeTurns rl1 turns) as [rl2 total]. cbn [fst snd] in *.
  split; [|split; congruence].
  rewrite Hl, Hr in Hb.
  rewrite (elapsed_split (lastRefill rl) now (lastRefill rl2)).
  set (a := inject_Z (lastRefill rl2 - now)) in *.
  set (b := inject_Z (now - lastRefill rl)) in *.
  set (r := refillRate rl) in *.
  assert ((a + b) / 1000 * r == a / 1000 * r + b / 1000 * r) as -> by field.
  assert (tokens (refill now rl) <= tokens rl + b / 1000 * r) as Hrefill
    by (cbn [refill tokens]; apply Q.le_min_r).
  lra.
Qed.

(** X11: the limiter limits.  For a limiter whose token count lies in
    [0, capacity] and a clock that never goes back, the tokens handed out
    over any sequence of turns asking for at least one token each are at
    most the capacity plus the refill rate times the seconds elapsed
    between the first refill and the last. *)
Theorem granted_within_budget (rl : RateLimiter) (turns : list (Z * Q)) :
  0 <= capacity rl -> 0 <= refillRate rl -> RateLimiterFacts.bounded rl ->
  RateLimiterFacts.nondecreasing (lastRefill rl) (turns.*1) ->
  Forall (fun turn => 1 <= turn.2) turns ->
  (takeTurns rl turns).2
  <= capacity rl
     + inject_Z (lastRefill (takeTurns rl turns).1 - lastRefill rl) / 1000
       * refillRate rl.
Proof.
  intros Hcap Hrate Hb Hclock Hn.
  destruct (takeTurns_budget turns rl) as (Hbudget & _ & _).
  assert (RateLimiterFacts.bounded (takeTurns rl turns).1) as [Hlo _].
  { clear Hbudget. revert rl Hcap Hrate Hb Hclock.
    induction Hn as [|[now n] turns Hn1 Hn IH];
      intros rl Hcap Hrate Hb Hclock; [done|].
    cbn in Hclock. destruct Hclock as [Hnow Hclock]. cbn in Hn1.
    cbn [takeTurns].
    pose proof (RateLimiterFacts.acquireTurn_bounded now n rl Hn1
                  (RateLimiterFacts.refill_bounded now rl Hcap Hrate Hnow Hb))
      as Ha.
    destruct (RateLimiterFacts.acquireTurn_frame now n rl) as (Hl & Hc & Hr).
    destruct (acquireTurn now n rl) as [rl1 granted]. cbn [fst] in *.
    specialize (IH rl1). destruct (takeTurns rl1 turns) as [rl2 total].
    cbn [fst] in *.
    apply IH; [by rewrite Hc|by rewrite Hr|done|by rewrite Hl]. }
  destruct Hb as [_ Hhi]. lra.
Qed.

Lemma granted_within_budget_witness :
  (takeTurns (newRateLimiter 1000 50 None)
     [(1000%Z, 30); (1010%Z, 30); (1500%Z, 30); (2500%Z, 2)]).2
  <= 50 + inject_Z (2500 - 1000) / 1000 * 50.
Proof.
  apply (granted_within_budget (newRateLimiter 1000 50 None)
           [(1000%Z, 30); (1010%Z, 30); (1500%Z, 30); (2500%Z, 2)]).
  - cbn. lra.
  - cbn. lra.
  - split; cbn; lra.
  - cbn. lia.
  - repeat (apply Forall_cons; split; [cbn; lra|]). apply Forall_nil_2.
Defined.

End RateLimiterThroughput.

(* ===================================================================== *)
(** * Further properties of the circuit breaker                           *)
(* ===================================================================== *)

Module CircuitBreakerCounting.

Import Js Utils.

(** The number of rejected outcomes. *)
Fixpoint rejected {T : Type} (outcomes : list (Settled T)) : Z :=
  match outcomes with
  | [] => 0
  | Fulfilled _ :: rest => rejected rest
  | Rejected _ :: rest => 1 + rejected rest
  end.

Lemma rejected_nonneg {T : Type} (outcomes : list (Settled T)) :
  0 <= rejected outcomes.
Proof. induction outcomes as [|[r|e] rest IH]; cbn [rejected]; lia. Qed.

Section Counting.

Context {World : Type}.
Variable now : World -> Z.

Lemma execute_closed {T : Type} (fn : World -> World * Settled T)
    (cb : CircuitBreaker) (w : World) :
  state cb = closed ->
  (exists w1 r, fn w = (w1, Fulfilled r)
                /\ execute now fn cb w = (cb, w1, Fulfilled r))
  \/ (exists w1 e, fn w = (w1, Rejected e)
                   /\ execute now fn cb w = (onFailure (now w1) cb, w1, Rejected e)).
Proof.
  intros Hs. unfold execute, enter. rewrite Hs.
  destruct (fn w) as [w1 [r|e]]; [left|right]; eexists _, _; split; try done.
  unfold onSuccess. by rewrite Hs.
Qed.

Lemma executeAll_counts {T : Type}
    (fns : list (World -> World * Settled T)) :
  forall (cb : CircuitBreaker) (w : World),
    state cb = closed ->
    failureCount cb + rejected (executeAll now fns cb w).2
    < failureThreshold cb ->
    state (executeAll now fns cb w).1.1 = closed
    /\ failureCount (executeAll now fns cb w).1.1
       = failureCount cb + rejected (executeAll now fns cb w).2
    /\ failureThreshold (executeAll now fns cb w).1.1 = failureThreshold cb.
Proof.
  induction fns as [|fn fns IH]; intros cb w Hs Hlt.
  { cbn. repeat split; [done|lia]. }
  cbn [executeAll] in *.
  destruct (execute_closed fn cb w Hs)
    as [(w1 & r & Hfn & He)|(w1 & e & Hfn & He)]; rewrite He in *; clear He.
  - specialize (IH cb w1 Hs).
    destruct (executeAll now fns cb w1) as [[cb2 w2] rs].
    cbn [fst snd rejected] in *. by apply IH.
  - specialize (IH (onFailure (now w1) cb) w1).
    destruct (executeAll now fns (onFailure (now w1) cb) w1)
      as [[cb2 w2] rs].
    cbn [fst snd rejected] in *.
    pose proof (rejected_nonneg rs) as Hrs.
    assert (onFailure (now w1) cb
            = {| failureCount := failureCount cb + 1;
                 lastFailureTime := now w1; state := closed;
                 failureThreshold := failureThreshold cb;
                 resetTimeout := resetTimeout cb |}) as Hf.
    { unfold onFailure. cbn [failureThreshold failureCount].
      destruct (Z.leb_spec (failureThreshold cb) (failureCount cb + 1));
        [lia|by rewrite Hs]. }
    rewrite Hf in IH. cbn [state failureCount failureThreshold] in IH.
    destruct (IH eq_refl ltac:(lia)) as (H1 & H2 & H3).
    split; [done|]. split; [lia|done].
Qed.

(** X12: failures need not be consecutive.  For calls made one after the
    other on a closed breaker, as long as the failures counted so far stay
    below the threshold the breaker stays closed and its counter is the
    number of rejected calls, successes in between resetting nothing; and
    the failing call that brings the count to the threshold opens the
    breaker. *)
Theorem failures_accumulate_across_successes {T : Type}
    (fns : list (World -> World * Settled T)) (cb : CircuitBreaker)
    (w : World) :
  state cb = closed ->
  failureCount cb + rejected (executeAll now fns cb w).2
  < failureThreshold cb ->
  let cb' := (executeAll now fns cb w).1.1 in
  let w' := (executeAll now fns cb w).1.2 in
  state cb' = closed
  /\ failureCount cb'
     = failureCount cb + rejected (executeAll now fns cb w).2
  /\ forall (fn : World -> World * Settled T) (w'' : World) (e : Error),
       fn w' = (w'', Rejected e) ->
       failureCount cb' + 1 = failureThreshold cb ->
       state (execute now fn cb' w').1.1 = open.
Proof.
  intros Hs Hlt. cbv zeta.
  destruct (executeAll_counts fns cb w Hs Hlt) as (H1 & H2 & H3).
  split; [done|]. split; [done|]. intros fn w'' e Hfn Hcount.
  destruct (execute_closed fn _ (executeAll now fns cb w).1.2 H1)
    as [(w1 & r & Hfn' & _)|(w1 & e1 & Hfn' & ->)]; [congruence|].
  cbn [fst]. unfold onFailure. cbn [failureThreshold failureCount].
  rewrite H3.
  by destruct (Z.leb_spec (failureThreshold cb)
                 (failureCount (executeAll now fns cb w).1.1 + 1)); [|lia].
Qed.

End Counting.

(** A world that is only a clock. *)
Definition succeedsAfter (ms : Z) (t : Z) : Z * Settled unit :=
  (t + ms, Fulfilled tt).

Lemma failures_accumulate_across_successes_witness :
  let run := executeAll id
               [CircuitBreakerFacts.failsAfter 1; succeedsAfter 1;
                CircuitBreakerFacts.failsAfter 1; succeedsAfter 1]
               (newCircuitBreaker 3 60000) 0 in
  state run.1.1 = closed
  /\ failureCount run.1.1 = 2
  /\ state (execute id (CircuitBreakerFacts.failsAfter 1) run.1.1 run.1.2).1.1
     = open.
Proof.
  cbv zeta.
  destruct (failures_accumulate_across_successes id
              [CircuitBreakerFacts.failsAfter 1; succeedsAfter 1;
               CircuitBreakerFacts.failsAfter 1; succeedsAfter 1]
              (newCircuitBreaker 3 60000) 0 eq_refl)
    as (H1 & H2 & H3).
  - vm_compute. reflexivity.
  - split; [exact H1|]. split; [exact H2|].
    apply (H3 (CircuitBreakerFacts.failsAfter 1) 5
             (new_Error "upstream failure")); reflexivity.
Defined.

End CircuitBreakerCounting.

(* ===================================================================== *)
(** * Further properties of [processWithConcurrency]                      *)
(* ===================================================================== *)

Module PoolFacts.

Import Js Utils.

Section Pool.

Context {T R : Type}.
Variable processor : T -> nat -> Z * Settled R.

(** The state of a pool that has started [i] items and never waited. *)
Definition neverWaited (t0 : Z) (i : nat) (st : PoolState R) : Prop :=
  clock st = t0 /\ executing st = seq 0 i /\ length (started st) = i.

Lemma poolStep_below_limit (n : nat) (c : Z) (st : PoolState R) (t0 : Z)
    (i : nat) (x : T) :
  Z.of_nat (S i) < c -> neverWaited t0 i st ->
  neverWaited t0 (S i) (poolStep processor n c st i x).
Proof.
  intros Hc (Hclock & Hex & Hlen). unfold poolStep.
  destruct (processor x i) as [latency out].
  cbn [executing started clock]. rewrite Hex, length_app, length_seq.
  cbn [length].
  destruct (Z.leb_spec c (Z.of_nat (i + 1))); [lia|].
  split; [done|]. cbn [executing started]. split.
  - by rewrite seq_S.
  - rewrite length_app. cbn. lia.
Qed.

Lemma poolLoop_below_limit (n : nat) (c : Z) (t0 : Z) (items : list T) :
  forall (st : PoolState R) (i : nat),
    Z.of_nat (i + length items) < c -> neverWaited t0 i st ->
    neverWaited t0 (i + length items) (poolLoop processor n c st i items).
Proof.
  induction items as [|x items IH]; intros st i Hc Hst; cbn [poolLoop length].
  - by rewrite Nat.add_0_r.
  - cbn [length] in Hc. rewrite Nat.add_succ_r, <- Nat.add_succ_l.
    apply IH; [lia|]. apply poolStep_below_limit; [lia|done].
Qed.

Lemma afterAll_ge (t : Z) (tasks : list (Task R)) (ex : list nat) :
  t <= afterAll t tasks ex
  /\ forall k, k ∈ ex -> finishOf tasks k <= afterAll t tasks ex.
Proof.
  unfold afterAll. induction ex as [|j ex [IH1 IH2]]; cbn [foldr].
  - split; [lia|]. intros k Hk. by apply elem_of_nil in Hk.
  - split; [lia|]. intros k Hk. apply elem_of_cons in Hk as [->|Hk]; [lia|].
    specialize (IH2 k Hk). lia.
Qed.

(** X13: with a concurrency above the number of items the function never
    waits inside its loop, and the array it returns holds, for every item
    and in the order of the items, the outcome of the processor on it,
    fulfilled or rejected: no slot is left empty. *)
Theorem processWithConcurrency_fills_every_slot (t0 : Z) (items : list T)
    (concurrency : Z) :
  Z.of_nat (length items) < concurrency ->
  processWithConcurrency processor t0 items concurrency
  = imap (fun i x => Some (processor x i).2) items.
Proof.
  intros Hc. unfold processWithConcurrency. cbv zeta.
  pose proof (poolLoop_below_limit (length items) concurrency t0 items
                {| clock := t0; started := []; executing := [] |} 0%nat
                ltac:(cbn [Nat.add]; lia) ltac:(done))
    as (Hclock & Hex & Hlen).
  pose proof (started_outcomes := ConcurrencyFacts.started_poolLoop processor
                (length items) concurrency items
                {| clock := t0; started := []; executing := [] |} 0%nat).
  set (st := poolLoop _ _ _ _ _ _) in *.
  cbn [Nat.add started fmap list_fmap app] in *.
  apply list_eq. intros k. rewrite list_lookup_fmap, list_lookup_imap.
  apply (f_equal (fun l => l !! k)) in started_outcomes.
  rewrite list_lookup_fmap, list_lookup_imap in started_outcomes.
  destruct (started st !! k) as [task|] eqn:Hk; cbn in *.
  - destruct (items !! k) as [x|] eqn:Hx; [|done]. cbn in *.
    injection started_outcomes as ->.
    assert (finish task <= afterAll (clock st) (started st) (executing st))
      as Hfin.
    { destruct (afterAll_ge (clock st) (started st) (executing st))
        as [_ Hall].
      specialize (Hall k). unfold finishOf in Hall. rewrite Hk in Hall.
      apply Hall. rewrite Hex. apply elem_of_seq.
      apply lookup_lt_Some in Hx. lia. }
    by destruct (Z.leb_spec (finish task)
                   (afterAll (clock st) (started st) (executing st)));
      [|lia].
  - by destruct (items !! k).
Qed.

End Pool.

Lemma processWithConcurrency_fills_every_slot_witness :
  processWithConcurrency ConcurrencyFacts.slowFirst 0
    ["a"; "b"; "c"]%string 5
  = [Some (Fulfilled "a"%string); Some (Fulfilled "b"%string);
     Some (Fulfilled "c"%string)].
Proof.
  apply (processWithConcurrency_fills_every_slot ConcurrencyFacts.slowFirst 0
           ["a"; "b"; "c"]%string 5).
  cbn. lia.
Defined.

Section Order.

Context {T R : Type}.
Variable processor : T -> nat -> Z * Settled R.

(** X14: for every concurrency, also zero or negative, the array returned
    has one slot per item, and every slot is either empty or holds the
    outcome of the processor on the item of that position: outcomes are
    never moved, duplicated or made up. *)
Theorem processWithConcurrency_keeps_positions (t0 : Z) (items : list T)
    (concurrency : Z) :
  exists filled : nat -> bool,
    processWithConcurrency processor t0 items concurrency
    = imap (fun i x => if filled i then Some (processor x i).2 else None)
        items.
Proof.
  set (result := processWithConcurrency processor t0 items concurrency).
  exists (fun i => match result !! i with
                   | Some (Some _) => true
                   | _ => false
                   end).
  apply list_eq. intros k. rewrite list_lookup_imap.
  pose proof (ConcurrencyFacts.processWithConcurrency_length processor t0
                items concurrency) as Hlen.
  fold result in Hlen.
  destruct (result !! k) as [[o|]|] eqn:Hk.
  - destruct (ConcurrencyFacts.processWithConcurrency_slot processor t0 items
                concurrency k o Hk) as (x & -> & ->).
    cbn [fmap option_fmap option_map]. by rewrite ?Hk.
  - apply lookup_lt_Some in Hk as Hlt. rewrite Hlen in Hlt.
    apply lookup_lt_is_Some in Hlt as [x ->].
    cbn [fmap option_fmap option_map]. by rewrite ?Hk.
  - apply lookup_ge_None in Hk. rewrite Hlen in Hk.
    apply lookup_ge_None in Hk. by rewrite Hk.
Qed.

End Order.

End PoolFacts.

(* ===================================================================== *)
(** * Properties of writing to and emptying the store                     *)
(* ===================================================================== *)

Module PurgeFacts.

Import Js Pinecone Clean Purge.

(** ** [upsertVectors] *)

Lemma upsert_app (l k : list PineconeVector) (store : Store) :
  upsert (l ++ k) store = upsert k (upsert l store).
Proof. unfold upsert. apply foldl_app. Qed.

Lemma lookup_upsert_other (batch : list PineconeVector) (store : Store)
    (i : string) :
  i ∉ id <$> batch -> upsert batch store !! i = store !! i.
Proof.
  revert store. induction batch as [|v batch IH]; intros store Hi; [done|].
  cbn [fmap list_fmap] in Hi. apply not_elem_of_cons in Hi as [Hne Hi].
  change (upsert (v :: batch) store)
    with (upsert batch (<[id v := Some (metadata v)]> store)).
  rewrite IH by done. by rewrite lookup_insert_ne.
Qed.

Lemma lookup_upsert (batch : list PineconeVector) (store : Store)
    (v : PineconeVector) :
  NoDup (id <$> batch) -> v ∈ batch ->
  upsert batch store !! id v = Some (Some (metadata v)).
Proof.
  revert store. induction batch as [|x batch IH]; intros store Hnd Hv.
  { by apply elem_of_nil in Hv. }
  cbn [fmap list_fmap] in Hnd. apply NoDup_cons in Hnd as [Hx Hnd].
  change (upsert (x :: batch) store)
    with (upsert batch (<[id x := Some (metadata x)]> store)).
  apply elem_of_cons in Hv as [->|Hv]; [|by apply IH].
  rewrite lookup_upsert_other by done. by rewrite lookup_insert_eq.
Qed.

Lemma upsertBatches_slices (upsert_error : nat -> option Error)
    (fuel : nat) :
  forall (k : nat) (vectors : list PineconeVector) (store : Store)
         (upsertCount : Z),
    (length vectors <= fuel)%nat ->
    exists written : nat,
      let res := upsertBatches upsert_error k (slices_fuel fuel 100 vectors)
                   store upsertCount in
      res.1.2 = upsert (take (100 * written) vectors) store
      /\ res.2 = upsertCount
                 + Z.of_nat (length (take (100 * written) vectors))
      /\ (forall i, (i < written)%nat -> upsert_error (k + i)%nat = None)
      /\ match res.1.1 with
         | Fulfilled _ => (length vectors <= 100 * written)%nat
         | Rejected e =>
             upsert_error (k + written)%nat = Some e
             /\ (100 * written < length vectors)%nat
         end.
Proof.
  induction fuel as [|fuel IH]; intros k vectors store upsertCount Hlen.
  { destruct vectors; [|cbn in Hlen; lia]. exists 0%nat. cbn.
    repeat split; [lia|intros; lia|lia]. }
  destruct vectors as [|x vectors].
  { exists 0%nat. cbn. repeat split; [lia|intros; lia|lia]. }
  set (vs := x :: vectors) in *.
  change (slices_fuel (S fuel) 100 vs)
    with (take 100 vs :: slices_fuel fuel 100 (drop 100 vs)).
  cbn [upsertBatches].
  destruct (upsert_error k) as [e|] eqn:Hk.
  { exists 0%nat. cbv zeta. rewrite Nat.mul_0_r, Nat.add_0_r, take_0.
    cbn [fst snd length]. split; [done|]. split; [lia|].
    split; [intros; lia|]. split; [done|]. unfold vs. cbn [length]. lia. }
  destruct (IH (S k) (drop 100 vs) (upsert (take 100 vs) store)
              (upsertCount + Z.of_nat (length (take 100 vs))))
    as (j & Hstore & Hcount & Hnone & Hres).
  { rewrite length_drop. unfold vs in *. cbn [length] in *. lia. }
  cbv zeta in *. exists (S j).
  replace (100 * S j)%nat with (100 + 100 * j)%nat by lia.
  rewrite <- take_take_drop, upsert_app, length_app.
  split; [done|]. split; [lia|]. split.
  - intros i Hi. destruct i as [|i]; [by rewrite Nat.add_0_r|].
    rewrite Nat.add_succ_r. apply (Hnone i). lia.
  - destruct (upsertBatches _ _ _ _ _).1.1 as [u|e].
    + rewrite length_drop in Hres. lia.
    + rewrite length_drop, Nat.add_succ_r in *. split; [apply Hres|lia].
Qed.

(** X15: [upsertVectors] writes a prefix of whole batches.  For every
    outcome of the batch requests there is a number of batches written
    such that the store holds exactly the first 100 x that many vectors
    on top of what it held, [upsertCount] has grown by that number of
    vectors, and either the call fulfils and these are all the vectors, or
    it rejects with the error of the next batch and the batches before it
    stay written. *)
Theorem upsertVectors_writes_prefix (upsert_error : nat -> option Error)
    (vectors : list PineconeVector) (store : Store) (upsertCount : Z) :
  exists written : nat,
    let res := upsertVectors upsert_error vectors store upsertCount in
    res.1.2 = upsert (take (100 * written) vectors) store
    /\ res.2 = upsertCount + Z.of_nat (length (take (100 * written) vectors))
    /\ (forall i, (i < written)%nat -> upsert_error i = None)
    /\ match res.1.1 with
       | Fulfilled _ => (length vectors <= 100 * written)%nat
       | Rejected e =>
           upsert_error written = Some e
           /\ (100 * written < length vectors)%nat
       end.
Proof.
  unfold upsertVectors. destruct vectors as [|x vectors].
  { exists 0%nat. cbn. repeat split; [lia|intros; lia|lia]. }
  apply (upsertBatches_slices upsert_error (length (x :: vectors)) 0%nat
           (x :: vectors) store upsertCount). lia.
Qed.

(** X16: what is written can be enumerated.  When every batch request
    succeeds and the vectors have distinct ids, [upsertVectors] fulfils,
    [upsertCount] grows by the number of vectors, every vector is stored
    under its id with its metadata, no other record changes, and a later
    [listVectorIdsForDomain] for a domain lists the id of a written vector
    exactly when the vector's metadata carries that domain. *)
Theorem upserted_vectors_are_listed (upsert_error : nat -> option Error)
    (vectors : list PineconeVector) (store : Store) (upsertCount : Z) :
  (forall k, upsert_error k = None) ->
  NoDup (id <$> vectors) ->
  let res := upsertVectors upsert_error vectors store upsertCount in
  res.1.1 = Fulfilled tt
  /\ res.2 = upsertCount + Z.of_nat (length vectors)
  /\ (forall v, v ∈ vectors -> res.1.2 !! id v = Some (Some (metadata v)))
  /\ (forall i, i ∉ id <$> vectors -> res.1.2 !! i = store !! i)
  /\ (forall (r : Remote) (dom : string) (ids : list string),
        listVectorIdsForDomain r dom res.1.2 = Fulfilled ids ->
        forall v, v ∈ vectors -> id v ∈ ids <-> domain (metadata v) = dom).
Proof.
  intros Hok Hnd. cbv zeta.
  assert (upsertVectors upsert_error vectors store upsertCount
          = (Fulfilled tt, upsert vectors store,
             upsertCount + Z.of_nat (length vectors))) as ->.
  { unfold upsertVectors. destruct vectors as [|x vectors].
    { cbn. f_equal. lia. }
    destruct (upsertBatches_slices upsert_error (length (x :: vectors)) 0%nat
                (x :: vectors) store upsertCount ltac:(lia))
      as (written & Hstore & Hcount & _ & Hres).
    cbv zeta in *. fold (slices 100 (x :: vectors)) in *.
    destruct (upsertBatches _ _ _ _ _) as [[[[]|e] store'] count'];
      cbn [fst snd] in *.
    - rewrite take_ge in Hstore, Hcount by lia. by subst.
    - destruct Hres as [Hres _]. by rewrite Hok in Hres. }
  cbn [fst snd]. split; [done|]. split; [done|].
  split; [intros v Hv; by apply lookup_upsert|].
  split; [intros i Hi; by apply lookup_upsert_other|].
  intros r dom ids Hlist v Hv.
  rewrite (CleanFacts.elem_of_listVectorIdsForDomain r dom _ ids (id v) Hlist).
  rewrite lookup_upsert by done. split.
  - by intros (md & [= <-] & Hd).
  - intros Hd. by exists (metadata v).
Qed.

Lemma upserted_vectors_are_listed_witness :
  let vectors :=
    [createVector 7 0 [] (Reconciliation.sampleMetadata 7 0 "example.com");
     createVector 7 1 [] (Reconciliation.sampleMetadata 7 0 "example.com")] in
  let res := upsertVectors (fun _ => None) vectors ∅ 0 in
  res.1.1 = Fulfilled tt /\ res.2 = 2
  /\ res.1.2 !! "post-7-chunk-1"%string
     = Some (Some (metadata
                     (createVector 7 1 []
                        (Reconciliation.sampleMetadata 7 0 "example.com")))).
Proof.
  cbv zeta.
  destruct (upserted_vectors_are_listed (fun _ => None)
              [createVector 7 0 []
                 (Reconciliation.sampleMetadata 7 0 "example.com");
               createVector 7 1 []
                 (Reconciliation.sampleMetadata 7 0 "example.com")] ∅ 0)
    as (H1 & H2 & H3 & _).
  - done.
  - apply NoDup_cons. split.
    + intros H. apply list_elem_of_singleton in H. discriminate H.
    + apply NoDup_singleton.
  - split; [exact H1|]. split; [exact H2|].
    apply (H3 (createVector 7 1 []
                 (Reconciliation.sampleMetadata 7 0 "example.com"))).
    apply elem_of_cons. right. apply list_elem_of_singleton. reflexivity.
Defined.

(** ** [deleteAllForDomain] and [deleteAll] *)

(** Deleting by ids only removes records. *)
Lemma deleteBatches_only_removes (r : Remote) (bs : list (list string))
    (v : string) :
  forall (k : nat) (store : Store),
    (deleteBatches r k bs store).2 !! v = None
    \/ (deleteBatches r k bs store).2 !! v = store !! v.
Proof.
  induction bs as [|b bs IH]; intros k store; [by right|].
  cbn [deleteBatches]. unfold deleteMany.
  destruct (deleteMany_error r k); [by right|].
  destruct (IH (S k) (foldr delete store b)) as [H|H]; [by left|].
  rewrite H. destruct (decide (v ∈ b)).
  - left. by apply lookup_foldr_delete.
  - right. by apply lookup_foldr_delete_not_elem_of.
Qed.

Lemma deleteByVectorIds_only_removes (r : Remote) (ids : list string)
    (store : Store) (v : string) :
  (deleteByVectorIds r ids store).2 !! v = None
  \/ (deleteByVectorIds r ids store).2 !! v = store !! v.
Proof.
  unfold deleteByVectorIds. destruct ids as [|i ids]; [by right|].
  apply deleteBatches_only_removes.
Qed.

Definition inDomain (dom : string) (store : Store) (v : string) : Prop :=
  exists md, store !! v = Some (Some md) /\ domain md = dom.

Lemma deleteAllForDomain_spec (r : Remote) (dom : string) (store : Store) :
  (forall v, ~ inDomain dom store v ->
             (deleteAllForDomain r dom store).2 !! v = store !! v)
  /\ (forall v, (deleteAllForDomain r dom store).2 !! v = None
                \/ (deleteAllForDomain r dom store).2 !! v = store !! v)
  /\ (list_error r = None -> (forall k, deleteMany_error r k = None) ->
      (deleteAllForDomain r dom store).1 = Fulfilled tt
      /\ forall v, inDomain dom store v ->
                   (deleteAllForDomain r dom store).2 !! v = None).
Proof.
  unfold deleteAllForDomain.
  destruct (listVectorIdsForDomain r dom store) as [ids|e] eqn:Hlist.
  - pose proof (fun v => CleanFacts.elem_of_listVectorIdsForDomain
                           r dom store ids v Hlist) as Hids.
    assert ((match ids with
             | [] => (Fulfilled tt, store)
             | _ => deleteByVectorIds r ids store
             end) = deleteByVectorIds r ids store) as ->
      by by destruct ids.
    split; [|split].
    + intros v Hv. apply CleanFacts.deleteByVectorIds_frame.
      by rewrite Hids.
    + intros v. apply deleteByVectorIds_only_removes.
    + intros _ Hok.
      destruct (CleanFacts.deleteByVectorIds_ok r ids store Hok) as [H1 H2].
      split; [done|]. intros v Hv. apply H2. by apply Hids.
  - split; [done|]. split; [by right|]. intros Hl.
    unfold listVectorIdsForDomain in Hlist. by rewrite Hl in Hlist.
Qed.

(** X17: emptying a domain stays inside the domain.  Whatever the
    collaborators answer, [deleteAll] changes no record outside the
    configured domain (records without metadata included) and only ever
    removes records; and when the settings, the index, both statistics
    reads, the listing and every deletion request succeed, it fulfils and
    no record of the domain is left. *)
Theorem deleteAll_stays_in_domain (c : Collaborators) (store : Store) :
  (forall settings v,
      fetchSettings c = Fulfilled settings ->
      ~ inDomain (settings_domain settings) store v ->
      (deleteAll c store).2 !! v = store !! v)
  /\ (forall v, (deleteAll c store).2 !! v = None
                \/ (deleteAll c store).2 !! v = store !! v)
  /\ (forall e, fetchSettings c = Rejected e ->
                deleteAll c store = (Rejected e, store))
  /\ (forall settings,
        fetchSettings c = Fulfilled settings ->
        initialize c = Fulfilled tt -> statsBefore c = Fulfilled tt ->
        statsAfter c = Fulfilled tt -> list_error (remote c) = None ->
        (forall k, deleteMany_error (remote c) k = None) ->
        (deleteAll c store).1 = Fulfilled tt
        /\ forall v, inDomain (settings_domain settings) store v ->
                     (deleteAll c store).2 !! v = None).
Proof.
  unfold deleteAll. split; [|split; [|split]].
  - intros settings v -> Hv.
    destruct (initialize c); [|done]. destruct (statsBefore c); [|done].
    destruct (deleteAllForDomain_spec (remote c) (settings_domain settings)
                store) as (Hframe & _ & _).
    specialize (Hframe v Hv).
    destruct (deleteAllForDomain _ _ _) as [[u|e] store'];
      [destruct (statsAfter c)|]; done.
  - intros v. destruct (fetchSettings c) as [settings|]; [|by right].
    destruct (initialize c); [|by right].
    destruct (statsBefore c); [|by right].
    destruct (deleteAllForDomain_spec (remote c) (settings_domain settings)
                store) as (_ & Hrem & _).
    specialize (Hrem v).
    destruct (deleteAllForDomain _ _ _) as [[u|e] store'];
      [destruct (statsAfter c)|]; done.
  - by intros e ->.
  - intros settings -> -> -> -> Hl Hd.
    destruct (deleteAllForDomain_spec (remote c) (settings_domain settings)
                store) as (_ & _ & Hall).
    destruct (Hall Hl Hd) as [H1 H2].
    destruct (deleteAllForDomain _ _ _) as [[u|e] store']; [|done].
    by split.
Qed.

End PurgeFacts.

(* ===================================================================== *)
(** * Running [clean] again                                               *)
(* ===================================================================== *)

Module CleanTwice.

Import Js Pinecone Clean.

Lemma clean_unfold (c : Collaborators) (store : Store)
    (settings : IndexerSettings) (docs : list ProcessedDocument) :
  fetchSettings c = Fulfilled settings ->
  clean_deleted settings = true ->
  initialize c = Fulfilled tt ->
  fetchAllPosts c = Fulfilled docs ->
  getStats c = Fulfilled tt ->
  list_error (remote c) = None ->
  exists ids,
    listVectorIdsForDomain (remote c) (settings_domain settings) store
    = Fulfilled ids
    /\ clean c store
       = deleteByVectorIds (remote c)
           (vectorIdsToDelete (list_to_set (doc_id <$> docs)) ids) store.
Proof.
  intros Hs Hc Hi Hp Hg Hl. unfold clean. rewrite Hs, Hc, Hi, Hp, Hg.
  cbn [negb]. unfold listVectorIdsForDomain at 2. rewrite Hl.
  eexists. split; [unfold listVectorIdsForDomain; by rewrite Hl|].
  by destruct (vectorIdsToDelete _ _).
Qed.

(** X18: reconciliation is idempotent.  When reconciliation is enabled
    and every collaborator answers, a second run of [clean] against the
    same live posts finds nothing to delete: it fulfils and leaves the
    store exactly as the first run left it. *)
Theorem clean_twice_changes_nothing (c : Collaborators) (store : Store)
    (settings : IndexerSettings) (docs : list ProcessedDocument) :
  fetchSettings c = Fulfilled settings ->
  clean_deleted settings = true ->
  initialize c = Fulfilled tt ->
  fetchAllPosts c = Fulfilled docs ->
  getStats c = Fulfilled tt ->
  list_error (remote c) = None ->
  (forall k, deleteMany_error (remote c) k = None) ->
  clean c (clean c store).2 = (Fulfilled tt, (clean c store).2).
Proof.
  intros Hs Hc Hi Hp Hg Hl Hd.
  destruct (clean_unfold c store settings docs Hs Hc Hi Hp Hg Hl)
    as (ids1 & Hlist1 & ->).
  set (live := list_to_set (doc_id <$> docs) : gset Z).
  set (del1 := vectorIdsToDelete live ids1).
  set (store1 := (deleteByVectorIds (remote c) del1 store).2).
  destruct (clean_unfold c store1 settings docs Hs Hc Hi Hp Hg Hl)
    as (ids2 & Hlist2 & ->).
  fold live. set (del2 := vectorIdsToDelete live ids2).
  assert (del2 = []) as ->; [|done].
  destruct del2 as [|v rest] eqn:Hdel2; [done|]. exfalso.
  assert (v ∈ del2) as Hv by (rewrite Hdel2; by left).
  apply CleanFacts.elem_of_vectorIdsToDelete in Hv as (Hin2 & d & Hparse & Hd').
  apply (CleanFacts.elem_of_listVectorIdsForDomain _ _ _ _ v Hlist2)
    in Hin2 as (md & Hstore1 & Hdom).
  destruct (PurgeFacts.deleteByVectorIds_only_removes (remote c) del1 store v)
    as [Hnone|Hsame]; [fold store1 in Hnone; congruence|].
  fold store1 in Hsame.
  assert (v ∈ del1) as Hv1.
  { apply CleanFacts.elem_of_vectorIdsToDelete. split; [|by exists d].
    apply (CleanFacts.elem_of_listVectorIdsForDomain _ _ _ _ v Hlist1).
    exists md. split; [congruence|done]. }
  destruct (CleanFacts.deleteByVectorIds_ok (remote c) del1 store Hd)
    as [_ Hgone].
  specialize (Hgone v Hv1). fold store1 in Hgone. congruence.
Qed.

Lemma clean_twice_changes_nothing_witness :
  clean Reconciliation.sampleRun
    (clean Reconciliation.sampleRun Reconciliation.postStore).2
  = (Fulfilled tt,
     (clean Reconciliation.sampleRun Reconciliation.postStore).2).
Proof.
  apply (clean_twice_changes_nothing Reconciliation.sampleRun
           Reconciliation.postStore
           {| clean_deleted := true; chunk_size := 500; chunk_overlap := 50;
              settings_domain := "example.com" |}
           [Reconciliation.sampleDocument 1;
            Reconciliation.sampleDocument 2]);
    reflexivity.
Defined.

End CleanTwice.

(* ===================================================================== *)
(** * The statistics reported by [index]                                  *)
(* ===================================================================== *)

Module IndexAccounting.

Import Js Clean Indexer.

Lemma collectResults_accounting (allPosts : list ProcessedDocument) :
  forall (results : list (option (Settled (option Z))))
         (progress : IndexingProgress) (errs : list ErrorEntry),
    let out := collectResults allPosts results (progress, errs) in
    totalPosts out.1 = totalPosts progress
    /\ totalChunks out.1 - processedChunks out.1
       = totalChunks progress - processedChunks progress
    /\ processedPosts progress <= processedPosts out.1
    /\ errors progress <= errors out.1
    /\ (processedPosts out.1 + errors out.1)
       - (processedPosts progress + errors progress)
       <= Z.of_nat (length allPosts)
    /\ Z.of_nat (length out.2) - Z.of_nat (length errs)
       = errors out.1 - errors progress.
Proof.
  induction allPosts as [|doc allPosts IH]; intros results progress errs.
  { destruct results as [|[r|] results]; cbn; lia. }
  destruct results as [|[r|] results]; [cbn; lia| |].
  - cbn [collectResults].
    specialize (IH results (collectResult doc r (progress, errs)).1
                  (collectResult doc r (progress, errs)).2).
    rewrite <- surjective_pairing in IH. cbv zeta in *.
    destruct (collectResults allPosts results _) as [p' errs'].
    cbn [fst snd length] in *.
    destruct r as [[n|]|e]; cbn [collectResult fst snd totalPosts totalChunks
      processedChunks processedPosts errors] in IH;
      rewrite ?length_app in IH; cbn [length] in IH; lia.
  - cbn [collectResults]. specialize (IH results progress errs).
    cbv zeta in *. cbn [length]. lia.
Qed.

Ltac pick_result :=
  match goal with
  | |- exists r, (Fulfilled ?x, _) = _ /\ _ => exists x
  end.

(** X19: the report of [index] on a new indexer adds up.  The call
    fulfils with a result whose statistics are the indexer's progress; in
    them every chunk counted is counted as processed, the posts processed
    and the posts failed are together at most the posts found, [success]
    holds exactly when the error list is empty and then no post has
    failed, and the error list has one entry per failed post, plus one
    when the run was cut short by a fatal error. *)
Theorem index_report_adds_up (run : Run) :
  exists result : IndexingResult,
    index run zeroProgress = (Fulfilled result, stats result)
    /\ totalChunks (stats result) = processedChunks (stats result)
    /\ 0 <= processedPosts (stats result)
    /\ 0 <= errors (stats result)
    /\ processedPosts (stats result) + errors (stats result)
       <= totalPosts (stats result)
    /\ (success result = true <-> result_errors result = [])
    /\ (success result = true -> errors (stats result) = 0)
    /\ (Z.of_nat (length (result_errors result)) = errors (stats result)
        \/ (success result = false
            /\ Z.of_nat (length (result_errors result))
               = errors (stats result) + 1)).
Proof.
  unfold index, indexTry.
  destruct (fetchSettings _ _) as [settings|e].
  2:{ pick_result. split; [reflexivity|]. cbn.
      repeat split; try done; try lia. }
  destruct (initialize run) as [u|e].
  2:{ pick_result. split; [reflexivity|]. cbn.
      repeat split; try done; try lia. }
  destruct (fetchAllPosts run) as [allPosts|e].
  2:{ pick_result. split; [reflexivity|]. cbn.
      repeat split; try done; try lia. }
  cbv zeta.
  match goal with
  | |- context [collectResults allPosts ?rs (?p, [])] =>
      pose proof (collectResults_accounting allPosts rs p []) as Hacc;
      destruct (collectResults allPosts rs (p, [])) as [p' errs]
  end.
  cbv zeta in Hacc.
  cbn [fst snd totalPosts totalChunks processedChunks processedPosts errors
       zeroProgress length] in Hacc.
  destruct Hacc as (H1 & H2 & H3 & H4 & H5 & H6).
  destruct (getStats run) as [u'|e].
  - pick_result. split; [reflexivity|]. cbn [stats success result_errors].
    split; [lia|]. split; [lia|]. split; [lia|]. split; [lia|].
    split; [|split; [|left; lia]].
    + rewrite bool_decide_eq_true. split.
      * by intros ?%nil_length_inv.
      * by intros ->.
    + rewrite bool_decide_eq_true. intros Hl. rewrite Hl in H6. lia.
  - pick_result. split; [reflexivity|]. cbn [stats success result_errors].
    split; [lia|]. split; [lia|]. split; [lia|]. split; [lia|].
    split; [|split; [done|right]].
    + split; [done|]. intros H. by apply app_eq_nil in H as [_ ?].
    + split; [done|]. rewrite length_app. cbn [length]. lia.
Qed.

End IndexAccounting.

(* ===================================================================== *)
(** * Properties of the embeddings manager                                *)
(* ===================================================================== *)

Module EmbeddingsFacts.

Import Js Utils Embeddings.

Local Open Scope string_scope.

(** X20: the two retry policies of the code base.  [shouldRetry] of the
    embeddings manager retries nothing that [isRetryableError] of
    [retryWithBackoff] would not; they differ exactly on errors without a
    (non-zero) status whose code is [ENOTFOUND], which only the latter
    retries; and [getRetryDelay] is the back-off of [retryWithBackoff]
    with a base delay of 1000 ms and a maximum of 60000 ms. *)
Theorem retry_policies_compared (error : Error) (retryCount : nat) (r : Q) :
  (shouldRetry error = true -> isRetryableError error = true)
  /\ (isRetryableError error = true /\ shouldRetry error = false
      <-> (status error = None \/ status error = Some 0%Z)
          /\ code error = Some "ENOTFOUND")
  /\ getRetryDelay retryCount r = backoffWait 1000 60000 retryCount r.
Proof.
  split; [|split; [|reflexivity]].
  - unfold shouldRetry, isRetryableError.
    assert (forall c : string,
               bool_decide (c = "ECONNRESET") || bool_decide (c = "ETIMEDOUT")
               = true ->
               bool_decide (c ∈ ["ECONNRESET"; "ETIMEDOUT"; "ENOTFOUND"])
               = true) as Hcode.
    { intros c Hc. apply bool_decide_eq_true.
      apply orb_true_iff in Hc as [Hc|Hc]; apply bool_decide_eq_true in Hc;
        subst; set_solver. }
    destruct (status error) as [s|]; [destruct (s =? 0)%Z|];
      destruct (code error) as [c|]; auto.
  - unfold shouldRetry, isRetryableError.
    assert (forall c : string,
               bool_decide (c ∈ ["ECONNRESET"; "ETIMEDOUT"; "ENOTFOUND"])
               = true
               /\ bool_decide (c = "ECONNRESET")
                  || bool_decide (c = "ETIMEDOUT") = false
               <-> c = "ENOTFOUND") as Hcode.
    { intros c. rewrite bool_decide_eq_true, orb_false_iff,
        !bool_decide_eq_false. split.
      - intros [Hin [H1 H2]].
        apply elem_of_cons in Hin as [?|Hin]; [done|].
        apply elem_of_cons in Hin as [?|Hin]; [done|].
        by apply list_elem_of_singleton in Hin.
      - intros ->. split; [set_solver|]. split; discriminate. }
    destruct (status error) as [s|] eqn:Hs.
    + destruct (Z.eqb_spec s 0) as [->|Hne].
      * destruct (code error) as [c|].
        -- rewrite Hcode. split; [intros ->; auto|]. by intros [_ [= ->]].
        -- split; [by intros [? _]|]. by intros [_ ?].
      * split.
        -- intros [H1 H2]. congruence.
        -- intros [[?|[= ?]] _]; [done|lia].
    + destruct (code error) as [c|].
      * rewrite Hcode. split; [intros ->; auto|]. by intros [_ [= ->]].
      * split; [by intros [? _]|]. by intros [_ ?].
Qed.

Section Calls.

Context {World : Type}.
Variable now : World -> Z.
Variable sleep : Z -> World -> World.
Variable random : nat -> Q.
Variable rateLimit : World -> World.
Variable createOne : string -> World -> World * Settled (option (list (list Q))).
Variable createMany :
  list string -> World -> World * Settled (option (list (list Q))).

Definition wrapped (error : Error) : Prop :=
  exists cause, error = new_Error ("Failed to create embedding: " +:+ cause).

Lemma createEmbeddingWithRetry_wrapped (text : string) (remaining : nat) :
  forall (retryCount : nat) (m : Manager) (w : World) (error : Error),
    (createEmbeddingWithRetry now sleep random rateLimit createOne text
       remaining retryCount m w).1.2 = Rejected error ->
    wrapped error.
Proof.
  induction remaining as [|remaining IH]; intros retryCount m w error;
    cbn [createEmbeddingWithRetry];
    destruct (attempt now rateLimit createOne text m w) as [[m1 w1] [e|cause]];
    try done;
    destruct (String.eqb (message cause) "Circuit breaker is open");
    cbn [fst snd].
  1,2: intros [= <-]; by exists (message cause).
  all: destruct (shouldRetry cause); [|intros [= <-]; by exists (message cause)].
  all: match goal with
       | |- context [createEmbeddingWithRetry _ _ _ _ _ _ _ ?rc ?m ?w0] =>
           specialize (IH rc m w0 error);
           destruct (createEmbeddingWithRetry now sleep random rateLimit
                       createOne text remaining rc m w0) as [[[m3 w3] r] sl]
       end; cbn [fst snd] in *; exact IH.
Qed.

(** X21: a failure of [createEmbeddingWithRetry] never carries the cause's
    status or code.  Whatever goes wrong, the error thrown is a new
    [Error] with the message ['Failed to create embedding: ' + cause], so
    neither retry policy of the code base would retry it. *)
Theorem embedding_failures_are_wrapped (text : string)
    (maxRetries retryCount : nat) (m : Manager) (w : World) (error : Error) :
  (createEmbeddingWithRetry now sleep random rateLimit createOne text
     maxRetries retryCount m w).1.2 = Rejected error ->
  (exists cause,
      error = new_Error ("Failed to create embedding: " +:+ cause))
  /\ status error = None /\ code error = None
  /\ shouldRetry error = false /\ isRetryableError error = false.
Proof.
  intros H. apply createEmbeddingWithRetry_wrapped in H as [cause ->].
  split; [by exists cause|]. done.
Qed.

(** X22: an open breaker is not waited out.  When the breaker is open and
    its timeout has not elapsed, [createEmbeddingWithRetry] does not call
    the API: it sleeps 5000 ms once and rejects, without any retry however
    many are allowed, leaving the manager as it was. *)
Theorem open_breaker_is_not_retried (text : string)
    (maxRetries retryCount : nat) (m : Manager) (w : World) :
  state (circuitBreaker m) = open ->
  now (rateLimit w) - lastFailureTime (circuitBreaker m)
  < resetTimeout (circuitBreaker m) ->
  createEmbeddingWithRetry now sleep random rateLimit createOne text
    maxRetries retryCount m w
  = (m, sleep 5000 (rateLimit w),
     Rejected
       (new_Error "Failed to create embedding: Circuit breaker is open"),
     [5000%Z]).
Proof.
  intros Hs Ht.
  assert (attempt now rateLimit createOne text m w
          = (m, rateLimit w, Rejected circuitOpenError)) as Ha.
  { unfold attempt, execute, enter. rewrite Hs.
    destruct (Z.leb_spec (resetTimeout (circuitBreaker m))
                (now (rateLimit w) - lastFailureTime (circuitBreaker m)));
      [lia|]. by destruct m. }
  destruct maxRetries; cbn [createEmbeddingWithRetry]; rewrite Ha; reflexivity.
Qed.

Lemma fallback_length (texts : list string) :
  forall (acc : list (list Q)) (m : Manager) (w : World)
         (embeddings : list (list Q)),
    (fallback now sleep random rateLimit createOne texts acc m w).2
    = Fulfilled embeddings ->
    length embeddings = (length acc + length texts)%nat.
Proof.
  induction texts as [|text texts IH]; intros acc m w embeddings;
    cbn [fallback].
  - intros [= <-]. cbn. lia.
  - destruct (createEmbedding _ _ _ _ _ _ _ _) as [[[m1 w1] [e|err]] sl];
      [|done].
    intros H. apply IH in H. rewrite length_app in H. cbn [length] in *. lia.
Qed.

Lemma fallback_wrapped (texts : list string) :
  forall (acc : list (list Q)) (m : Manager) (w : World) (error : Error),
    (fallback now sleep random rateLimit createOne texts acc m w).2
    = Rejected error ->
    wrapped error.
Proof.
  induction texts as [|text texts IH]; intros acc m w error;
    cbn [fallback]; [done|].
  pose proof (createEmbeddingWithRetry_wrapped text 3 0 m w) as Hw.
  unfold createEmbedding.
  destruct (createEmbeddingWithRetry _ _ _ _ _ _ _ _ _ _)
    as [[[m1 w1] [e|err]] sl]; cbn [fst snd] in *.
  - apply IH.
  - intros [= <-]. by apply Hw.
Qed.

(** X23: [createBatchEmbeddings] answers with one embedding per text or
    not at all.  When it fulfils, the list has exactly as many embeddings
    as there were texts, whether they came from the batch request or from
    the one-by-one fallback; when it rejects, the error is the wrapped
    failure of a single-text request. *)
Theorem batch_embeddings_one_per_text (texts : list string) (m : Manager)
    (w : World) :
  match (createBatchEmbeddings now sleep random rateLimit createOne
           createMany texts m w).2 with
  | Fulfilled embeddings => length embeddings = length texts
  | Rejected error =>
      exists cause,
        error = new_Error ("Failed to create embedding: " +:+ cause)
  end.
Proof.
  assert (forall m' w',
             match (fallback now sleep random rateLimit createOne texts []
                      m' w').2 with
             | Fulfilled embeddings => length embeddings = length texts
             | Rejected error => wrapped error
             end) as Hfb.
  { intros m' w'.
    pose proof (fallback_length texts [] m' w') as Hl.
    pose proof (fallback_wrapped texts [] m' w') as Hw.
    destruct (fallback _ _ _ _ _ _ _ _ _).2 as [es|e]; [by apply Hl|].
    by apply Hw. }
  unfold createBatchEmbeddings.
  destruct (createMany texts (rateLimit w)) as [w2 [[es|]|e]]; [|apply Hfb..].
  destruct (Nat.eqb_spec (length es) (length texts)); [done|]. apply Hfb.
Qed.

End Calls.

(** ** Instances *)

(** A world that is only a clock; the API answers 503 after 10 ms. *)
Definition unavailable (text : string) (t : Z)
    : Z * Settled (option (list (list Q))) :=
  (t + 10, Rejected {| message := "Service Unavailable";
                        status := Some 503%Z; code := None |})%Z.

Definition newManager : Manager :=
  {| circuitBreaker := newCircuitBreaker 5 60000; requestCount := 0;
     lastRequestTime := 0 |}.

Definition openManager : Manager :=
  {| circuitBreaker := {| failureCount := 5; lastFailureTime := 100;
                          state := open; failureThreshold := 5;
                          resetTimeout := 60000 |};
     requestCount := 0; lastRequestTime := 0 |}.

Lemma embedding_failures_are_wrapped_witness :
  status (new_Error "Failed to create embedding: Service Unavailable") = None
  /\ isRetryableError
       (new_Error "Failed to create embedding: Service Unavailable") = false.
Proof.
  destruct (embedding_failures_are_wrapped id (fun ms t => t + ms)%Z
              (fun _ => 1 # 2) id unavailable "text" 1 0 newManager 0%Z
              (new_Error "Failed to create embedding: Service Unavailable"))
    as (_ & H1 & _ & _ & H2).
  - vm_compute. reflexivity.
  - split; [exact H1|exact H2].
Defined.

Lemma open_breaker_is_not_retried_witness :
  createEmbeddingWithRetry id (fun ms t => t + ms)%Z (fun _ => 1 # 2) id
    unavailable "text" 3 0 openManager 200%Z
  = (openManager, 5200%Z,
     Rejected
       (new_Error "Failed to create embedding: Circuit breaker is open"),
     [5000%Z]).
Proof.
  apply (open_breaker_is_not_retried id (fun ms t => t + ms)%Z
           (fun _ => 1 # 2) id unavailable "text" 3 0 openManager 200%Z).
  - reflexivity.
  - cbn. lia.
Defined.

End EmbeddingsFacts.

(* ===================================================================== *)
(** * Properties of the validation of the settings                        *)
(* ===================================================================== *)

Module SettingsFacts.

Import Js Settings.

Local Open Scope string_scope.

(** What [validateSettings] has checked when it has not thrown. *)
Record checked (data : gmap string Json) : Prop := {
  checked_required : List.find (missing data) required = None;
  checked_version :
    includes SUPPORTED_SCHEMA_VERSIONS (parseInt (data !! "schema_version"))
    = true;
  checked_dimension :
    num_ltb (parseInt (data !! "embedding_dimension")) (Some 1)
    || num_gtb (parseInt (data !! "embedding_dimension")) (Some 10000)
    = false;
  checked_size :
    num_ltb (parseInt (data !! "chunk_size")) (Some 100)
    || num_gtb (parseInt (data !! "chunk_size")) (Some 10000) = false;
  checked_overlap :
    num_ltb (parseInt (data !! "chunk_overlap")) (Some 0)
    || num_geb (parseInt (data !! "chunk_overlap"))
         (parseInt (data !! "chunk_size")) = false;
  checked_pinecone :
    String.eqb (toString (data !! "pinecone_index_host")) ""
    || String.eqb (toString (data !! "pinecone_index_name")) "" = false
}.

Definition settingsOf (data : gmap string Json) (dom : string)
    : IndexerSettings :=
  {| schema_version := parseInt (data !! "schema_version");
     post_types := arrayOrEmpty (data !! "post_types");
     post_types_exclude := arrayOrEmpty (data !! "post_types_exclude");
     auto_discover := toBoolean (data !! "auto_discover");
     clean_deleted := toBoolean (data !! "clean_deleted");
     embedding_model := toString (data !! "embedding_model");
     embedding_dimension := parseInt (data !! "embedding_dimension");
     chunk_size := parseInt (data !! "chunk_size");
     chunk_overlap := parseInt (data !! "chunk_overlap");
     pinecone_index_host := toString (data !! "pinecone_index_host");
     pinecone_index_name := toString (data !! "pinecone_index_name");
     domain := dom |}.

Lemma validateSettings_fulfilled (data : gmap string Json) (dom : string)
    (s : IndexerSettings) :
  validateSettings data dom = Fulfilled s
  <-> checked data /\ s = settingsOf data dom.
Proof.
  unfold validateSettings. cbv zeta.
  cbn [embedding_dimension chunk_size chunk_overlap pinecone_index_host
       pinecone_index_name].
  split.
  - destruct (List.find (missing data) required) eqn:Hreq; [done|].
    destruct (includes _ _) eqn:Hv; [|done]. cbn [negb].
    destruct (num_ltb (parseInt (data !! "embedding_dimension")) _ || _)
      eqn:Hd; [done|].
    destruct (num_ltb (parseInt (data !! "chunk_size")) _ || _)
      eqn:Hc; [done|].
    destruct (num_ltb (parseInt (data !! "chunk_overlap")) _ || _)
      eqn:Ho; [done|].
    destruct (String.eqb _ _ || _) eqn:Hp; [done|].
    intros [= <-]. by split.
  - intros [[Hreq Hv Hd Hc Ho Hp] ->].
    by rewrite Hreq, Hv, Hd, Hc, Ho, Hp.
Qed.

(** X24: what validated settings guarantee.  When [validateSettings]
    returns, all eight required fields were present, the schema version is
    1, the Pinecone host and name are not empty, the domain is the one
    given, and each of [embedding_dimension], [chunk_size] and
    [chunk_overlap] is either [NaN] or in its range: 1 to 10000, 100 to
    10000, and from 0 to below a numeric [chunk_size]. *)
Theorem validated_settings_in_range (data : gmap string Json) (dom : string)
    (s : IndexerSettings) :
  validateSettings data dom = Fulfilled s ->
  Forall (fun field => missing data field = false) required
  /\ schema_version s = Some 1%Z
  /\ domain s = dom
  /\ pinecone_index_host s <> "" /\ pinecone_index_name s <> ""
  /\ (forall d, embedding_dimension s = Some d -> (1 <= d <= 10000)%Z)
  /\ (forall cs, chunk_size s = Some cs -> (100 <= cs <= 10000)%Z)
  /\ (forall co, chunk_overlap s = Some co ->
        (0 <= co)%Z
        /\ forall cs, chunk_size s = Some cs -> (co < cs)%Z).
Proof.
  intros H. apply validateSettings_fulfilled in H as [[Hreq Hv Hd Hc Ho Hp] ->].
  cbn [schema_version domain pinecone_index_host pinecone_index_name
       embedding_dimension chunk_size chunk_overlap settingsOf].
  apply orb_false_iff in Hd as [Hd1 Hd2], Hc as [Hc1 Hc2], Ho as [Ho1 Ho2],
    Hp as [Hp1 Hp2].
  split; [|split; [|split; [done|split; [|split]]]].
  - apply List.Forall_forall. intros field Hin.
    by apply (List.find_none _ _ Hreq).
  - unfold includes, SUPPORTED_SCHEMA_VERSIONS in Hv.
    destruct (parseInt (data !! "schema_version")) as [z|]; [|done].
    apply bool_decide_eq_true, list_elem_of_singleton in Hv. by subst.
  - intros E. by rewrite E in Hp1.
  - intros E. by rewrite E in Hp2.
  - split; [|split].
    + intros d E. rewrite E in Hd1, Hd2. cbn in Hd1, Hd2. lia.
    + intros cs E. rewrite E in Hc1, Hc2. cbn in Hc1, Hc2. lia.
    + intros co E. rewrite E in Ho1, Ho2. cbn in Ho1. split; [lia|].
      intros cs E'. rewrite E' in Ho2. cbn in Ho2. lia.
Qed.

Lemma missing_insert (data : gmap string Json) (field key : string)
    (v : Json) :
  v <> JNull ->
  missing (<[key := v]> data) field
  = if decide (key = field) then false else missing data field.
Proof.
  intros Hv. unfold missing. destruct (decide (key = field)) as [->|Hne].
  - rewrite lookup_insert_eq. by destruct v.
  - by rewrite lookup_insert_ne.
Qed.

Lemma find_missing_insert (data : gmap string Json) (key : string) (v : Json)
    (fields : list string) :
  v <> JNull ->
  List.find (missing data) fields = None ->
  List.find (missing (<[key := v]> data)) fields = None.
Proof.
  intros Hv. induction fields as [|f fields IH]; [done|].
  cbn [List.find]. rewrite missing_insert by done.
  destruct (missing data f) eqn:Hf; [done|].
  intros H. destruct (decide (key = f)); by apply IH.
Qed.

(** X25: a numeric setting that does not parse disables its own check.
    If settings are accepted, they are still accepted after [chunk_size]
    is replaced by any value that [parseInt] reads as [NaN] (and is not
    [null]): the range checks compare with [NaN] and pass, and the
    settings returned carry [NaN] as chunk size. *)
Theorem unparsable_chunk_size_is_accepted (data : gmap string Json)
    (dom : string) (s : IndexerSettings) (v : Json) :
  validateSettings data dom = Fulfilled s ->
  v <> JNull -> parseInt (Some v) = None ->
  exists s',
    validateSettings (<["chunk_size" := v]> data) dom = Fulfilled s'
    /\ chunk_size s' = None
    /\ chunk_overlap s' = chunk_overlap s
    /\ embedding_dimension s' = embedding_dimension s.
Proof.
  intros H Hv Hnan.
  apply validateSettings_fulfilled in H as [[Hreq Hver Hd Hc Ho Hp] ->].
  exists (settingsOf (<["chunk_size" := v]> data) dom).
  split; [apply validateSettings_fulfilled; split; [|done]|].
  - split; rewrite ?lookup_insert_eq, ?lookup_insert_ne by done;
      rewrite ?Hnan; try done.
    + by apply find_missing_insert.
    + apply orb_false_iff in Ho as [Ho _]. rewrite Ho.
      by destruct (parseInt (data !! "chunk_overlap")).
  - cbn [settingsOf chunk_size chunk_overlap embedding_dimension].
    rewrite lookup_insert_eq, !lookup_insert_ne by done. by rewrite Hnan.
Qed.

(** ** Instances *)

Definition sampleData : gmap string Json :=
  list_to_map
    [("schema_version", JNum 1); ("post_types", JArr ["post"; "page"]);
     ("embedding_model", JStr "text-embedding-3-small");
     ("embedding_dimension", JStr "1536"); ("chunk_size", JNum 500);
     ("chunk_overlap", JStr "50"); ("pinecone_index_host", JStr "host");
     ("pinecone_index_name", JStr "name")].

Lemma validated_settings_in_range_witness :
  chunk_size (settingsOf sampleData "example.com") = Some 500%Z
  /\ (100 <= 500 <= 10000)%Z.
Proof.
  destruct (validated_settings_in_range sampleData "example.com"
              (settingsOf sampleData "example.com"))
    as (_ & _ & _ & _ & _ & _ & Hcs & _).
  - vm_compute. reflexivity.
  - split; [reflexivity|]. apply Hcs. reflexivity.
Defined.

Lemma unparsable_chunk_size_is_accepted_witness :
  exists s',
    validateSettings (<["chunk_size" := JStr "large"]> sampleData)
      "example.com" = Fulfilled s'
    /\ chunk_size s' = None
    /\ chunk_overlap s' = Some 50%Z
    /\ embedding_dimension s' = Some 1536%Z.
Proof.
  apply (unparsable_chunk_size_is_accepted sampleData "example.com"
           (settingsOf sampleData "example.com") (JStr "large")).
  - vm_compute. reflexivity.
  - discriminate.
  - reflexivity.
Defined.

End SettingsFacts.

(* ===================================================================== *)
(** * Properties of the WordPress client                                  *)
(* ===================================================================== *)

Module WordPressFacts.

Import Js Utils WordPress.

(** ** Post types *)

Lemma setOf_from (l : list string) :
  forall acc : list string,
    NoDup acc ->
    let out := foldl (fun acc x => if bool_decide (x ∈ acc) then acc
                                   else acc ++ [x]) acc l in
    NoDup out /\ (forall x, x ∈ out <-> x ∈ acc \/ x ∈ l)
    /\ exists rest, out = acc ++ rest.
Proof.
  induction l as [|y l IH]; intros acc Hnd; cbn [foldl].
  - split; [done|]. split; [|exists []; by rewrite app_nil_r].
    intros x. split; [by left|]. intros [H|H]; [done|].
    by apply elem_of_nil in H.
  - case_bool_decide as Hy.
    + destruct (IH acc Hnd) as (H1 & H2 & H3). split; [done|]. split; [|done].
      intros x. rewrite H2, elem_of_cons. split; [intros [?|?]; auto|].
      intros [?|[->|?]]; auto.
    + destruct (IH (acc ++ [y])) as (H1 & H2 & [rest H3]).
      { apply NoDup_app. split; [done|]. split; [|apply NoDup_singleton].
        intros x Hx Hx'. apply list_elem_of_singleton in Hx'. by subst. }
      split; [done|]. split.
      * intros x.
        rewrite H2, elem_of_app, list_elem_of_singleton, elem_of_cons. tauto.
      * exists (y :: rest). by rewrite H3, <- (assoc_L (++)).
Qed.

Lemma setOf_spec (l : list string) :
  NoDup (setOf l) /\ forall x, x ∈ setOf l <-> x ∈ l.
Proof.
  destruct (setOf_from l [] (NoDup_nil_2)) as (H1 & H2 & _).
  split; [done|]. intros x. unfold setOf. rewrite H2. split; [|by right].
  intros [H|H]; [by apply elem_of_nil in H|done].
Qed.

(** X26: the post types that are indexed.  A type is fetched exactly when
    it is configured, or auto-discovery is on, the discovery request
    succeeded and the type is listed there as viewable and shown in REST,
    and in either case the type is not excluded; a failed discovery falls
    back to the configured types; and when discovery succeeded, or the
    configured types are distinct, no type is fetched twice. *)
Theorem post_types_to_index (settings : Settings.IndexerSettings)
    (response : Settled (list (string * TypeData))) :
  let discovered (type : string) :=
    Settings.auto_discover settings = true
    /\ exists types data,
         response = Fulfilled types /\ (type, data) ∈ types
         /\ viewable data = true /\ show_in_rest data = true in
  (forall type,
      type ∈ getPostTypesToIndex settings response
      <-> (type ∈ Settings.post_types settings \/ discovered type)
          /\ type ∉ Settings.post_types_exclude settings)
  /\ (forall error,
         response = Rejected error ->
         getPostTypesToIndex settings response
         = filter (fun type => type ∉ Settings.post_types_exclude settings)
             (Settings.post_types settings))
  /\ ((Settings.auto_discover settings = true
       /\ exists types, response = Fulfilled types)
      \/ NoDup (Settings.post_types settings) ->
      NoDup (getPostTypesToIndex settings response)).
Proof.
  cbv zeta. unfold getPostTypesToIndex. split; [|split].
  - intros type. rewrite list_elem_of_filter.
    destruct (Settings.auto_discover settings);
      [destruct response as [types|e]; cbn [discoverPostTypes]|].
    + rewrite (proj2 (setOf_spec _)), elem_of_app, list_elem_of_fmap.
      split.
      * intros [Hex [Hc|([t d] & -> & Hd)]]; (split; [|done]); [by left|].
        apply list_elem_of_filter in Hd as [Hd Hin]. cbn in Hd.
        apply andb_true_iff in Hd as [Hv Hs]. right. split; [done|].
        by exists types, d.
      * intros [[Hc|(_ & types' & d & [= <-] & Hin & Hv & Hs)] Hex];
          (split; [done|]); [by left|]. right. exists (type, d).
        split; [done|]. apply list_elem_of_filter. split; [|done].
        cbn. by rewrite Hv, Hs.
    + split; [intros [? ?]; split; [|done]; by left|].
      intros [[?|(_ & ? & ? & ? & _)] ?]; done.
    + split; [intros [? ?]; split; [|done]; by left|].
      intros [[?|(? & _)] ?]; done.
  - intros error ->. cbn [discoverPostTypes].
    by destruct (Settings.auto_discover settings).
  - intros Hcase. apply NoDup_filter.
    destruct (Settings.auto_discover settings) eqn:Hauto.
    + destruct response as [types|e]; cbn [discoverPostTypes].
      * apply setOf_spec.
      * by destruct Hcase as [(_ & ? & ?)|?].
    + by destruct Hcase as [(? & _)|?].
Qed.

Section Fetch.

Context {Post : Type}.
Variable processPost : Post -> option Clean.ProcessedDocument.
Variable firstPage : string -> Settled (list Post * Settings.Num).
Variable page : string -> Z -> Z * Settled (list Post).

(** ** Pages *)

(** What the request for a page contributes: its posts, nothing when it
    failed. *)
Definition postsOfPage (postType : string) (pageNumber : Z) : list Post :=
  match (page postType pageNumber).2 with
  | Fulfilled posts => posts
  | Rejected _ => []
  end.

Lemma started_pageStep (postType : string) (c : Z)
    (st : PoolState (list Post)) (i : nat) (pageNumber : Z) :
  pageResult <$> started (pageStep page postType c st i pageNumber)
  = (pageResult <$> started st) ++ [postsOfPage postType pageNumber].
Proof.
  unfold pageStep, postsOfPage. destruct (page postType pageNumber) as [l o].
  cbn [started executing clock]. destruct (c <=? _); cbn [started];
    by rewrite fmap_app.
Qed.

Lemma started_pageLoop (postType : string) (c : Z) (pages : list Z) :
  forall (st : PoolState (list Post)) (i : nat),
    pageResult <$> started (pageLoop page postType c st i pages)
    = (pageResult <$> started st) ++ (postsOfPage postType <$> pages).
Proof.
  induction pages as [|pn pages IH]; intros st i; cbn [pageLoop].
  - by rewrite app_nil_r.
  - rewrite IH, started_pageStep, <- (assoc_L (++)). done.
Qed.

Lemma omap_sublist {A B : Type} (f : A -> option B) (g : A -> B)
    (l : list A) :
  (forall x y, f x = Some y -> y = g x) ->
  sublist (omap f l) (g <$> l).
Proof.
  intros Hfg. induction l as [|x l IH]; [constructor|].
  cbn [omap list_omap fmap list_fmap]. destruct (f x) as [y|] eqn:Hx.
  - rewrite (Hfg x y Hx). by constructor.
  - by constructor.
Qed.

Lemma omap_all {A B : Type} (f : A -> option B) (g : A -> B) (l : list A) :
  Forall (fun x => f x = Some (g x)) l -> omap f l = g <$> l.
Proof.
  induction 1 as [|x l Hx Hl IH]; [done|].
  cbn [omap list_omap fmap list_fmap]. by rewrite Hx, <- IH.
Qed.

Lemma filter_sublist {A : Type} (P : A -> Prop) `{!forall x, Decision (P x)}
    (l k : list A) :
  sublist l k -> sublist (filter P l) (filter P k).
Proof.
  induction 1 as [|x l k Hs IH|x l k Hs IH]; [constructor| |].
  - rewrite !filter_cons. destruct (decide (P x)); [by constructor|done].
  - rewrite filter_cons. destruct (decide (P x)); [by constructor|done].
Qed.

(** The state of a loop that has started [i] pages and dropped none. *)
Definition noneDropped (i : nat) (st : PoolState (list Post)) : Prop :=
  executing st = seq 0 i /\ length (started st) = i.

Lemma pageStep_below_limit (postType : string) (c : Z)
    (st : PoolState (list Post)) (i : nat) (pageNumber : Z) :
  Z.of_nat (S i) < c -> noneDropped i st ->
  noneDropped (S i) (pageStep page postType c st i pageNumber).
Proof.
  intros Hc (Hex & Hlen). unfold pageStep.
  destruct (page postType pageNumber) as [latency out].
  cbn [executing started clock]. rewrite Hex, length_app, length_seq.
  cbn [length].
  destruct (Z.leb_spec c (Z.of_nat (i + 1))); [lia|].
  split; cbn [executing started].
  - by rewrite seq_S.
  - rewrite length_app. cbn. lia.
Qed.

Lemma pageLoop_below_limit (postType : string) (c : Z) (pages : list Z) :
  forall (st : PoolState (list Post)) (i : nat),
    Z.of_nat (i + length pages) < c -> noneDropped i st ->
    noneDropped (i + length pages) (pageLoop page postType c st i pages).
Proof.
  induction pages as [|pn pages IH]; intros st i Hc Hst;
    cbn [pageLoop length].
  - by rewrite Nat.add_0_r.
  - cbn [length] in Hc. rewrite Nat.add_succ_r, <- Nat.add_succ_l.
    apply IH; [lia|]. apply pageStep_below_limit; [lia|done].
Qed.

(** X27: pages are never invented or reordered, and below the
    concurrency limit none is lost.  [fetchPagesWithConcurrency] returns,
    in page order, some of the non-empty answers of the pages it was
    given (a failed page counting as empty); and when there are fewer
    pages than [maxConcurrency] it returns all of them. *)
Theorem pages_fetched_in_order (postType : string) (pages : list Z)
    (maxConcurrency : Z) :
  sublist (fetchPagesWithConcurrency page postType pages maxConcurrency)
          (filter (fun posts => posts <> [])
                  (postsOfPage postType <$> pages))
  /\ (Z.of_nat (length pages) < maxConcurrency ->
      fetchPagesWithConcurrency page postType pages maxConcurrency
      = filter (fun posts => posts <> []) (postsOfPage postType <$> pages)).
Proof.
  unfold fetchPagesWithConcurrency. cbv zeta.
  pose proof (started_pageLoop postType maxConcurrency pages
                {| clock := 0; started := []; executing := [] |} 0%nat)
    as Hstarted.
  cbn [started fmap list_fmap app] in Hstarted.
  set (st := pageLoop _ _ _ _ _ _) in *. rewrite <- Hstarted. split.
  - apply filter_sublist, omap_sublist.
    intros task posts. by destruct (finish task <=? _); [intros [= <-]|].
  - intros Hc. f_equal.
    destruct (pageLoop_below_limit postType maxConcurrency pages
                {| clock := 0; started := []; executing := [] |} 0%nat
                ltac:(cbn [Nat.add]; lia) ltac:(done)) as (Hex & Hlen).
    fold st in Hex, Hlen. cbn [Nat.add] in *.
    apply omap_all, Forall_lookup_2. intros k task Hk.
    + assert (finish task <= afterAll (clock st) (started st) (executing st))
        as Hfin.
      { destruct (PoolFacts.afterAll_ge (clock st) (started st)
                    (executing st)) as [_ Hall].
        specialize (Hall k). unfold finishOf in Hall. rewrite Hk in Hall.
        apply Hall. rewrite Hex. apply elem_of_seq.
        apply lookup_lt_Some in Hk. lia. }
      by destruct (Z.leb_spec (finish task)
                     (afterAll (clock st) (started st) (executing st)));
        [|lia].
Qed.

(** ** Failures *)

Lemma concat_nils {A : Type} (ls : list (list A)) :
  Forall (fun l => l = []) ls -> concat ls = [].
Proof. induction 1 as [|l ls -> _ IH]; [done|]. by cbn. Qed.

(** X28: a WordPress that answers no post empties the domain.  The
    client swallows every failure of the posts endpoint, so when the
    first page of every post type to index fails, [fetchAllPosts] yields
    no document without throwing; a run of [clean] that gets this answer
    (reconciliation enabled, the other collaborators answering) then
    deletes every vector of the domain whose id parses as a post id. *)
Theorem failing_posts_endpoint_empties_domain
    (settings : Settings.IndexerSettings)
    (response : Settled (list (string * TypeData)))
    (c : Clean.Collaborators) (store : Pinecone.Store)
    (cleanSettings : Clean.IndexerSettings) :
  Forall (fun postType => exists error, firstPage postType = Rejected error)
         (getPostTypesToIndex settings response) ->
  Clean.fetchSettings c = Fulfilled cleanSettings ->
  Clean.clean_deleted cleanSettings = true ->
  Clean.initialize c = Fulfilled tt ->
  Clean.fetchAllPosts c
  = Fulfilled (fetchAllPosts processPost firstPage page settings response) ->
  Clean.getStats c = Fulfilled tt ->
  Pinecone.list_error (Clean.remote c) = None ->
  (forall k, Pinecone.deleteMany_error (Clean.remote c) k = None) ->
  fetchAllPosts processPost firstPage page settings response = []
  /\ (Clean.clean c store).1 = Fulfilled tt
  /\ forall v md d,
       store !! v = Some (Some md) ->
       Pinecone.domain md = Clean.settings_domain cleanSettings ->
       Clean.postIdOfVectorId v = Some d ->
       (Clean.clean c store).2 !! v = None.
Proof.
  intros Hfail Hs Hc Hi Hp Hg Hl Hd.
  assert (fetchAllPosts processPost firstPage page settings response = [])
    as Hnone.
  { unfold fetchAllPosts. apply concat_nils, Forall_fmap.
    eapply Forall_impl; [exact Hfail|]. cbn beta.
    intros postType [error He]. unfold compose, fetchPostType.
    by rewrite He. }
  split; [done|]. rewrite Hnone in Hp.
  destruct (CleanTwice.clean_unfold c store cleanSettings [] Hs Hc Hi Hp Hg Hl)
    as (ids & Hlist & ->).
  destruct (CleanFacts.deleteByVectorIds_ok (Clean.remote c)
              (Clean.vectorIdsToDelete (list_to_set (Clean.doc_id <$> []))
                 ids) store Hd) as [Hok Hgone].
  split; [done|]. intros v md d Hv Hdom Hparse. apply Hgone.
  apply CleanFacts.elem_of_vectorIdsToDelete. split.
  - apply (CleanFacts.elem_of_listVectorIdsForDomain _ _ _ _ v Hlist).
    by exists md.
  - exists d. split; [done|]. cbn. set_solver.
Qed.

End Fetch.

(** ** Instances *)

Definition wpSettings : Settings.IndexerSettings :=
  {| Settings.schema_version := Some 1; Settings.post_types := ["post"; "page"]%string;
     Settings.post_types_exclude := ["attachment"]%string;
     Settings.auto_discover := false; Settings.clean_deleted := true;
     Settings.embedding_model := "text-embedding-3-small";
     Settings.embedding_dimension := Some 1536;
     Settings.chunk_size := Some 500; Settings.chunk_overlap := Some 50;
     Settings.pinecone_index_host := "host";
     Settings.pinecone_index_name := "name";
     Settings.domain := "example.com" |}.

(** A posts endpoint that times out on every request. *)
Definition timesOut {A : Type} : Settled A :=
  Rejected {| message := "timeout of 30000ms exceeded"; status := None;
              code := Some "ECONNABORTED"%string |}.

(** A [clean] run whose WordPress yielded no document. *)
Definition outageRun : Clean.Collaborators :=
  {| Clean.fetchSettings :=
       Fulfilled {| Clean.clean_deleted := true; Clean.chunk_size := 500;
                    Clean.chunk_overlap := 50;
                    Clean.settings_domain := "example.com" |};
     Clean.initialize := Fulfilled tt;
     Clean.fetchAllPosts := Fulfilled [];
     Clean.getStats := Fulfilled tt;
     Clean.remote := {| Pinecone.deleteMany_error := fun _ => None;
                        Pinecone.list_error := None |} |}.

Lemma failing_posts_endpoint_empties_domain_witness :
  (Clean.clean outageRun Reconciliation.postStore).2 !! "post-1-chunk-0"%string
  = None.
Proof.
  refine (proj2 (proj2 (failing_posts_endpoint_empties_domain
              (fun _ : unit => None) (fun _ => timesOut)
              (fun _ _ => (0, timesOut)) wpSettings timesOut outageRun
              Reconciliation.postStore
              {| Clean.clean_deleted := true; Clean.chunk_size := 500;
                 Clean.chunk_overlap := 50;
                 Clean.settings_domain := "example.com" |}
              _ _ _ _ _ _ _ _))
            "post-1-chunk-0"%string
            (Reconciliation.sampleMetadata 1 0 "example.com") 1 _ _ _);
    try reflexivity.
  apply Forall_forall. intros postType _. by eexists.
Defined.

End WordPressFacts.

(* ===================================================================== *)
(** * The time spent waiting by [retryWithBackoff]                        *)
(* ===================================================================== *)

Module RetryBudget.

Import Js Utils.

Definition total (sleeps : list Z) : Z := foldr Z.add 0 sleeps.

Lemma backoffWait_range (baseDelay maxDelay : Z) (attempt : nat) (r : Q) :
  (0 <= r)%Q -> (r < 1)%Q -> 0 <= baseDelay -> 0 <= maxDelay ->
  0 <= backoffWait baseDelay maxDelay attempt r
  /\ 8 * backoffWait baseDelay maxDelay attempt r <= 9 * maxDelay.
Proof.
  intros Hr0 Hr1 Hb Hm.
  assert (0 <= backoffDelay baseDelay maxDelay attempt <= maxDelay) as Hd.
  { unfold backoffDelay.
    pose proof (Z.pow_nonneg 2 (Z.of_nat attempt) ltac:(lia)). nia. }
  destruct (RetryFacts.backoffWait_bounds baseDelay maxDelay attempt r
              Hr0 Hr1 (proj1 Hd)) as [Hlo Hhi].
  set (t := backoffWait baseDelay maxDelay attempt r) in *.
  set (d := backoffDelay baseDelay maxDelay attempt) in *.
  assert (0 <= inject_Z d)%Q as HdQ
    by (change 0%Q with (inject_Z 0); rewrite <- Zle_Qle; lia).
  split.
  - apply Z.lt_succ_r. rewrite Zlt_Qlt. unfold Z.succ.
    rewrite inject_Z_plus. change (inject_Z 0) with 0%Q.
    change (inject_Z 1) with 1%Q. lra.
  - assert (8 * t <= 9 * d); [|lia].
    rewrite Zle_Qle, !inject_Z_mult.
    change (inject_Z 8) with 8%Q. change (inject_Z 9) with 9%Q. lra.
Qed.

Lemma total_bound (bound : Z) (sleeps : list Z) :
  Forall (fun t => 0 <= t /\ 8 * t <= bound) sleeps ->
  0 <= total sleeps /\ 8 * total sleeps <= bound * Z.of_nat (length sleeps).
Proof.
  induction 1 as [|t sleeps [Ht0 Ht] _ [IH0 IH]]; cbn [total foldr length];
    [lia|].
  fold (total sleeps). split; [lia|]. rewrite Nat2Z.inj_succ. lia.
Qed.

(** X29: the waiting of [retryWithBackoff] is bounded.  For delays that
    are not negative and draws of [Math.random] in [0, 1), the call
    sleeps at most [maxRetries] times, each sleep lasts between 0 and 9/8
    of [maxDelay], and all sleeps together last at most
    [maxRetries * 9/8 * maxDelay]. *)
Theorem retry_waiting_is_bounded {World T : Type}
    (sleep : Z -> World -> World) (random : nat -> Q)
    (fn : World -> World * Settled T) (maxRetries : nat)
    (baseDelay maxDelay : Z) (w : World) :
  (forall k, (0 <= random k)%Q /\ (random k < 1)%Q) ->
  0 <= baseDelay -> 0 <= maxDelay ->
  let sleeps :=
    (retryWithBackoff sleep random fn maxRetries baseDelay maxDelay w).2 in
  (length sleeps <= maxRetries)%nat
  /\ Forall (fun t => 0 <= t /\ 8 * t <= 9 * maxDelay) sleeps
  /\ 0 <= total sleeps
  /\ 8 * total sleeps <= 9 * maxDelay * Z.of_nat maxRetries.
Proof.
  intros Hr Hb Hm. cbv zeta. unfold retryWithBackoff.
  destruct (RetryFacts.retry_sleeps sleep random fn baseDelay maxDelay
              maxRetries 0%nat w) as [Hlen Hnth].
  set (sleeps := (retryFrom _ _ _ _ _ _ _ _).2) in *.
  assert (Forall (fun t => 0 <= t /\ 8 * t <= 9 * maxDelay) sleeps) as Hall.
  { apply Forall_lookup_2. intros i t Hi. rewrite (Hnth i t Hi).
    destruct (Hr (0 + i)%nat). by apply backoffWait_range. }
  split; [done|]. split; [done|].
  destruct (total_bound _ _ Hall) as [H0 H1]. split; [done|]. nia.
Qed.

Lemma retry_waiting_is_bounded_witness :
  8 * total (retryWithBackoff (fun _ calls => calls) (fun _ => 9 # 10)
               RetryFacts.thirdTimeLucky 3 1000 30000 0%nat).2
  <= 9 * 30000 * 3.
Proof.
  apply (retry_waiting_is_bounded (fun _ calls => calls) (fun _ => 9 # 10)
           RetryFacts.thirdTimeLucky 3 1000 30000 0%nat).
  - intros _. split; [discriminate|reflexivity].
  - lia.
  - lia.
Defined.

End RetryBudget.

(* ===================================================================== *)
(** * The batches built by the [slice] loops                              *)
(* ===================================================================== *)

Module BatchingFacts.

Import Pinecone.

Lemma slices_fuel_lookup {A : Type} (size fuel : nat) :
  (0 < size)%nat ->
  forall (l : list A) (i : nat),
    (length l <= fuel)%nat ->
    slices_fuel fuel size l !! i
    = if decide (i * size < length l)%nat
      then Some (take size (drop (i * size) l))
      else None.
Proof.
  intros Hsize. induction fuel as [|fuel IH]; intros l i Hlen.
  { destruct l; [|cbn in Hlen; lia]. cbn [slices_fuel length].
    destruct (decide _); [lia|done]. }
  destruct l as [|x l].
  { cbn [slices_fuel length]. destruct (decide _); [lia|done]. }
  set (xs := x :: l) in *.
  change (slices_fuel (S fuel) size xs)
    with (take size xs :: slices_fuel fuel size (drop size xs)).
  destruct i as [|i].
  { cbn [lookup list_lookup Nat.mul drop].
    destruct (decide _) as [|Hn]; [done|]. unfold xs in Hn. cbn in Hn. lia. }
  cbn [lookup list_lookup]. change (list_lookup i ?k) with (k !! i).
  rewrite IH by (rewrite length_drop; unfold xs in *; cbn [length] in *; lia).
  rewrite length_drop, drop_drop.
  replace (size + i * size)%nat with (S i * size)%nat by lia.
  destruct (decide (i * size < length xs - size)%nat),
    (decide (S i * size < length xs)%nat); (done || lia).
Qed.

(** X30: the batching loops partition their input.  For a positive
    batch size, the batches cut by [for (i = 0; i < n; i += size)
    batches.push(list.slice(i, i + size))] put back together give the list;
    batch [i] is the slice from [i * size]; there is a batch [i] exactly
    when [i * size] is below the length; and every batch is non-empty and
    at most [size] long, all but the last being exactly [size] long. *)
Theorem batches_partition {A : Type} (size : nat) (l : list A) :
  (0 < size)%nat ->
  concat (slices size l) = l
  /\ (forall i, (i < length (slices size l))%nat
                <-> (i * size < length l)%nat)
  /\ (forall i batch,
         slices size l !! i = Some batch ->
         batch = take size (drop (i * size) l)
         /\ batch <> []
         /\ (length batch <= size)%nat
         /\ ((S i < length (slices size l))%nat -> length batch = size)).
Proof.
  intros Hsize.
  assert (forall i, slices size l !! i
                    = if decide (i * size < length l)%nat
                      then Some (take size (drop (i * size) l))
                      else None) as Hlookup.
  { intros i. by apply slices_fuel_lookup. }
  assert (forall i, (i < length (slices size l))%nat
                    <-> (i * size < length l)%nat) as Hcount.
  { intros i. rewrite <- lookup_lt_is_Some, Hlookup.
    destruct (decide _); split; try done; try (by eexists); by intros [? ?]. }
  split; [by apply CleanFacts.concat_slices|]. split; [done|].
  intros i batch Hi. rewrite Hlookup in Hi.
  destruct (decide _) as [Hlt|]; [|done]. injection Hi as <-.
  split; [done|]. split; [|split].
  - intros Hnil. apply (f_equal length) in Hnil.
    rewrite length_take, length_drop in Hnil. cbn in Hnil. lia.
  - rewrite length_take. lia.
  - intros Hnext. apply Hcount in Hnext.
    rewrite length_take, length_drop. lia.
Qed.

Lemma batches_partition_witness :
  concat (slices 2 [1; 2; 3; 4; 5]) = [1; 2; 3; 4; 5]
  /\ length (slices 2 [1; 2; 3; 4; 5]) = 3%nat.
Proof.
  destruct (batches_partition 2 [1; 2; 3; 4; 5]) as (Hconcat & _ & _).
  - lia.
  - split; [exact Hconcat|reflexivity].
Defined.

End BatchingFacts.
